(** * The orbital visualisation core of BewareOfTheRocks, embedded in Rocq

    The development follows the JavaScript sources:
    - [render/Meteor.js]: procedural asteroid geometry ([Meteor]);
    - [ThreeDemo.js], [IntroSlide.js]: progressive creation of meteors
      ([Progressive]);
    - [controller/CameraController.js]: the orbit camera and its lock
      state machine ([CameraController]);
    - [render/Orbit.js] is imported by the sources but is not part of
      them; the propagator is modelled from its specification ([Orbit]).

    Numbers.  Mesh generation and orbit propagation never inspect a
    number for NaN or infinity, so there JavaScript numbers are idealised
    as real numbers (exact arithmetic, no rounding).  The camera
    controller tests [isNaN] and [isFinite] explicitly, so it is embedded
    over [JsNum.num], the reals extended with the two infinities and NaN. *)

From Stdlib Require Import Reals Lra Lia List ZArith String Bool Arith.
Import ListNotations.
Local Open Scope R_scope.

(** ** [Math.random]: a stream of draws consumed one at a time *)

Module JsRandom.

Record Rng := mkRng { draws : nat -> R; cursor : nat }.

(** [Math.random()] returns the next draw and advances the generator. *)
Definition random (g : Rng) : R * Rng :=
  (draws g (cursor g), mkRng (draws g) (S (cursor g))).

(** Every draw lies in the half-open unit interval. *)
Definition in_unit_interval (g : Rng) : Prop :=
  forall n : nat, 0 <= draws g n < 1.

(** A generator whose every draw is the same value. *)
Definition constant (u : R) : Rng := mkRng (fun _ => u) 0.

End JsRandom.

(** ** The fragment of three.js used by the mesh generator *)

Module Three.

Record Vector3 := mkVector3 { x : R; y : R; z : R }.

Definition length (v : Vector3) : R :=
  sqrt (x v * x v + y v * y v + z v * z v).

Definition multiplyScalar (v : Vector3) (s : R) : Vector3 :=
  mkVector3 (x v * s) (y v * s) (z v * s).

Definition divideScalar (v : Vector3) (s : R) : Vector3 :=
  multiplyScalar v (1 / s).

(** [normalize] divides by [this.length() || 1]. *)
Definition normalize (v : Vector3) : Vector3 :=
  divideScalar v (if Req_dec_T (length v) 0 then 1 else length v).

(** A buffer geometry is represented by its position attribute. *)
Definition BufferGeometry := list Vector3.

Definition scale (g : BufferGeometry) (sx sy sz : R) : BufferGeometry :=
  map (fun v => mkVector3 (x v * sx) (y v * sy) (z v * sz)) g.

(** [SphereGeometry(radius, widthSegments, heightSegments)] with the
    default full angular ranges: rows [iy = 0..heightSegments] from the
    north pole down, each with columns [ix = 0..widthSegments]. *)
Definition sphereVertex (radius : R) (W H ix iy : nat) : Vector3 :=
  let u := INR ix / INR W in
  let v := INR iy / INR H in
  mkVector3 (- radius * cos (u * (2 * PI)) * sin (v * PI))
            (radius * cos (v * PI))
            (radius * sin (u * (2 * PI)) * sin (v * PI)).

Definition SphereGeometry (radius : R) (widthSegments heightSegments : nat)
  : BufferGeometry :=
  let W := Nat.max 3 widthSegments in
  let H := Nat.max 2 heightSegments in
  flat_map (fun iy => map (fun ix => sphereVertex radius W H ix iy)
                          (seq 0 (S W)))
           (seq 0 (S H)).

End Three.

(** ** [render/Meteor.js] *)

Module Meteor.
Import JsRandom Three.

(** [simpleNoise(x, y, z)] *)
Definition simpleNoise (x y z : R) : R :=
  (sin (x * 2.1 + y * 1.3 + z * 0.7) * 0.5 +
   sin (x * 1.7 + y * 2.9 + z * 1.1) * 0.3 +
   sin (x * 3.3 + y * 0.9 + z * 2.3) * 0.2) / 3.

(** The three noise layers combined, for a unit direction and a seed. *)
Definition deformation (direction : Vector3) (seed : R) : R :=
  let noise1 := simpleNoise (Three.x direction * 3 + seed)
                  (Three.y direction * 3 + seed) (Three.z direction * 3 + seed) in
  let noise2 := simpleNoise (Three.x direction * 8 + seed)
                  (Three.y direction * 8 + seed) (Three.z direction * 8 + seed) in
  let noise3 := simpleNoise (Three.x direction * 15 + seed)
                  (Three.y direction * 15 + seed) (Three.z direction * 15 + seed) in
  noise1 * 0.3 + noise2 * 0.15 + noise3 * 0.08.

(** The body of the loop of [createGeoidGeometry] for one vertex. *)
Definition displace (radius seed : R) (vertex : Vector3) : Vector3 :=
  let direction := normalize vertex in
  let newRadius := radius * (0.85 + deformation direction seed * 0.3) in
  multiplyScalar vertex (newRadius / length vertex).

(** [createGeoidGeometry(radius, segments)]: the seed is not an argument,
    it is drawn from [Math.random] inside the function. *)
Definition createGeoidGeometry (radius : R) (segments : nat) (g : Rng)
  : BufferGeometry * Rng :=
  let geometry := SphereGeometry radius segments segments in
  let (r, g') := random g in
  let seed := r * 1000 in
  (map (displace radius seed) geometry, g').

(** The preprocessed objects handed to a meteor; materials are opaque. *)
Record PreprocessedObjects := mkPreprocessed
  { meteorGeometries : option (list BufferGeometry);
    meteorMaterials : option (list nat) }.

(** [Math.floor(Math.random() * n)] as a list index. *)
Definition randomIndexOf (r : R) (n : nat) : nat :=
  Z.to_nat (Int_part (r * INR n)).

(** The geometry of the mesh built by [createMeteorMesh]: a clone of a
    randomly picked preprocessed geometry, scaled by [radius / 0.3], when
    preprocessed objects are present, and the geoid otherwise.  [None]
    stands for the exception raised when the picked entry is missing. *)
Definition createMeteorMesh (radius : R) (segments : nat)
    (preprocessedObjects : PreprocessedObjects) (g : Rng)
  : option BufferGeometry * Rng :=
  match meteorGeometries preprocessedObjects,
        meteorMaterials preprocessedObjects with
  | Some geometries, Some materials =>
      if (0 <? List.length geometries)%nat then
        let (r, g') := random g in
        let randomIndex := randomIndexOf r (List.length geometries) in
        match nth_error geometries randomIndex,
              nth_error materials randomIndex with
        | Some geometry, Some _ =>
            let scaleFactor := radius / 0.3 in
            (Some (scale geometry scaleFactor scaleFactor scaleFactor), g')
        | _, _ => (None, g')
        end
      else
        let (geometry, g') := createGeoidGeometry radius segments g in
        (Some geometry, g')
  | _, _ =>
      let (geometry, g') := createGeoidGeometry radius segments g in
      (Some geometry, g')
  end.

End Meteor.


(** ** The two-argument arctangent on the reals *)

Module RealFun.

Definition atan2 (b a : R) : R :=
  if Rlt_dec 0 a then atan (b / a)
  else if Rlt_dec a 0 then
         (if Rle_dec 0 b then atan (b / a) + PI else atan (b / a) - PI)
  else if Rlt_dec 0 b then PI / 2
  else if Rlt_dec b 0 then - (PI / 2)
  else 0.

End RealFun.

(** ** Orbit propagation *)

Module Orbit.
Import RealFun.

Record Vec3 := mkVec3 { px : R; py : R; pz : R }.

Record OrbitalElements := mkElements
  { semiMajorAxis : R;
    eccentricity : R;
    period : R;
    inclination : R;
    omega : R;
    raan : R }.

(** Valid elements: a positive size, a closed orbit, a positive period. *)
Definition valid (el : OrbitalElements) : Prop :=
  0 < semiMajorAxis el /\ 0 <= eccentricity el < 1 /\ 0 < period el.

(** [t mod period], the remainder of the floored division. *)
Definition Rmod (t T : R) : R := t - T * IZR (Int_part (t / T)).

(** Newton-Raphson on Kepler's equation [M = E - e sin E]: at most [n]
    further steps, stopping as soon as a step is shorter than [1e-6]; the
    last estimate is returned when the cap is reached. *)
Fixpoint newton (e M : R) (n : nat) (E : R) : R :=
  match n with
  | O => E
  | S n' =>
      let dE := (E - e * sin E - M) / (1 - e * cos E) in
      if Rlt_dec (Rabs dE) 1e-6 then E - dE else newton e M n' (E - dE)
  end.

Definition iterationCap : nat := 30.

Definition eccentricAnomaly (e M : R) : R := newton e M iterationCap M.

Definition rotateInPlane (angle : R) (p : Vec3) : Vec3 :=
  mkVec3 (px p * cos angle - pz p * sin angle)
         (py p)
         (px p * sin angle + pz p * cos angle).

Definition tilt (angle : R) (p : Vec3) : Vec3 :=
  mkVec3 (px p)
         (py p * cos angle - pz p * sin angle)
         (py p * sin angle + pz p * cos angle).

(** Modelled from the spec: [render/Orbit.js], the propagator that
    [Meteor.js] imports, is not among the sources.  The definition follows
    section 4.1 of the specification step by step: mean anomaly from
    [t mod period], eccentric anomaly by Newton-Raphson seeded with the
    mean anomaly, true anomaly, radius, position in the orbital plane, and
    the rotations by [omega], [inclination] and [raan] in that order. *)
Definition propagate (el : OrbitalElements) (t : R) : Vec3 :=
  let M := 2 * PI * (Rmod t (period el)) / period el in
  let E := eccentricAnomaly (eccentricity el) M in
  let nu := 2 * atan2 (sqrt (1 + eccentricity el) * sin (E / 2))
                      (sqrt (1 - eccentricity el) * cos (E / 2)) in
  let r := semiMajorAxis el * (1 - eccentricity el * cos E) in
  let inPlane := mkVec3 (r * cos nu) 0 (r * sin nu) in
  rotateInPlane (raan el) (tilt (inclination el) (rotateInPlane (omega el) inPlane)).

Definition norm (p : Vec3) : R :=
  sqrt (px p * px p + py p * py p + pz p * pz p).

Definition minus (p q : Vec3) : Vec3 :=
  mkVec3 (px p - px q) (py p - py q) (pz p - pz q).

(** [q] equals [p] within the relative tolerance [tol]. *)
Definition within (tol : R) (p q : Vec3) : Prop :=
  norm (minus p q) <= tol * norm p.

End Orbit.

(** ** Progressive creation of meteors ([ThreeDemo.js], [IntroSlide.js]) *)

Module Progressive.

Definition METEOR_BATCH_SIZE : nat := 10.
Definition MAX_METEORS : nat := 200.

Section Creation.

Context {OrbitRecord Meteor : Type}.

(** The body of the [try] block once the record has been read: building
    the meteor, giving it the camera and starting its orbit.  The
    constructors live outside the sources; [None] stands for a thrown
    exception, which the [catch] clause logs. *)
Variable construct : nat -> OrbitRecord -> option Meteor.

(** The variables captured by [createBatch]: the next index, the shared
    [meteors] array and the number of logged failures. *)
Record State := mkState
  { index : nat;
    meteors : list Meteor;
    failures : nat }.

(** One iteration of the [for] loop.  An entry of [orbits] is [None] when
    the array holds [null] or [undefined] there: reading its
    [semiMajorAxis] throws, and the exception is caught like any other. *)
Definition iteration (orbits : list (option OrbitRecord)) (st : State) : State :=
  match nth_error orbits (index st) with
  | Some (Some record) =>
      match construct (index st) record with
      | Some meteor =>
          mkState (S (index st)) (meteors st ++ [meteor]) (failures st)
      | None => mkState (S (index st)) (meteors st) (S (failures st))
      end
  | _ => mkState (S (index st)) (meteors st) (S (failures st))
  end.

Fixpoint iterations (orbits : list (option OrbitRecord)) (n : nat) (st : State)
  : State :=
  match n with
  | O => st
  | S n' => iterations orbits n' (iteration orbits st)
  end.

(** [createBatch]: the loop [for (; index < end; index++)]. *)
Definition createBatch (orbits : list (option OrbitRecord))
    (batchSize total : nat) (st : State) : State :=
  let end_ := Nat.min (index st + batchSize) total in
  iterations orbits (end_ - index st) st.

(** The outcome of a run: the captured state, the length of [meteors] at
    each call of [onBatchCreated], and whether a timer is still pending. *)
Record Outcome := mkOutcome
  { state : State;
    boundaries : list nat;
    pending : bool }.

(** [createBatch] followed by the batches that [setTimeout] reschedules;
    [timers] bounds how many timers are allowed to fire. *)
Fixpoint run (timers : nat) (orbits : list (option OrbitRecord))
    (batchSize total : nat) (st : State) (seen : list nat) : Outcome :=
  let st' := createBatch orbits batchSize total st in
  let seen' := seen ++ [List.length (meteors st')] in
  if (index st' <? total)%nat then
    match timers with
    | O => mkOutcome st' seen' true
    | S timers' => run timers' orbits batchSize total st' seen'
    end
  else mkOutcome st' seen' false.

(** [createMeteorsFromOrbitsProgressive]; [scene] and [sun] tell whether
    the corresponding argument is present. *)
Definition createMeteorsFromOrbitsProgressive
    (orbits : list (option OrbitRecord)) (scene sun : bool)
    (batchSize timers : nat) : Outcome :=
  if (List.length orbits =? 0)%nat || negb scene || negb sun then
    mkOutcome (mkState 0 [] 0) [] false
  else
    let total := Nat.min (List.length orbits) MAX_METEORS in
    run timers orbits batchSize total (mkState 0 [] 0) [].

(** Whether the iteration for index [i] adds a meteor. *)
Definition succeeds (orbits : list (option OrbitRecord)) (i : nat) : bool :=
  match nth_error orbits i with
  | Some (Some record) =>
      match construct i record with Some _ => true | None => false end
  | _ => false
  end.

(** The number of successful iterations among indices [lo .. lo + n - 1]. *)
Fixpoint successes (orbits : list (option OrbitRecord)) (lo n : nat) : nat :=
  match n with
  | O => 0
  | S n' => (if succeeds orbits lo then 1 else 0) + successes orbits (S lo) n'
  end.

End Creation.

Arguments State : clear implicits.
Arguments Outcome : clear implicits.

End Progressive.

(** ** JavaScript numbers with their non-finite values

    A number is a real, one of the two infinities, or NaN.  Arithmetic on
    finite values is exact; the results on infinities and NaN follow
    IEEE 754.  Signed zeros are not distinguished. *)

Module JsNum.
Import RealFun.

Inductive num : Type :=
| Fin (r : R)
| PInf
| NInf
| NaN.

Definition isNaN (a : num) : bool :=
  match a with NaN => true | _ => false end.

Definition isFinite (a : num) : bool :=
  match a with Fin _ => true | _ => false end.

Definition Rltb (a b : R) : bool := if Rlt_dec a b then true else false.
Definition Reqb (a b : R) : bool := if Req_dec_T a b then true else false.

Definition neg (a : num) : num :=
  match a with
  | Fin r => Fin (- r)
  | PInf => NInf
  | NInf => PInf
  | NaN => NaN
  end.

Definition add (a b : num) : num :=
  match a, b with
  | Fin r, Fin q => Fin (r + q)
  | NaN, _ | _, NaN => NaN
  | PInf, NInf | NInf, PInf => NaN
  | PInf, _ | _, PInf => PInf
  | NInf, _ | _, NInf => NInf
  end.

Definition sub (a b : num) : num := add a (neg b).

(** An infinity of the sign of [r] times the sign given by [positive]. *)
Definition infinityTimes (positive : bool) (r : R) : num :=
  if Rlt_dec 0 r then (if positive then PInf else NInf)
  else if Rlt_dec r 0 then (if positive then NInf else PInf)
  else NaN.

Definition mul (a b : num) : num :=
  match a, b with
  | Fin r, Fin q => Fin (r * q)
  | NaN, _ | _, NaN => NaN
  | Fin r, PInf | PInf, Fin r => infinityTimes true r
  | Fin r, NInf | NInf, Fin r => infinityTimes false r
  | PInf, PInf | NInf, NInf => PInf
  | PInf, NInf | NInf, PInf => NInf
  end.

Definition div (a b : num) : num :=
  match a, b with
  | Fin r, Fin q => if Req_dec_T q 0 then infinityTimes true r else Fin (r / q)
  | NaN, _ | _, NaN => NaN
  | Fin _, PInf | Fin _, NInf => Fin 0
  | PInf, Fin q => if Rlt_dec q 0 then NInf else PInf
  | NInf, Fin q => if Rlt_dec q 0 then PInf else NInf
  | _, _ => NaN
  end.

(** [a < b]; every comparison with NaN is false. *)
Definition lt (a b : num) : bool :=
  match a, b with
  | Fin r, Fin q => Rltb r q
  | NaN, _ | _, NaN => false
  | _, NInf => false
  | PInf, _ => false
  | _, PInf => true
  | NInf, _ => true
  end.

Definition gt (a b : num) : bool := lt b a.

(** [a === b] on numbers. *)
Definition eqb (a b : num) : bool :=
  match a, b with
  | Fin r, Fin q => Reqb r q
  | PInf, PInf | NInf, NInf => true
  | _, _ => false
  end.

(** [Math.max] and [Math.min] of two arguments: NaN if either is NaN. *)
Definition max (a b : num) : num :=
  match a, b with
  | NaN, _ | _, NaN => NaN
  | _, _ => if lt a b then b else a
  end.

Definition min (a b : num) : num :=
  match a, b with
  | NaN, _ | _, NaN => NaN
  | _, _ => if lt b a then b else a
  end.

Definition abs (a : num) : num :=
  match a with
  | Fin r => Fin (Rabs r)
  | PInf | NInf => PInf
  | NaN => NaN
  end.

Definition sqrt (a : num) : num :=
  match a with
  | Fin r => if Rlt_dec r 0 then NaN else Fin (R_sqrt.sqrt r)
  | PInf => PInf
  | NInf | NaN => NaN
  end.

Definition sin (a : num) : num :=
  match a with Fin r => Fin (Rtrigo_def.sin r) | _ => NaN end.

Definition cos (a : num) : num :=
  match a with Fin r => Fin (Rtrigo_def.cos r) | _ => NaN end.

Definition acos (a : num) : num :=
  match a with
  | Fin r => if Rlt_dec r (-1) then NaN
             else if Rlt_dec 1 r then NaN
             else Fin (Ratan.acos r)
  | _ => NaN
  end.

(** [Math.atan2(b, a)]. *)
Definition atan2 (b a : num) : num :=
  match b, a with
  | NaN, _ | _, NaN => NaN
  | Fin q, Fin r => Fin (RealFun.atan2 q r)
  | Fin _, PInf => Fin 0
  | Fin q, NInf => if Rlt_dec q 0 then Fin (- PI) else Fin PI
  | PInf, Fin _ => Fin (PI / 2)
  | NInf, Fin _ => Fin (- (PI / 2))
  | PInf, PInf => Fin (PI / 4)
  | PInf, NInf => Fin (3 * PI / 4)
  | NInf, PInf => Fin (- (PI / 4))
  | NInf, NInf => Fin (- (3 * PI / 4))
  end.

(** Truthiness of a number: [0] and NaN are falsy. *)
Definition truthy (a : num) : bool :=
  match a with
  | Fin r => negb (Reqb r 0)
  | PInf | NInf => true
  | NaN => false
  end.

Definition PI : num := Fin Rtrigo1.PI.

(** [MathUtils.clamp(value, min, max)] of three.js. *)
Definition clamp (value lo hi : num) : num := max lo (min hi value).

Arguments max : simpl never.
Arguments min : simpl never.
Arguments lt : simpl never.
Arguments div : simpl never.
Arguments sqrt : simpl never.
Arguments acos : simpl never.
Arguments atan2 : simpl never.
Arguments truthy : simpl never.

Declare Scope num_scope.
Delimit Scope num_scope with num.
Bind Scope num_scope with num.
Infix "+" := add : num_scope.
Infix "-" := sub : num_scope.
Infix "*" := mul : num_scope.
Infix "/" := div : num_scope.
Notation "- a" := (neg a) : num_scope.

End JsNum.

(** ** The vectors and spherical coordinates of three.js over [num] *)

Module ThreeMath.
Import JsNum.
Local Open Scope num_scope.

Record Vector3 := mkVector3 { x : num; y : num; z : num }.

Definition sub (a b : Vector3) : Vector3 :=
  mkVector3 (x a - x b) (y a - y b) (z a - z b).

Definition add (a b : Vector3) : Vector3 :=
  mkVector3 (x a + x b) (y a + y b) (z a + z b).

Definition length (v : Vector3) : num :=
  sqrt (x v * x v + y v * y v + z v * z v).

(** [lerpVectors(v1, v2, alpha)] *)
Definition lerpVectors (v1 v2 : Vector3) (alpha : num) : Vector3 :=
  mkVector3 (x v1 + (x v2 - x v1) * alpha)
            (y v1 + (y v2 - y v1) * alpha)
            (z v1 + (z v2 - z v1) * alpha).

Record Spherical := mkSpherical { radius : num; phi : num; theta : num }.

(** [Spherical.setFromVector3] *)
Definition setFromVector3 (v : Vector3) : Spherical :=
  let radius := sqrt (x v * x v + y v * y v + z v * z v) in
  if eqb radius (Fin 0) then mkSpherical radius (Fin 0) (Fin 0)
  else mkSpherical radius
         (acos (clamp (y v / radius) (Fin (-1)) (Fin 1)))
         (atan2 (x v) (z v)).

(** [Vector3.setFromSpherical] *)
Definition setFromSpherical (s : Spherical) : Vector3 :=
  let sinPhiRadius := sin (phi s) * radius s in
  mkVector3 (sinPhiRadius * sin (theta s))
            (cos (phi s) * radius s)
            (sinPhiRadius * cos (theta s)).

End ThreeMath.

(** ** [controller/CameraController.js] *)

Module CameraController.
Import JsNum ThreeMath.
Local Open Scope num_scope.
Local Open Scope string_scope.

(** The objects the camera follows (sun, earth, meteors) are known to the
    controller by reference; what it reads from them is their current
    position and their [radius] property, [None] when undefined, and what
    it calls on them is [instantiateMesh]. *)
Definition BodyId := nat.

(** What [instantiateMesh] is on an object: absent, a method whose call
    returns, or a method whose call throws, as that of [Meteor.js] does
    when [createMeteorMesh] finds no material for the geometry it
    picked. *)
Inductive MeshCall := NoInstantiateMesh | MeshReturns | MeshThrows.

Record Body := mkBody
  { getPosition : Vector3;
    bodyRadius : option num;
    instantiateMesh : MeshCall }.

(** The objects as they stand when an operation runs. *)
Definition World := BodyId -> Body.

(** The camera: its position and the point it was last turned to by
    [lookAt], which fixes its orientation. *)
Record Camera := mkCamera { position : Vector3; lookAt : Vector3 }.

Inductive LockMode := none | sun | earth | meteor.

Definition LockMode_eqb (a b : LockMode) : bool :=
  match a, b with
  | none, none | sun, sun | earth, earth | meteor, meteor => true
  | _, _ => false
  end.

(** The [onComplete] callbacks passed to [transitionToTarget]. *)
Inductive Completion :=
| CompleteSun
| CompleteEarth
| CompleteMeteor (meteorInstance : BodyId).

(** The closure [animate] of one call of [transitionToTarget]. *)
Record Animation := mkAnimation
  { targetObject : BodyId;
    targetDistance : num;
    onComplete : Completion;
    duration : num;
    startTarget : Vector3;
    startTheta : num;
    startPhi : num;
    startRadius : num;
    startTime : num }.

(** What the controller does to its surroundings. *)
Inductive Effect :=
| ConsoleLog (message : string)
| ConsoleError (message : string)
| InstantiateMesh (meteorInstance : BodyId)
| RemoveMesh (meteorInstance : BodyId).

(** The fields of the controller, followed by its surroundings: the
    callbacks registered with [requestAnimationFrame], the successive
    readings of [Date.now()], and the effects so far. *)
Record State := mkState
  { camera : Camera;
    target : Vector3;
    minDistance : num;
    maxDistance : num;
    currentDistance : num;
    isMouseDown : bool;
    lastMouseX : num;
    lastMouseY : num;
    spherical : Spherical;
    autoRotate : bool;
    lockedTarget : option BodyId;
    lockMode : LockMode;
    isTransitioning : bool;
    meteorsList : list BodyId;
    currentMeteorIndex : Z;
    sunInstance : option BodyId;
    earthInstance : option BodyId;
    currentMeteor : option BodyId;
    frames : list Animation;
    clock : nat -> num;
    clockReads : nat;
    effects : list Effect }.

Definition set_camera (v : Camera) (s : State) : State :=
  mkState v (target s) (minDistance s) (maxDistance s) (currentDistance s)
    (isMouseDown s) (lastMouseX s) (lastMouseY s) (spherical s)
    (autoRotate s) (lockedTarget s) (lockMode s) (isTransitioning s)
    (meteorsList s) (currentMeteorIndex s) (sunInstance s) (earthInstance
    s) (currentMeteor s) (frames s) (clock s) (clockReads s) (effects s).

Definition set_target (v : Vector3) (s : State) : State :=
  mkState (camera s) v (minDistance s) (maxDistance s) (currentDistance s)
    (isMouseDown s) (lastMouseX s) (lastMouseY s) (spherical s)
    (autoRotate s) (lockedTarget s) (lockMode s) (isTransitioning s)
    (meteorsList s) (currentMeteorIndex s) (sunInstance s) (earthInstance
    s) (currentMeteor s) (frames s) (clock s) (clockReads s) (effects s).

Definition set_minDistance (v : num) (s : State) : State :=
  mkState (camera s) (target s) v (maxDistance s) (currentDistance s)
    (isMouseDown s) (lastMouseX s) (lastMouseY s) (spherical s)
    (autoRotate s) (lockedTarget s) (lockMode s) (isTransitioning s)
    (meteorsList s) (currentMeteorIndex s) (sunInstance s) (earthInstance
    s) (currentMeteor s) (frames s) (clock s) (clockReads s) (effects s).

Definition set_maxDistance (v : num) (s : State) : State :=
  mkState (camera s) (target s) (minDistance s) v (currentDistance s)
    (isMouseDown s) (lastMouseX s) (lastMouseY s) (spherical s)
    (autoRotate s) (lockedTarget s) (lockMode s) (isTransitioning s)
    (meteorsList s) (currentMeteorIndex s) (sunInstance s) (earthInstance
    s) (currentMeteor s) (frames s) (clock s) (clockReads s) (effects s).

Definition set_currentDistance (v : num) (s : State) : State :=
  mkState (camera s) (target s) (minDistance s) (maxDistance s) v
    (isMouseDown s) (lastMouseX s) (lastMouseY s) (spherical s)
    (autoRotate s) (lockedTarget s) (lockMode s) (isTransitioning s)
    (meteorsList s) (currentMeteorIndex s) (sunInstance s) (earthInstance
    s) (currentMeteor s) (frames s) (clock s) (clockReads s) (effects s).

Definition set_isMouseDown (v : bool) (s : State) : State :=
  mkState (camera s) (target s) (minDistance s) (maxDistance s)
    (currentDistance s) v (lastMouseX s) (lastMouseY s) (spherical s)
    (autoRotate s) (lockedTarget s) (lockMode s) (isTransitioning s)
    (meteorsList s) (currentMeteorIndex s) (sunInstance s) (earthInstance
    s) (currentMeteor s) (frames s) (clock s) (clockReads s) (effects s).

Definition set_lastMouseX (v : num) (s : State) : State :=
  mkState (camera s) (target s) (minDistance s) (maxDistance s)
    (currentDistance s) (isMouseDown s) v (lastMouseY s) (spherical s)
    (autoRotate s) (lockedTarget s) (lockMode s) (isTransitioning s)
    (meteorsList s) (currentMeteorIndex s) (sunInstance s) (earthInstance
    s) (currentMeteor s) (frames s) (clock s) (clockReads s) (effects s).

Definition set_lastMouseY (v : num) (s : State) : State :=
  mkState (camera s) (target s) (minDistance s) (maxDistance s)
    (currentDistance s) (isMouseDown s) (lastMouseX s) v (spherical s)
    (autoRotate s) (lockedTarget s) (lockMode s) (isTransitioning s)
    (meteorsList s) (currentMeteorIndex s) (sunInstance s) (earthInstance
    s) (currentMeteor s) (frames s) (clock s) (clockReads s) (effects s).

Definition set_spherical (v : Spherical) (s : State) : State :=
  mkState (camera s) (target s) (minDistance s) (maxDistance s)
    (currentDistance s) (isMouseDown s) (lastMouseX s) (lastMouseY s) v
    (autoRotate s) (lockedTarget s) (lockMode s) (isTransitioning s)
    (meteorsList s) (currentMeteorIndex s) (sunInstance s) (earthInstance
    s) (currentMeteor s) (frames s) (clock s) (clockReads s) (effects s).

Definition set_autoRotate (v : bool) (s : State) : State :=
  mkState (camera s) (target s) (minDistance s) (maxDistance s)
    (currentDistance s) (isMouseDown s) (lastMouseX s) (lastMouseY s)
    (spherical s) v (lockedTarget s) (lockMode s) (isTransitioning s)
    (meteorsList s) (currentMeteorIndex s) (sunInstance s) (earthInstance
    s) (currentMeteor s) (frames s) (clock s) (clockReads s) (effects s).

Definition set_lockedTarget (v : option BodyId) (s : State) : State :=
  mkState (camera s) (target s) (minDistance s) (maxDistance s)
    (currentDistance s) (isMouseDown s) (lastMouseX s) (lastMouseY s)
    (spherical s) (autoRotate s) v (lockMode s) (isTransitioning s)
    (meteorsList s) (currentMeteorIndex s) (sunInstance s) (earthInstance
    s) (currentMeteor s) (frames s) (clock s) (clockReads s) (effects s).

Definition set_lockMode (v : LockMode) (s : State) : State :=
  mkState (camera s) (target s) (minDistance s) (maxDistance s)
    (currentDistance s) (isMouseDown s) (lastMouseX s) (lastMouseY s)
    (spherical s) (autoRotate s) (lockedTarget s) v (isTransitioning s)
    (meteorsList s) (currentMeteorIndex s) (sunInstance s) (earthInstance
    s) (currentMeteor s) (frames s) (clock s) (clockReads s) (effects s).

Definition set_isTransitioning (v : bool) (s : State) : State :=
  mkState (camera s) (target s) (minDistance s) (maxDistance s)
    (currentDistance s) (isMouseDown s) (lastMouseX s) (lastMouseY s)
    (spherical s) (autoRotate s) (lockedTarget s) (lockMode s) v
    (meteorsList s) (currentMeteorIndex s) (sunInstance s) (earthInstance
    s) (currentMeteor s) (frames s) (clock s) (clockReads s) (effects s).

Definition set_meteorsList (v : list BodyId) (s : State) : State :=
  mkState (camera s) (target s) (minDistance s) (maxDistance s)
    (currentDistance s) (isMouseDown s) (lastMouseX s) (lastMouseY s)
    (spherical s) (autoRotate s) (lockedTarget s) (lockMode s)
    (isTransitioning s) v (currentMeteorIndex s) (sunInstance s)
    (earthInstance s) (currentMeteor s) (frames s) (clock s) (clockReads
    s) (effects s).

Definition set_currentMeteorIndex (v : Z) (s : State) : State :=
  mkState (camera s) (target s) (minDistance s) (maxDistance s)
    (currentDistance s) (isMouseDown s) (lastMouseX s) (lastMouseY s)
    (spherical s) (autoRotate s) (lockedTarget s) (lockMode s)
    (isTransitioning s) (meteorsList s) v (sunInstance s) (earthInstance
    s) (currentMeteor s) (frames s) (clock s) (clockReads s) (effects s).

Definition set_sunInstance (v : option BodyId) (s : State) : State :=
  mkState (camera s) (target s) (minDistance s) (maxDistance s)
    (currentDistance s) (isMouseDown s) (lastMouseX s) (lastMouseY s)
    (spherical s) (autoRotate s) (lockedTarget s) (lockMode s)
    (isTransitioning s) (meteorsList s) (currentMeteorIndex s) v
    (earthInstance s) (currentMeteor s) (frames s) (clock s) (clockReads
    s) (effects s).

Definition set_earthInstance (v : option BodyId) (s : State) : State :=
  mkState (camera s) (target s) (minDistance s) (maxDistance s)
    (currentDistance s) (isMouseDown s) (lastMouseX s) (lastMouseY s)
    (spherical s) (autoRotate s) (lockedTarget s) (lockMode s)
    (isTransitioning s) (meteorsList s) (currentMeteorIndex s)
    (sunInstance s) v (currentMeteor s) (frames s) (clock s) (clockReads
    s) (effects s).

Definition set_currentMeteor (v : option BodyId) (s : State) : State :=
  mkState (camera s) (target s) (minDistance s) (maxDistance s)
    (currentDistance s) (isMouseDown s) (lastMouseX s) (lastMouseY s)
    (spherical s) (autoRotate s) (lockedTarget s) (lockMode s)
    (isTransitioning s) (meteorsList s) (currentMeteorIndex s)
    (sunInstance s) (earthInstance s) v (frames s) (clock s) (clockReads
    s) (effects s).

Definition set_frames (v : list Animation) (s : State) : State :=
  mkState (camera s) (target s) (minDistance s) (maxDistance s)
    (currentDistance s) (isMouseDown s) (lastMouseX s) (lastMouseY s)
    (spherical s) (autoRotate s) (lockedTarget s) (lockMode s)
    (isTransitioning s) (meteorsList s) (currentMeteorIndex s)
    (sunInstance s) (earthInstance s) (currentMeteor s) v (clock s)
    (clockReads s) (effects s).

Definition set_clockReads (v : nat) (s : State) : State :=
  mkState (camera s) (target s) (minDistance s) (maxDistance s)
    (currentDistance s) (isMouseDown s) (lastMouseX s) (lastMouseY s)
    (spherical s) (autoRotate s) (lockedTarget s) (lockMode s)
    (isTransitioning s) (meteorsList s) (currentMeteorIndex s)
    (sunInstance s) (earthInstance s) (currentMeteor s) (frames s) (clock
    s) v (effects s).

Definition set_effects (v : list Effect) (s : State) : State :=
  mkState (camera s) (target s) (minDistance s) (maxDistance s)
    (currentDistance s) (isMouseDown s) (lastMouseX s) (lastMouseY s)
    (spherical s) (autoRotate s) (lockedTarget s) (lockMode s)
    (isTransitioning s) (meteorsList s) (currentMeteorIndex s)
    (sunInstance s) (earthInstance s) (currentMeteor s) (frames s) (clock
    s) (clockReads s) v.

Definition rotationSpeed : num := Fin 0.01.
Definition zoomSpeed : num := Fin 0.5.
Definition autoRotateSpeed : num := Fin 0.01.

Definition isSome {A : Type} (o : option A) : bool :=
  match o with Some _ => true | None => false end.

Definition sameBody (a : option BodyId) (b : BodyId) : bool :=
  match a with Some a' => Nat.eqb a' b | None => false end.

Definition set_radius (v : num) (s : State) : State :=
  set_spherical (mkSpherical v (phi (spherical s)) (theta (spherical s))) s.

Definition set_phi (v : num) (s : State) : State :=
  set_spherical (mkSpherical (radius (spherical s)) v (theta (spherical s))) s.

Definition set_theta (v : num) (s : State) : State :=
  set_spherical (mkSpherical (radius (spherical s)) (phi (spherical s)) v) s.

Definition emit (e : Effect) (s : State) : State :=
  set_effects (effects s ++ [e]) s.

(** [Date.now()] *)
Definition dateNow (s : State) : num * State :=
  (clock s (clockReads s), set_clockReads (S (clockReads s)) s).

(** The radius that [updateMinDistanceForTarget] attributes to the
    locked object: its [radius] property when defined, and otherwise a
    default chosen by lock mode. *)
Definition targetRadius (w : World) (s : State) (locked : BodyId) : num :=
  match bodyRadius (w locked) with
  | Some r => r
  | None =>
      if LockMode_eqb (lockMode s) sun && isSome (sunInstance s) then Fin 15
      else if LockMode_eqb (lockMode s) earth && isSome (earthInstance s)
      then Fin 1
      else
        match lockMode s, currentMeteor s with
        | meteor, Some m =>
            match bodyRadius (w m) with
            | Some r => if truthy r then r else Fin 0.2
            | None => Fin 0.2
            end
        | _, _ => Fin 1
        end
  end.

(** [updateMinDistanceForTarget()] *)
Definition updateMinDistanceForTarget (w : World) (s : State) : State :=
  match lockedTarget s with
  | None => s
  | Some locked =>
      let newMinDistance := targetRadius w s locked * Fin 2.5 in
      if gt (abs (minDistance s - newMinDistance)) (Fin 0.1) then
        let s1 := set_minDistance newMinDistance s in
        if lt (currentDistance s1) (minDistance s1) then
          let s2 := set_currentDistance (minDistance s1) s1 in
          set_radius (currentDistance s2) s2
        else s1
      else s
  end.

(** The part of [update] that follows the locked object: outside a
    transition the orbit centre is copied from the object and the minimum
    distance is adjusted. *)
Definition followLockedTarget (w : World) (s : State) : State :=
  match lockedTarget s with
  | Some locked =>
      if negb (isTransitioning s) then
        updateMinDistanceForTarget w (set_target (getPosition (w locked)) s)
      else s
  | None => s
  end.

(** The auto-rotation step of [update]. *)
Definition autoRotateStep (s : State) : State :=
  if autoRotate s then set_theta (theta (spherical s) + autoRotateSpeed) s
  else s.

(** The end of [update]: the spherical coordinates are converted and
    added to the orbit centre, and the camera is turned to the centre. *)
Definition placeCamera (s : State) : State :=
  let position := add (setFromSpherical (spherical s)) (target s) in
  set_camera (mkCamera position (target s)) s.

(** [update()] *)
Definition update (w : World) (s : State) : State :=
  if isNaN (radius (spherical s)) || isNaN (phi (spherical s)) ||
     isNaN (theta (spherical s)) || negb (isFinite (radius (spherical s))) ||
     negb (isFinite (phi (spherical s))) ||
     negb (isFinite (theta (spherical s)))
  then
    emit (ConsoleError
      "CameraController: Invalid spherical coordinates detected, skipping camera update.") s
  else
    let s1 := set_phi (max (Fin 0.01) (min (PI - Fin 0.01) (phi (spherical s)))) s in
    let s2 := set_radius (max (minDistance s1)
                            (min (maxDistance s1) (radius (spherical s1)))) s1 in
    if isNaN (x (target s2)) || isNaN (y (target s2)) || isNaN (z (target s2))
    then
      emit (ConsoleError
        "CameraController: Invalid target detected, skipping camera update.") s2
    else placeCamera (autoRotateStep (followLockedTarget w s2)).

(** [onMouseDown(event)] *)
Definition onMouseDown (clientX clientY : num) (s : State) : State :=
  set_lastMouseY clientY (set_lastMouseX clientX (set_isMouseDown true s)).

(** [onMouseMove(event)] *)
Definition onMouseMove (w : World) (clientX clientY : num) (s : State) : State :=
  if negb (isMouseDown s) then s
  else
    let deltaX := clientX - lastMouseX s in
    let deltaY := clientY - lastMouseY s in
    let s1 := set_theta (theta (spherical s) - deltaX * rotationSpeed) s in
    let s2 := set_phi (phi (spherical s1) + deltaY * rotationSpeed) s1 in
    let s3 := set_phi (max (Fin 0.1) (min (PI - Fin 0.1) (phi (spherical s2)))) s2 in
    let s4 := set_lastMouseY clientY (set_lastMouseX clientX s3) in
    update w s4.

(** [onMouseUp(event)] *)
Definition onMouseUp (s : State) : State := set_isMouseDown false s.

(** [onWheel(event)] *)
Definition onWheel (w : World) (deltaY : num) (s : State) : State :=
  let zoomDelta := deltaY * zoomSpeed * Fin 0.01 in
  let s1 := set_currentDistance (currentDistance s + zoomDelta) s in
  let safeMinDistance :=
    match lockedTarget s1 with
    | Some _ => minDistance s1
    | None =>
        let distanceToSun := length (target s1) in
        let sunRadius := Fin 15 in
        let safe1 :=
          if lt distanceToSun (sunRadius * Fin 3)
          then max (minDistance s1) (sunRadius * Fin 2.5)
          else minDistance s1 in
        max safe1 (Fin 20)
    end in
  let s2 := set_currentDistance
              (max safeMinDistance (min (maxDistance s1) (currentDistance s1))) s1 in
  let s3 := set_radius (currentDistance s2) s2 in
  update w s3.

(** [resetCamera()] *)
Definition resetCamera (w : World) (s : State) : State :=
  let s1 := set_currentDistance (Fin 75) s in
  let s2 := set_radius (currentDistance s1) s1 in
  let s3 := set_theta (Fin 0) s2 in
  let s4 := set_phi (PI / Fin 2) s3 in
  update w s4.

(** [setTarget(target)] *)
Definition setTarget (w : World) (v : Vector3) (s : State) : State :=
  update w (set_target v s).

(** [setTargetObjects(sunInstance, earthInstance)] *)
Definition setTargetObjects (sunI earthI : option BodyId) (s : State) : State :=
  set_earthInstance earthI (set_sunInstance sunI s).

(** [Array.prototype.indexOf] on a list of references. *)
Fixpoint indexOf (l : list BodyId) (b : BodyId) : Z :=
  match l with
  | [] => (-1)%Z
  | a :: l' =>
      if Nat.eqb a b then 0%Z
      else let i := indexOf l' b in
           if (i =? -1)%Z then (-1)%Z else (i + 1)%Z
  end.

(** [setCurrentMeteor(meteorInstance)]; [None] is a null argument. *)
Definition setCurrentMeteor (meteorInstance : option BodyId) (s : State) : State :=
  let idx := match meteorInstance with
             | Some m => indexOf (meteorsList s) m
             | None => (-1)%Z
             end in
  let s1 := if (idx =? -1)%Z then s else set_currentMeteorIndex idx s in
  set_currentMeteor meteorInstance s1.

(** [setMeteorsList(meteorsList)] *)
Definition setMeteorsList (l : list BodyId) (s : State) : State :=
  let s1 := set_meteorsList l s in
  set_currentMeteorIndex (if (0 <? List.length l)%nat then 0%Z else (-1)%Z) s1.

(** The body of an [onComplete] callback. *)
Definition complete (w : World) (c : Completion) (s : State) : State :=
  match c with
  | CompleteSun =>
      let s1 := set_lockMode sun (set_lockedTarget (sunInstance s) s) in
      emit (ConsoleLog "Camera locked onto Sun") (updateMinDistanceForTarget w s1)
  | CompleteEarth =>
      let s1 := set_lockMode earth (set_lockedTarget (earthInstance s) s) in
      emit (ConsoleLog "Camera locked onto Earth") (updateMinDistanceForTarget w s1)
  | CompleteMeteor meteorInstance =>
      let s1 := set_lockMode meteor (set_lockedTarget (Some meteorInstance) s) in
      emit (ConsoleLog "Camera locked onto Meteor") (updateMinDistanceForTarget w s1)
  end.

(** The progress of a transition at the time [now]. *)
Definition progressAt (a : Animation) (now : num) : num :=
  let elapsed := now - startTime a in
  min (elapsed / duration a) (Fin 1).

(** The ease-in-out curve of [animate]. *)
Definition ease (progress : num) : num :=
  if lt progress (Fin 0.5) then Fin 2 * progress * progress
  else Fin 1 - (Fin (-2) * progress + Fin 2) * (Fin (-2) * progress + Fin 2) / Fin 2.

(** The interpolation step of [animate]: the orbit centre moves towards
    the live position of the object, the angles towards those of the
    camera seen from the object, the radius towards the requested
    distance. *)
Definition interpolate (w : World) (a : Animation) (eased : num) (s : State)
  : State :=
  let currentTargetPosition := getPosition (w (targetObject a)) in
  let targetVector := sub (position (camera s)) currentTargetPosition in
  let targetSpherical :=
    mkSpherical (targetDistance a)
                (phi (setFromVector3 targetVector))
                (theta (setFromVector3 targetVector)) in
  let s1 := set_target (lerpVectors (startTarget a) currentTargetPosition eased) s in
  let s2 := set_theta (startTheta a + (theta targetSpherical - startTheta a) * eased) s1 in
  let s3 := set_phi (startPhi a + (phi targetSpherical - startPhi a) * eased) s2 in
  let s4 := set_radius (startRadius a + (radius targetSpherical - startRadius a) * eased) s3 in
  set_currentDistance (radius (spherical s4)) s4.

(** One call of the closure [animate]. *)
Definition animate (w : World) (a : Animation) (s : State) : State :=
  let (now, s0) := dateNow s in
  let progress := progressAt a now in
  let eased := ease progress in
  let s6 := update w (interpolate w a eased s0) in
  if lt progress (Fin 1) then set_frames (frames s6 ++ [a]) s6
  else complete w (onComplete a) (set_isTransitioning false s6).

(** [transitionToTarget(targetObject, targetDistance, onComplete, duration)] *)
Definition transitionToTarget (w : World) (targetObject : BodyId)
    (targetDistance : num) (onComplete : Completion) (duration : num)
    (s : State) : State :=
  let s1 := set_isTransitioning true s in
  let (startTime, s2) := dateNow s1 in
  animate w (mkAnimation targetObject targetDistance onComplete duration
               (target s1) (theta (spherical s1)) (phi (spherical s1))
               (radius (spherical s1)) startTime) s2.

(** [lockOntoSunWithTransition(duration)] *)
Definition lockOntoSunWithTransition (w : World) (duration : num) (s : State)
  : State :=
  match sunInstance s with
  | None => s
  | Some sunI =>
      if LockMode_eqb (lockMode s) sun then s
      else
        let s1 := set_lockMode none (set_lockedTarget None s) in
        let sunRadius := Fin 15 in
        let targetDistance := sunRadius * Fin 3 in
        transitionToTarget w sunI targetDistance CompleteSun duration s1
  end.

(** [lockOntoEarthWithTransition(duration)] *)
Definition lockOntoEarthWithTransition (w : World) (duration : num) (s : State)
  : State :=
  match earthInstance s with
  | None => s
  | Some earthI =>
      if LockMode_eqb (lockMode s) earth then s
      else
        let s1 := set_lockMode none (set_lockedTarget None s) in
        let earthRadius := Fin 1 in
        let targetDistance := earthRadius * Fin 5 in
        transitionToTarget w earthI targetDistance CompleteEarth duration s1
  end.

(** Whether [lockOntoMeteor(meteorInstance, duration)] is left by an
    exception: the one that [instantiateMesh] throws, when it is
    called. *)
Definition lockOntoMeteorThrows (w : World) (meteorInstance : option BodyId)
    (s : State) : bool :=
  match meteorInstance with
  | None => false
  | Some m =>
      if LockMode_eqb (lockMode s) meteor && sameBody (lockedTarget s) m
      then false
      else
        match instantiateMesh (w m) with
        | MeshThrows => true
        | _ => false
        end
  end.

(** [lockOntoMeteor(meteorInstance, duration)]: the controller when the
    method returns or, if [instantiateMesh] throws, when the exception
    leaves it; nothing after the call has run then. *)
Definition lockOntoMeteor (w : World) (meteorInstance : option BodyId)
    (duration : num) (s : State) : State :=
  match meteorInstance with
  | None => s
  | Some m =>
      if LockMode_eqb (lockMode s) meteor && sameBody (lockedTarget s) m then s
      else
        match instantiateMesh (w m) with
        | MeshThrows => emit (InstantiateMesh m) s
        | call =>
            let s0 :=
              match call with
              | NoInstantiateMesh => s
              | _ => emit (InstantiateMesh m) s
              end in
            let s1 := set_lockMode none (set_lockedTarget None s0) in
            let meteorRadius :=
              match bodyRadius (w m) with
              | Some r => if truthy r then r else Fin 0.2
              | None => Fin 0.2
              end in
            let targetDistance := meteorRadius * Fin 4 in
            transitionToTarget w m targetDistance (CompleteMeteor m) duration s1
        end
  end.

(** [lockOntoMeteorIfExists()] *)
Definition lockOntoMeteorIfExists (w : World) (s : State) : State :=
  match currentMeteor s with
  | Some m => lockOntoMeteor w (Some m) (Fin 1500) s
  | None => emit (ConsoleLog "No meteor to lock onto. Press M to create one!") s
  end.

(** [lockOntoMeteorByIndex(index, duration)] *)
Definition lockOntoMeteorByIndex (w : World) (index : Z) (duration : num)
    (s : State) : State :=
  if (List.length (meteorsList s) =? 0)%nat then s
  else if (index <? 0)%Z || (Z.of_nat (List.length (meteorsList s)) <=? index)%Z
  then s
  else
    let s1 := set_currentMeteorIndex index s in
    let meteorI := nth_error (meteorsList s1) (Z.to_nat index) in
    lockOntoMeteor w meteorI duration (setCurrentMeteor meteorI s1).

(** [unlockTarget()] *)
Definition unlockTarget (s : State) : State :=
  let s1 :=
    match lockedTarget s, lockMode s with
    | Some locked, meteor => emit (RemoveMesh locked) s
    | _, _ => s
    end in
  let s2 := set_lockMode none (set_lockedTarget None s1) in
  emit (ConsoleLog "Camera unlocked") (set_isTransitioning false s2).

(** [getLockStatus()] *)
Record LockStatus := mkLockStatus
  { mode : LockMode; isLocked : bool; targetRef : option BodyId }.

Definition getLockStatus (s : State) : LockStatus :=
  mkLockStatus (lockMode s) (isSome (lockedTarget s)) (lockedTarget s).

(** [setZoomLimits(min, max)] *)
Definition setZoomLimits (w : World) (mn mx : num) (s : State) : State :=
  let s1 := set_maxDistance mx (set_minDistance mn s) in
  let s2 := set_currentDistance (max mn (min mx (currentDistance s1))) s1 in
  update w (set_radius (currentDistance s2) s2).

(** [setAutoRotate(enabled)] *)
Definition setAutoRotate (enabled : bool) (s : State) : State :=
  set_autoRotate enabled s.

(** The key codes that [onKeyDown] distinguishes. *)
Inductive Key :=
| KeyR | KeyG | Digit0 | Digit1 | Digit2 | KeyA | Escape
| ArrowUp | ArrowDown | ArrowRight | ArrowLeft | OtherKey.

(** [onKeyDown(event)] *)
Definition onKeyDown (w : World) (code : Key) (s : State) : State :=
  if isTransitioning s then s
  else
    match code with
    | KeyR => resetCamera w s
    | KeyG => set_autoRotate (negb (autoRotate s)) s
    | Digit0 => lockOntoSunWithTransition w (Fin 1500) s
    | Digit1 => lockOntoEarthWithTransition w (Fin 1500) s
    | Digit2 => lockOntoMeteorIfExists w s
    | KeyA =>
        match meteorsList s with
        | firstMeteor :: _ =>
            let s1 := setCurrentMeteor (Some firstMeteor) s in
            let s2 := lockOntoMeteor w (Some firstMeteor) (Fin 1500) s1 in
            if lockOntoMeteorThrows w (Some firstMeteor) s1 then s2
            else emit (ConsoleLog "Camera locked onto first asteroid") s2
        | [] => emit (ConsoleLog "No asteroids available to lock onto") s
        end
    | Escape => unlockTarget s
    | ArrowUp =>
        let s1 := set_currentDistance
                    (max (minDistance s) (currentDistance s - Fin 5)) s in
        let s2 :=
          match lockedTarget s1 with
          | Some _ => s1
          | None =>
              let distanceToSun := length (target s1) in
              let sunRadius := Fin 15 in
              let s1' :=
                if lt distanceToSun (sunRadius * Fin 3) then
                  set_currentDistance
                    (max (currentDistance s1) (sunRadius * Fin 2.5)) s1
                else s1 in
              set_currentDistance (max (currentDistance s1') (Fin 20)) s1'
          end in
        update w (set_radius (currentDistance s2) s2)
    | ArrowDown =>
        let s1 := set_currentDistance
                    (min (maxDistance s) (currentDistance s + Fin 5)) s in
        update w (set_radius (currentDistance s1) s1)
    | ArrowRight =>
        if (0 <? List.length (meteorsList s))%nat &&
           (currentMeteorIndex s <? Z.of_nat (List.length (meteorsList s)) - 1)%Z
        then lockOntoMeteorByIndex w (currentMeteorIndex s + 1)%Z (Fin 1500) s
        else s
    | ArrowLeft =>
        if (0 <? List.length (meteorsList s))%nat && (0 <? currentMeteorIndex s)%Z
        then lockOntoMeteorByIndex w (currentMeteorIndex s - 1)%Z (Fin 1500) s
        else s
    | OtherKey => s
    end.

(** [new CameraController(camera, target, minDistance, maxDistance)]; the
    readings of the clock are part of the surroundings. *)
Definition constructor (w : World) (cam : Camera) (tgt : Vector3)
    (minD maxD : num) (clk : nat -> num) : State :=
  update w
    (mkState cam tgt minD maxD (max minD (Fin 50))
       false (Fin 0) (Fin 0)
       (setFromVector3 (sub (position cam) tgt))
       false None none false [] (-1)%Z None None None
       [] clk 0 []).

(** The browser calls the callback registered at place [i]. *)
Definition animationFrame (w : World) (i : nat) (s : State) : State :=
  match nth_error (frames s) i with
  | Some a =>
      animate w a
        (set_frames (firstn i (frames s) ++ skipn (S i) (frames s)) s)
  | None => s
  end.

(** The operations on a controller. *)
Inductive Op :=
| OnMouseDown (clientX clientY : num)
| OnMouseMove (clientX clientY : num)
| OnMouseUp
| OnWheel (deltaY : num)
| OnKeyDown (code : Key)
| Update
| ResetCamera
| SetTarget (v : Vector3)
| SetCurrentMeteor (meteorInstance : option BodyId)
| SetMeteorsList (l : list BodyId)
| LockOntoMeteorIfExists
| LockOntoSunWithTransition (duration : num)
| LockOntoEarthWithTransition (duration : num)
| LockOntoMeteor (meteorInstance : option BodyId) (duration : num)
| LockOntoMeteorByIndex (index : Z) (duration : num)
| UnlockTarget
| SetZoomLimits (mn mx : num)
| SetAutoRotate (enabled : bool)
| AnimationFrame (i : nat).

Definition step (w : World) (op : Op) (s : State) : State :=
  match op with
  | OnMouseDown cx cy => onMouseDown cx cy s
  | OnMouseMove cx cy => onMouseMove w cx cy s
  | OnMouseUp => onMouseUp s
  | OnWheel dy => onWheel w dy s
  | OnKeyDown code => onKeyDown w code s
  | Update => update w s
  | ResetCamera => resetCamera w s
  | SetTarget v => setTarget w v s
  | SetCurrentMeteor m => setCurrentMeteor m s
  | SetMeteorsList l => setMeteorsList l s
  | LockOntoMeteorIfExists => lockOntoMeteorIfExists w s
  | LockOntoSunWithTransition d => lockOntoSunWithTransition w d s
  | LockOntoEarthWithTransition d => lockOntoEarthWithTransition w d s
  | LockOntoMeteor m d => lockOntoMeteor w m d s
  | LockOntoMeteorByIndex i d => lockOntoMeteorByIndex w i d s
  | UnlockTarget => unlockTarget s
  | SetZoomLimits mn mx => setZoomLimits w mn mx s
  | SetAutoRotate b => setAutoRotate b s
  | AnimationFrame i => animationFrame w i s
  end.

(** A run: operations, each with the objects as they stand at that time. *)
Fixpoint run (ops : list (World * Op)) (s : State) : State :=
  match ops with
  | [] => s
  | (w, op) :: rest => run rest (step w op s)
  end.

End CameraController.

(** ** Predicates on controller states used in the statements *)

Module CameraProps.
Import JsNum ThreeMath CameraController.

Definition finite (a : num) : Prop := isFinite a = true.

(** Order on numbers, between finite values only. *)
Definition le (a b : num) : Prop :=
  match a, b with
  | Fin p, Fin q => p <= q
  | _, _ => False
  end.

Definition lt (a b : num) : Prop :=
  match a, b with
  | Fin p, Fin q => p < q
  | _, _ => False
  end.

Definition finiteVector (v : Vector3) : Prop :=
  finite (x v) /\ finite (y v) /\ finite (z v).

(** The distance and polar-angle bounds, with closed ends. *)
Definition withinBounds (s : State) : Prop :=
  le (minDistance s) (radius (spherical s)) /\
  le (radius (spherical s)) (maxDistance s) /\
  le (Fin 0.01) (phi (spherical s)) /\
  le (phi (spherical s)) (JsNum.sub PI (Fin 0.01)).

(** The same bounds with the polar angle strictly inside its range. *)
Definition strictlyWithinBounds (s : State) : Prop :=
  le (minDistance s) (radius (spherical s)) /\
  le (radius (spherical s)) (maxDistance s) /\
  lt (Fin 0.01) (phi (spherical s)) /\
  lt (phi (spherical s)) (JsNum.sub PI (Fin 0.01)).

(** A registered transition whose captured values are finite and whose
    duration is positive. *)
Definition animationOk (a : Animation) : Prop :=
  finite (targetDistance a) /\ lt (Fin 0) (duration a) /\
  finiteVector (startTarget a) /\ finite (startTheta a) /\
  finite (startPhi a) /\ finite (startRadius a) /\ finite (startTime a).

(** The objects are at finite positions, and none is so large that the
    minimum distance derived from its radius exceeds [M]. *)
Definition worldOk (M : R) (w : World) : Prop :=
  forall b : BodyId,
    finiteVector (getPosition (w b)) /\
    match bodyRadius (w b) with
    | Some r => le (JsNum.mul r (Fin 2.5)) (Fin M)
    | None => True
    end.

(** Side conditions on the arguments of an operation. *)
Definition opOk (M : R) (op : Op) : Prop :=
  match op with
  | OnMouseDown cx cy | OnMouseMove cx cy => finite cx /\ finite cy
  | OnWheel dy => finite dy
  | SetTarget v => finiteVector v
  | LockOntoSunWithTransition d | LockOntoEarthWithTransition d
  | LockOntoMeteor _ d | LockOntoMeteorByIndex _ d => lt (Fin 0) d
  | SetZoomLimits mn mx => mx = Fin M /\ le mn (Fin M)
  | _ => True
  end.

(** A controller in working order for the maximum distance [M]: every
    number it holds is finite, the minimum distance does not exceed [M],
    [M] leaves room for the sun, and, once locked, the spherical radius is
    not below the requested distance capped by [M]. *)
Definition steady (M : R) (s : State) : Prop :=
  maxDistance s = Fin M /\ 37.5 <= M /\
  le (minDistance s) (Fin M) /\
  finite (radius (spherical s)) /\ finite (phi (spherical s)) /\
  finite (theta (spherical s)) /\ finite (currentDistance s) /\
  finite (lastMouseX s) /\ finite (lastMouseY s) /\
  finiteVector (target s) /\ finiteVector (position (camera s)) /\
  (lockedTarget s <> None ->
   le (JsNum.min (maxDistance s) (currentDistance s)) (radius (spherical s))) /\
  Forall animationOk (frames s) /\
  (forall n : nat, finite (clock s n)).

(** The requested distance, capped by the maximum, does not exceed the
    spherical radius. *)
Definition synced (s : State) : Prop :=
  le (JsNum.min (maxDistance s) (currentDistance s)) (radius (spherical s)).

(** What every operation on a controller in working order maintains. *)
Definition invariant (M : R) (s : State) : Prop := steady M s /\ withinBounds s.

(** The states a controller goes through: built by the constructor, told
    about the sun and the earth, then driven by operations. *)
Inductive reachable : State -> Prop :=
| reachable_new (w : World) (cam : Camera) (tgt : Vector3) (minD maxD : num)
    (clk : nat -> num) (sunI earthI : option BodyId) :
    reachable (setTargetObjects sunI earthI (constructor w cam tgt minD maxD clk))
| reachable_step (w : World) (op : Op) (s : State) :
    reachable s -> reachable (step w op s).

(** Every transition still registered can complete: the object its
    callback will lock onto is there. *)
Definition completionReady (s : State) (a : Animation) : Prop :=
  match onComplete a with
  | CompleteSun => sunInstance s <> None
  | CompleteEarth => earthInstance s <> None
  | CompleteMeteor _ => True
  end.

(** Lock mode and locked object agree, and both are cleared while the
    transition flag is raised. *)
Definition lockConsistent (s : State) : Prop :=
  (lockedTarget s = None <-> lockMode s = none) /\
  (isTransitioning s = true -> lockedTarget s = None /\ lockMode s = none).

(** [s'] differs from [s] at most in the view: camera, orbit centre,
    spherical coordinates, distances and effects. *)
Definition sameControl (s s' : State) : Prop :=
  lockedTarget s' = lockedTarget s /\ lockMode s' = lockMode s /\
  isTransitioning s' = isTransitioning s /\
  sunInstance s' = sunInstance s /\ earthInstance s' = earthInstance s /\
  currentMeteor s' = currentMeteor s /\ meteorsList s' = meteorsList s /\
  currentMeteorIndex s' = currentMeteorIndex s /\
  frames s' = frames s /\ clock s' = clock s /\ clockReads s' = clockReads s /\
  isMouseDown s' = isMouseDown s /\ lastMouseX s' = lastMouseX s /\
  lastMouseY s' = lastMouseY s /\ autoRotate s' = autoRotate s /\
  maxDistance s' = maxDistance s.

(** [s'] has the lock fields, the known sun and earth, and the registered
    transitions of [s]. *)
Definition sameLock (s s' : State) : Prop :=
  lockedTarget s' = lockedTarget s /\ lockMode s' = lockMode s /\
  isTransitioning s' = isTransitioning s /\
  sunInstance s' = sunInstance s /\ earthInstance s' = earthInstance s /\
  frames s' = frames s.

(** The invariant of the lock state machine. *)
Definition lockInvariant (s : State) : Prop :=
  lockConsistent s /\ Forall (completionReady s) (frames s).

(** The objects are at finite positions, and the maximum distance [M]
    leaves room for each of them: 2.5 times its radius, an object without
    a [radius] property counting for the radius 15 that the controller
    takes for the sun. *)
Definition worldRoom (M : R) (w : World) : Prop :=
  forall b : BodyId,
    finiteVector (getPosition (w b)) /\
    match bodyRadius (w b) with
    | Some r => le (JsNum.mul r (Fin 2.5)) (Fin M)
    | None => 37.5 <= M
    end.

(** A controller in working order for the maximum distance [M], whatever
    [M] is: [steady] without its lower bound on [M]. *)
Definition steadyFor (M : R) (s : State) : Prop :=
  maxDistance s = Fin M /\
  le (minDistance s) (Fin M) /\
  finite (radius (spherical s)) /\ finite (phi (spherical s)) /\
  finite (theta (spherical s)) /\ finite (currentDistance s) /\
  finite (lastMouseX s) /\ finite (lastMouseY s) /\
  finiteVector (target s) /\ finiteVector (position (camera s)) /\
  (lockedTarget s <> None ->
   le (JsNum.min (maxDistance s) (currentDistance s)) (radius (spherical s))) /\
  Forall animationOk (frames s) /\
  (forall n : nat, finite (clock s n)).

Definition invariantFor (M : R) (s : State) : Prop :=
  steadyFor M s /\ withinBounds s.

(** The numbers of the view are finite: the distances, the spherical
    coordinates, the orbit centre and the position of the camera. *)
Definition finiteView (s : State) : Prop :=
  finite (minDistance s) /\ finite (maxDistance s) /\
  finite (currentDistance s) /\
  finite (radius (spherical s)) /\ finite (phi (spherical s)) /\
  finite (theta (spherical s)) /\
  finiteVector (target s) /\ finiteVector (position (camera s)).

(** Side conditions on the arguments of an operation when the zoom
    limits may change: the new maximum is a number not below [room], and
    the new minimum does not exceed it. *)
Definition opWithin (room : R) (op : Op) : Prop :=
  match op with
  | OnMouseDown cx cy | OnMouseMove cx cy => finite cx /\ finite cy
  | OnWheel dy => finite dy
  | SetTarget v => finiteVector v
  | LockOntoSunWithTransition d | LockOntoEarthWithTransition d
  | LockOntoMeteor _ d | LockOntoMeteorByIndex _ d => lt (Fin 0) d
  | SetZoomLimits mn mx =>
      exists M : R, mx = Fin M /\ room <= M /\ le mn (Fin M)
  | _ => True
  end.

(** The test of [lockOntoMeteor]: the camera is locked onto [m] in meteor
    mode. *)
Definition alreadyLockedOnto (m : BodyId) (s : State) : bool :=
  LockMode_eqb (lockMode s) meteor && sameBody (lockedTarget s) m.

(** The next two readings of [Date.now()], those that a call of
    [transitionToTarget] makes, are numbers less than [d] ms apart. *)
Definition readsWithin (d : R) (s : State) : Prop :=
  exists t0 t1 : R,
    clock s (clockReads s) = Fin t0 /\
    clock s (S (clockReads s)) = Fin t1 /\ t1 - t0 < d.

(** Between [s] and [s'] a lock transition onto the meteor [m] has been
    started: the lock is cleared, [isTransitioning] is set, and the
    closure of a transition of 1500 ms towards [m], whose callback locks
    onto [m], has been registered with [requestAnimationFrame] after
    those that were. *)
Definition transitionStarted (m : BodyId) (s s' : State) : Prop :=
  isTransitioning s' = true /\ lockedTarget s' = None /\ lockMode s' = none /\
  exists a : Animation,
    frames s' = frames s ++ [a] /\ targetObject a = m /\
    onComplete a = CompleteMeteor m /\ duration a = Fin 1500.

(** What a navigation command leaves when it moves from [s] to the place
    [j] of the list, which holds [m]: the index and the current meteor
    are set, and a lock transition onto [m] has been started, unless the
    camera was locked onto [m] already and stays so. *)
Definition navigatedTo (j : Z) (m : BodyId) (s s' : State) : Prop :=
  currentMeteorIndex s' = j /\ currentMeteor s' = Some m /\
  meteorsList s' = meteorsList s /\
  if alreadyLockedOnto m s
  then lockedTarget s' = Some m /\ lockMode s' = meteor /\
       isTransitioning s' = false /\ frames s' = frames s
  else transitionStarted m s s'.

End CameraProps.

(** ** The scenes of the two hosts, used in examples *)

Module Scenes.
Import JsNum ThreeMath CameraController.

Definition origin : Vector3 := mkVector3 (Fin 0) (Fin 0) (Fin 0).

Definition sunId : BodyId := 0%nat.
Definition earthId : BodyId := 1%nat.

(** The sun of radius 15 at the origin, the earth of radius 1 at distance
    150, and meteors of radius 0.1 beyond, whose [instantiateMesh]
    returns. *)
Definition demoWorld : World :=
  fun b =>
    match b with
    | O => mkBody origin (Some (Fin 15)) NoInstantiateMesh
    | S O =>
        mkBody (mkVector3 (Fin 150) (Fin 0) (Fin 0)) (Some (Fin 1))
          NoInstantiateMesh
    | _ =>
        mkBody (mkVector3 (Fin 200) (Fin 0) (Fin 0)) (Some (Fin 0.1))
          MeshReturns
    end.

(** A perspective camera as three.js creates it, at the origin. *)
Definition newCamera : Camera := mkCamera origin origin.

(** A clock that stands still. *)
Definition stillClock : nat -> num := fun _ => Fin 0.

(** A clock that is read twice at 0, three times at 1500 and at 3000 from
    then on. *)
Definition steppedClock : nat -> num :=
  fun n =>
    match n with
    | 0 | 1 => Fin 0
    | 2 | 3 | 4 => Fin 1500
    | _ => Fin 3000
    end%nat.

(** A clock that is read twice at 0, twice at 500 and at 1500 from then
    on. *)
Definition overlapClock : nat -> num :=
  fun n =>
    match n with
    | 0 | 1 => Fin 0
    | 2 | 3 => Fin 500
    | _ => Fin 1500
    end%nat.

(** The controller as [ThreeDemo.js] builds it and tells it about the sun
    and the earth: distances between 80 and 500. *)
Definition demoController (clk : nat -> num) : State :=
  setTargetObjects (Some sunId) (Some earthId)
    (constructor demoWorld newCamera origin (Fin 80) (Fin 500) clk).

(** A controller built with the default distances of the constructor, 2
    and 50. *)
Definition defaultController (clk : nat -> num) : State :=
  setTargetObjects (Some sunId) (Some earthId)
    (constructor demoWorld newCamera origin (Fin 2) (Fin 50) clk).

(** The camera of [IntroSlide.js], three units from the earth, and the
    position of the earth. *)
Definition earthPosition : Vector3 := mkVector3 (Fin 150) (Fin 0) (Fin 0).

Definition introCamera : Camera :=
  mkCamera (mkVector3 (Fin 150) (Fin 0) (Fin 3)) earthPosition.

(** The controller as [IntroSlide.js] builds it and tells it about the
    sun and the earth: around the earth, distances between 2 and 20. *)
Definition introController (clk : nat -> num) : State :=
  setTargetObjects (Some sunId) (Some earthId)
    (constructor demoWorld introCamera earthPosition (Fin 2) (Fin 20) clk).

End Scenes.

(** ** The meteor as an object ([render/Meteor.js]) *)

Module MeteorObject.
Import JsRandom Three Meteor.

(** The Euler angles [mesh.rotation]. *)
Record Euler := mkEuler { ex : R; ey : R; ez : R }.

(** A [THREE.Mesh]: its identity, its geometry, its position, its
    rotation and its two shadow flags. *)
Record Mesh := mkMesh
  { meshId : nat;
    geometry : BufferGeometry;
    meshPosition : Vector3;
    rotation : Euler;
    castShadow : bool;
    receiveShadow : bool }.

(** The fields of a meteor that the methods of [Meteor.js] read and
    write. *)
Record Instance := mkInstance
  { radius : R;
    segments : nat;
    position : Vector3;
    preprocessedObjects : PreprocessedObjects;
    mesh : option Mesh }.

(** What the methods act on besides the meteor: the children of its
    scene, by identity, the identity of the next object created, and
    [Math.random]. *)
Record Surroundings := mkSurroundings
  { children : list nat;
    nextId : nat;
    rng : Rng }.

(** [Object3D.remove]: the object leaves the children, if it is there. *)
Fixpoint sceneRemove (id : nat) (l : list nat) : list nat :=
  match l with
  | [] => []
  | a :: l' => if Nat.eqb a id then l' else a :: sceneRemove id l'
  end.

(** [Object3D.add]: the object leaves its parent, here the same scene if
    any, and is pushed onto the children. *)
Definition sceneAdd (id : nat) (l : list nat) : list nat :=
  sceneRemove id l ++ [id].

(** [addToScene()] *)
Definition addToScene (m : Instance) (e : Surroundings) : Surroundings :=
  match mesh m with
  | Some k => mkSurroundings (sceneAdd (meshId k) (children e)) (nextId e) (rng e)
  | None => e
  end.

(** [removeFromScene()] *)
Definition removeFromScene (m : Instance) (e : Surroundings) : Surroundings :=
  match mesh m with
  | Some k => mkSurroundings (sceneRemove (meshId k) (children e)) (nextId e) (rng e)
  | None => e
  end.

(** [setPosition(x, y, z)] *)
Definition setPosition (x y z : R) (m : Instance) : Instance :=
  let position' := mkVector3 x y z in
  mkInstance (radius m) (segments m) position' (preprocessedObjects m)
    match mesh m with
    | Some k =>
        Some (mkMesh (meshId k) (geometry k) position' (rotation k)
                (castShadow k) (receiveShadow k))
    | None => None
    end.

(** [getPosition()]: a copy of the position. *)
Definition getPosition (m : Instance) : Vector3 := position m.

(** How a method ends: it returns, or an exception leaves it. *)
Inductive Ending (A : Type) : Type :=
| Returns (a : A)
| Throws (a : A).
Arguments Returns {A} a.
Arguments Throws {A} a.

(** [instantiateMesh()].  When [createMeteorMesh] throws, [this.mesh] is
    not assigned. *)
Definition instantiateMesh (m : Instance) (e : Surroundings)
  : Ending (Instance * Surroundings) :=
  match mesh m with
  | Some _ => Returns (m, e)
  | None =>
      let (made, g') :=
        createMeteorMesh (radius m) (segments m) (preprocessedObjects m) (rng e) in
      match made with
      | None => Throws (m, mkSurroundings (children e) (nextId e) g')
      | Some geometry =>
          let k := mkMesh (nextId e) geometry (mkVector3 0 0 0) (mkEuler 0 0 0)
                     false false in
          let m1 := mkInstance (radius m) (segments m) (position m)
                      (preprocessedObjects m) (Some k) in
          let m2 := setPosition (x (position m1)) (y (position m1))
                      (z (position m1)) m1 in
          let e1 := mkSurroundings (children e) (S (nextId e)) g' in
          Returns (m2, addToScene m2 e1)
      end
  end.

(** [removeMesh()] *)
Definition removeMesh (m : Instance) (e : Surroundings)
  : Instance * Surroundings :=
  match mesh m with
  | Some _ =>
      (mkInstance (radius m) (segments m) (position m) (preprocessedObjects m)
         None,
       removeFromScene m e)
  | None => (m, e)
  end.

(** [rotate(deltaY)] *)
Definition rotate (deltaY : R) (m : Instance) : Instance :=
  match mesh m with
  | Some k =>
      mkInstance (radius m) (segments m) (position m) (preprocessedObjects m)
        (Some (mkMesh (meshId k) (geometry k) (meshPosition k)
                 (mkEuler (ex (rotation k) + deltaY * 0.7)
                          (ey (rotation k) + deltaY)
                          (ez (rotation k) + deltaY * 0.3))
                 (castShadow k) (receiveShadow k)))
  | None => m
  end.

(** [Vector3.distanceTo] *)
Definition distanceTo (a b : Vector3) : R :=
  sqrt ((x a - x b) * (x a - x b) + (y a - y b) * (y a - y b) +
        (z a - z b) * (z a - z b)).

(** The object literal that [startOrbit] hands to the method of the
    parent class. *)
Record OrbitParameters := mkOrbitParameters
  { semiMajorAxis : R;
    eccentricity : R;
    period : R;
    inclination : R;
    omega : R;
    raan : R }.

(** [startOrbit(center, speed)]: the parameters passed on, which do not
    depend on [speed]; the method of the parent class is outside the
    sources. *)
Definition startOrbit (m : Instance) (center : Vector3) (speed : R) (g : Rng)
  : OrbitParameters * Rng :=
  let distance := distanceTo (position m) center in
  let (r1, g1) := random g in
  let (r2, g2) := random g1 in
  let (r3, g3) := random g2 in
  let (r4, g4) := random g3 in
  let (r5, g5) := random g4 in
  (mkOrbitParameters distance (0.1 + r1 * 0.3) (180.0 + r2 * 360.0)
     ((r3 - 0.5) * PI / 3) (r4 * PI * 2) (r5 * PI * 2),
   g5).

(** The arguments of a call [new Meteor(scene, radius, segments,
    position, preloadedAssets, preprocessedObjects)]. *)
Record Construction := mkConstruction
  { radiusGiven : R;
    segmentsGiven : Z;
    positionGiven : Vector3 }.

(** [Meteor.createRandomMeteor(scene, minRadius, maxRadius, position,
    ...)]: the construction it ends with. *)
Definition createRandomMeteor (minRadius maxRadius : R) (position : Vector3)
    (g : Rng) : Construction * Rng :=
  let (r1, g1) := random g in
  let randomRadius := minRadius + r1 * (maxRadius - minRadius) in
  let (r2, g2) := random g1 in
  let randomSegments := (16 + Int_part (r2 * 16))%Z in
  (mkConstruction randomRadius randomSegments position, g2).

Section Field.

(** The meteor that the constructor returns; the constructor of the
    parent class is outside the sources. *)
Variable construct : Construction -> Instance.

(** One turn of the loop of [createMeteorField]: the construction of the
    meteor and the orbit it is started on, if any. *)
Definition fieldMeteor (centerPosition : Vector3) (fieldRadius : R) (g : Rng)
  : (Construction * option OrbitParameters) * Rng :=
  let (r1, g1) := random g in
  let angle := r1 * PI * 2 in
  let (r2, g2) := random g1 in
  let distance := r2 * fieldRadius in
  let (r3, g3) := random g2 in
  let height := (r3 - 0.5) * fieldRadius * 0.3 in
  let position :=
    mkVector3 (x centerPosition + cos angle * distance)
              (y centerPosition + height)
              (z centerPosition + sin angle * distance) in
  let (made, g4) := createRandomMeteor 0.05 0.3 position g3 in
  let (r5, g5) := random g4 in
  if Rlt_dec 0.5 r5 then
    let (r6, g6) := random g5 in
    let (orbit, g7) :=
      startOrbit (construct made) centerPosition (0.001 + r6 * 0.002) g6 in
    ((made, Some orbit), g7)
  else ((made, None), g5).

(** [Meteor.createMeteorField(scene, count, centerPosition, fieldRadius,
    ...)] *)
Fixpoint createMeteorField (count : nat) (centerPosition : Vector3)
    (fieldRadius : R) (g : Rng)
  : list (Construction * option OrbitParameters) * Rng :=
  match count with
  | O => ([], g)
  | S count' =>
      let (first, g1) := fieldMeteor centerPosition fieldRadius g in
      let (others, g2) := createMeteorField count' centerPosition fieldRadius g1 in
      (first :: others, g2)
  end.

End Field.

End MeteorObject.

(** ** Notions about a field of meteors *)

Module FieldProps.
Import Three MeteorObject.

(** The meteor asked for lies in the cylinder of the field: within
    [fieldRadius] of the axis through the centre and within
    [0.15 fieldRadius] of its height; its radius lies in [0.05, 0.3] and
    its segment count in 16..31; its orbit, if any, is a bound ellipse. *)
Definition inField (centerPosition : Vector3) (fieldRadius : R)
    (entry : Construction * option OrbitParameters) : Prop :=
  let p := positionGiven (fst entry) in
  (x p - x centerPosition) * (x p - x centerPosition) +
  (z p - z centerPosition) * (z p - z centerPosition)
    <= fieldRadius * fieldRadius /\
  Rabs (y p - y centerPosition) <= 0.15 * fieldRadius /\
  0.05 <= radiusGiven (fst entry) <= 0.3 /\
  (16 <= segmentsGiven (fst entry) <= 31)%Z /\
  match snd entry with
  | Some orbit => 0.1 <= eccentricity orbit < 0.4 /\ 180 <= period orbit < 540
  | None => True
  end.

End FieldProps.

(** ** [animateTo] of [controller/CameraController.js] *)

Module AnimateTo.
Import JsNum ThreeMath CameraController.
Local Open Scope num_scope.

(** The closure [animate] of one call of [animateTo]: the requested
    angles and distance, the duration, and the values captured at the
    call. *)
Record Flight := mkFlight
  { goalTheta : num;
    goalPhi : num;
    goalDistance : num;
    flightDuration : num;
    fromTheta : num;
    fromPhi : num;
    fromDistance : num;
    flightStart : num }.

(** The cubic ease-out [1 - Math.pow(1 - progress, 3)]. *)
Definition easeOut (progress : num) : num :=
  Fin 1 - (Fin 1 - progress) * (Fin 1 - progress) * (Fin 1 - progress).

(** One call of the closure: the controller afterwards, and whether the
    closure hands itself to [requestAnimationFrame] again. *)
Definition flightFrame (w : World) (f : Flight) (s : State) : State * bool :=
  let (now, s0) := dateNow s in
  let elapsed := now - flightStart f in
  let progress := min (elapsed / flightDuration f) (Fin 1) in
  let eased := easeOut progress in
  let s1 := set_theta (fromTheta f + (goalTheta f - fromTheta f) * eased) s0 in
  let s2 := set_phi (fromPhi f + (goalPhi f - fromPhi f) * eased) s1 in
  let s3 := set_radius
              (fromDistance f + (goalDistance f - fromDistance f) * eased) s2 in
  let s4 := set_currentDistance (radius (spherical s3)) s3 in
  (update w s4, lt progress (Fin 1)).

(** A controller together with the closures of [animateTo] that are
    registered with [requestAnimationFrame]. *)
Record Flying := mkFlying { controller : State; flights : list Flight }.

(** [animateTo(theta, phi, distance, duration)] *)
Definition animateTo (w : World) (theta phi distance duration : num)
    (c : Flying) : Flying :=
  let s := controller c in
  let startTheta := ThreeMath.theta (spherical s) in
  let startPhi := ThreeMath.phi (spherical s) in
  let startDistance := radius (spherical s) in
  let (startTime, s0) := dateNow s in
  let f := mkFlight theta phi distance duration
             startTheta startPhi startDistance startTime in
  let (s', again) := flightFrame w f s0 in
  mkFlying s' (if again then flights c ++ [f] else flights c).

(** The browser calls the closure registered at place [i]. *)
Definition flightCallback (w : World) (i : nat) (c : Flying) : Flying :=
  match nth_error (flights c) i with
  | Some f =>
      let others := firstn i (flights c) ++ skipn (S i) (flights c) in
      let (s', again) := flightFrame w f (controller c) in
      mkFlying s' (if again then others ++ [f] else others)
  | None => c
  end.

End AnimateTo.

(** ** Sample controllers *)

Module Samples.
Import JsNum ThreeMath CameraController AnimateTo Scenes.

(** A free controller at rest: 80 units from the origin on the z axis,
    distances between 80 and 500, told about the sun and the earth. *)
Definition restingController : State :=
  mkState (mkCamera (mkVector3 (Fin 0) (Fin 0) (Fin 80)) origin) origin
    (Fin 80) (Fin 500) (Fin 80) false (Fin 0) (Fin 0)
    (mkSpherical (Fin 80) (Fin (Rtrigo1.PI / 2)) (Fin 0)) false
    None none false [] (-1)%Z (Some sunId) (Some earthId) None
    [] stillClock 0 [].

(** The same controller with three meteors in its list. *)
Definition touringController : State :=
  setMeteorsList [2; 3; 4]%nat restingController.

(** The callback of a transition towards the earth started at time 0 from
    the resting controller, and the controller in that transition, its
    clock read twice already. *)
Definition earthApproach : Animation :=
  mkAnimation earthId (Fin 5) CompleteEarth (Fin 1500) origin (Fin 0)
    (Fin (Rtrigo1.PI / 2)) (Fin 80) (Fin 0).

Definition transitingController : State :=
  mkState (mkCamera (mkVector3 (Fin 0) (Fin 0) (Fin 80)) origin) origin
    (Fin 80) (Fin 500) (Fin 80) false (Fin 0) (Fin 0)
    (mkSpherical (Fin 80) (Fin (Rtrigo1.PI / 2)) (Fin 0)) false
    None none true [] (-1)%Z (Some sunId) (Some earthId) None
    [earthApproach] steppedClock 2 [].

(** The closure of [animateTo(1, 4, 600, 1000)] called at time 0 on the
    resting controller. *)
Definition sampleFlight : Flight :=
  mkFlight (Fin 1) (Fin 4) (Fin 600) (Fin 1000)
    (Fin 0) (Fin (Rtrigo1.PI / 2)) (Fin 80) (Fin 0).

End Samples.

(** ** Notions about the list of meteors *)

Module NavigationProps.
Import CameraController.

(** The current index is a place of the list of meteors, or -1 while the
    list is empty. *)
Definition indexInRange (s : State) : Prop :=
  (meteorsList s = [] /\ currentMeteorIndex s = (-1)%Z) \/
  (0 <= currentMeteorIndex s < Z.of_nat (List.length (meteorsList s)))%Z.

End NavigationProps.
(** * Properties of the mesh generator *)

Module MeteorFacts.
Import JsRandom Three Meteor.

Lemma simpleNoise_bound (a b c : R) :
  - (1 / 3) <= simpleNoise a b c <= 1 / 3.
Proof.
  unfold simpleNoise.
  pose proof (SIN_bound (a * 2.1 + b * 1.3 + c * 0.7)).
  pose proof (SIN_bound (a * 1.7 + b * 2.9 + c * 1.1)).
  pose proof (SIN_bound (a * 3.3 + b * 0.9 + c * 2.3)).
  lra.
Qed.

Lemma deformation_bound (d : Vector3) (seed : R) :
  - 0.53 / 3 <= deformation d seed <= 0.53 / 3.
Proof.
  unfold deformation.
  pose proof (simpleNoise_bound (Three.x d * 3 + seed) (Three.y d * 3 + seed)
                (Three.z d * 3 + seed)).
  pose proof (simpleNoise_bound (Three.x d * 8 + seed) (Three.y d * 8 + seed)
                (Three.z d * 8 + seed)).
  pose proof (simpleNoise_bound (Three.x d * 15 + seed) (Three.y d * 15 + seed)
                (Three.z d * 15 + seed)).
  cbv zeta. lra.
Qed.

Lemma length_multiplyScalar (v : Vector3) (s : R) :
  0 <= s -> length (multiplyScalar v s) = length v * s.
Proof.
  intros Hs. unfold length, multiplyScalar; simpl.
  replace (Three.x v * s * (Three.x v * s) + Three.y v * s * (Three.y v * s) +
           Three.z v * s * (Three.z v * s))
    with ((Three.x v * Three.x v + Three.y v * Three.y v + Three.z v * Three.z v) * (s * s))
    by ring.
  rewrite sqrt_mult_alt.
  - rewrite (sqrt_square s Hs). reflexivity.
  - pose proof (Rle_0_sqr (Three.x v)). pose proof (Rle_0_sqr (Three.y v)).
    pose proof (Rle_0_sqr (Three.z v)). unfold Rsqr in *. lra.
Qed.

Lemma length_sphereVertex (radius : R) (W H ix iy : nat) :
  length (sphereVertex radius W H ix iy) = Rabs radius.
Proof.
  unfold length, sphereVertex; simpl.
  set (a := INR ix / INR W * (2 * PI)).
  set (b := INR iy / INR H * PI).
  replace (- radius * cos a * sin b * (- radius * cos a * sin b) +
           radius * cos b * (radius * cos b) +
           radius * sin a * sin b * (radius * sin a * sin b))
    with (Rsqr radius * (Rsqr (sin b) * (Rsqr (sin a) + Rsqr (cos a)) + Rsqr (cos b)))
    by (unfold Rsqr; ring).
  rewrite sin2_cos2, Rmult_1_r, sin2_cos2, Rmult_1_r.
  apply sqrt_Rsqr_abs.
Qed.

Lemma In_SphereGeometry (radius : R) (ws hs : nat) (v : Vector3) :
  In v (SphereGeometry radius ws hs) ->
  exists ix iy, v = sphereVertex radius (Nat.max 3 ws) (Nat.max 2 hs) ix iy.
Proof.
  unfold SphereGeometry. intros Hin.
  apply in_flat_map in Hin. destruct Hin as [iy [_ Hin]].
  apply in_map_iff in Hin. destruct Hin as [ix [Hv _]].
  exists ix, iy. symmetry. exact Hv.
Qed.

Lemma length_displace (radius seed : R) (vertex : Vector3) :
  0 < radius -> 0 < length vertex ->
  length (displace radius seed vertex) =
  radius * (0.85 + deformation (normalize vertex) seed * 0.3).
Proof.
  intros Hr Hl. unfold displace.
  pose proof (deformation_bound (normalize vertex) seed) as Hd.
  set (d := deformation (normalize vertex) seed) in *.
  assert (0 < radius * (0.85 + d * 0.3)) by (apply Rmult_lt_0_compat; lra).
  rewrite length_multiplyScalar.
  - field. lra.
  - apply Rlt_le. apply Rdiv_lt_0_compat; assumption.
Qed.

End MeteorFacts.

(** Elementary enclosures of [PI], [sin] and [cos] used to evaluate the
    noise at concrete seeds. *)
Module TrigBounds.

Lemma PI_enclosure : 3.141 < PI < 3.1421.
Proof.
  pose proof (PI_2_3_7_ineq 1) as H.
  unfold sum_f_R0, tg_alt, PI_2_3_7_tg, Ratan_seq in H.
  simpl in H. lra.
Qed.

Lemma sin_sqr_le (a : R) : sin a * sin a <= a * a.
Proof.
  assert (Hpos : forall b, 0 <= b -> sin b * sin b <= b * b).
  { intros b Hb. pose proof (SIN_bound b) as Hs.
    destruct (Rle_lt_dec 1 b) as [H1 | H1].
    - nra.
    - destruct (Req_dec b 0) as [-> | Hn].
      + rewrite sin_0. lra.
      + assert (0 < b) by lra.
        pose proof (sin_lt_x b H).
        pose proof PI_enclosure.
        assert (0 <= sin b) by (apply sin_ge_0; lra).
        nra. }
  destruct (Rle_lt_dec 0 a) as [Ha | Ha].
  - apply Hpos; assumption.
  - specialize (Hpos (- a)). rewrite sin_neg in Hpos.
    assert (0 <= - a) by lra. specialize (Hpos H). nra.
Qed.

Lemma cos_ge_quadratic (t : R) : 1 - t * t / 2 <= cos t.
Proof.
  replace t with (2 * (t / 2)) at 3 by field.
  rewrite cos_2a_sin.
  pose proof (sin_sqr_le (t / 2)). nra.
Qed.

Lemma sin_crest (k : nat) (t : R) :
  sin (PI / 2 + t + 2 * INR k * PI) = cos t.
Proof. rewrite sin_period. symmetry. apply cos_sin. Qed.

Lemma sin_trough (k : nat) (t : R) :
  sin (PI / 2 + t + PI + 2 * INR k * PI) = - cos t.
Proof. rewrite sin_period, neg_sin. f_equal. symmetry. apply cos_sin. Qed.

(** [sin a >= 0.7] when [a] is within [0.77] of a crest [PI/2 + 2 k PI]. *)
Lemma sin_high (k : nat) (a : R) :
  - 0.77 <= a - (PI / 2 + 2 * INR k * PI) <= 0.77 -> 0.7 <= sin a.
Proof.
  intros H. set (t := a - (PI / 2 + 2 * INR k * PI)) in *.
  replace a with (PI / 2 + t + 2 * INR k * PI) by (unfold t; ring).
  rewrite sin_crest. pose proof (cos_ge_quadratic t).
  nra.
Qed.

(** [sin a <= -0.7] when [a] is within [0.77] of a trough. *)
Lemma sin_low (k : nat) (a : R) :
  - 0.77 <= a - (3 * PI / 2 + 2 * INR k * PI) <= 0.77 -> sin a <= - 0.7.
Proof.
  intros H. set (t := a - (3 * PI / 2 + 2 * INR k * PI)) in *.
  replace a with (PI / 2 + t + PI + 2 * INR k * PI) by (unfold t; field).
  rewrite sin_trough. pose proof (cos_ge_quadratic t).
  nra.
Qed.

End TrigBounds.

Module MeteorSpec.
Import JsRandom Three Meteor MeteorFacts TrigBounds.

(** The first vertex of every sphere is its north pole. *)
Lemma sphereVertex_pole (radius : R) (W H ix : nat) :
  sphereVertex radius W H ix 0 = mkVector3 0 radius 0.
Proof.
  unfold sphereVertex. simpl INR.
  replace (0 / INR H * PI) with 0 by (unfold Rdiv; ring).
  rewrite sin_0, cos_0. f_equal; ring.
Qed.

Lemma SphereGeometry_head (radius : R) (ws hs : nat) :
  nth_error (SphereGeometry radius ws hs) 0 = Some (mkVector3 0 radius 0).
Proof.
  unfold SphereGeometry. cbn [seq flat_map map app nth_error].
  rewrite sphereVertex_pole. reflexivity.
Qed.

Lemma length_unit_pole : length (mkVector3 0 1 0) = 1.
Proof.
  unfold length; simpl.
  replace (0 * 0 + 1 * 1 + 0 * 0) with 1 by ring. apply sqrt_1.
Qed.

Lemma normalize_unit_pole : normalize (mkVector3 0 1 0) = mkVector3 0 1 0.
Proof.
  unfold normalize. rewrite length_unit_pole.
  destruct (Req_dec_T 1 0) as [E | _]; [lra |].
  unfold divideScalar, multiplyScalar; simpl. f_equal; field.
Qed.

(** The displaced pole of the unit sphere sits at height [newRadius]. *)
Lemma displace_unit_pole (seed : R) :
  Three.y (displace 1 seed (mkVector3 0 1 0)) =
  0.85 + deformation (mkVector3 0 1 0) seed * 0.3.
Proof.
  unfold displace. rewrite normalize_unit_pole, length_unit_pole.
  simpl. field.
Qed.

Ltac close_enclosure := simpl INR; pose proof PI_enclosure; lra.

Ltac enclose_sin a :=
  pose proof (SIN_bound a);
  try first [ assert (0.7 <= sin a)
                by first [ apply (sin_high 1); close_enclosure
                         | apply (sin_high 2); close_enclosure ]
            | assert (sin a <= - 0.7)
                by first [ apply (sin_low 3); close_enclosure
                         | apply (sin_low 4); close_enclosure
                         | apply (sin_low 5); close_enclosure ] ].

Ltac enclose_all_sin :=
  repeat match goal with
  | |- context [sin ?a] =>
      lazymatch goal with
      | _ : -1 <= sin a <= 1 |- _ => fail
      | _ => enclose_sin a
      end
  end.

(** With the draw [0.001] (seed [1]) the pole is pushed outwards ... *)
Lemma deformation_pole_seed_1 :
  0 < deformation (mkVector3 0 1 0) (0.001 * 1000).
Proof.
  unfold deformation, simpleNoise; simpl.
  enclose_all_sin. lra.
Qed.

(** ... and with the draw [0.0048] (seed [4.8]) it is pulled inwards. *)
Lemma deformation_pole_seed_4_8 :
  deformation (mkVector3 0 1 0) (0.0048 * 1000) < 0.
Proof.
  unfold deformation, simpleNoise; simpl.
  enclose_all_sin. lra.
Qed.

Lemma createGeoidGeometry_positions (radius : R) (segments : nat) (g : Rng) :
  fst (createGeoidGeometry radius segments g) =
  map (displace radius (fst (random g) * 1000))
      (SphereGeometry radius segments segments).
Proof. reflexivity. Qed.

(** C7.  Every vertex of the geometry that [createGeoidGeometry] builds
    for a positive radius lies at a distance from the centre between
    [0.55 * radius] and [1.15 * radius], whatever the segment count and
    whatever seed is drawn. *)
Theorem displaced_radius_in_range
    (radius : R) (segments : nat) (g : Rng) (v : Vector3) :
  0 < radius ->
  In v (fst (createGeoidGeometry radius segments g)) ->
  0.55 * radius <= length v <= 1.15 * radius.
Proof.
  intros Hr Hin. rewrite createGeoidGeometry_positions in Hin.
  apply in_map_iff in Hin. destruct Hin as [b [<- Hb]].
  apply In_SphereGeometry in Hb. destruct Hb as [ix [iy ->]].
  rewrite length_displace.
  - pose proof (deformation_bound
      (normalize (sphereVertex radius (Nat.max 3 segments)
                    (Nat.max 2 segments) ix iy))
      (fst (random g) * 1000)) as Hd.
    nra.
  - exact Hr.
  - rewrite length_sphereVertex. rewrite Rabs_right; lra.
Qed.

Lemma displaced_radius_in_range_witness :
  0.55 * 1 <= length (displace 1 (0.042 * 1000) (mkVector3 0 1 0)) <= 1.15 * 1.
Proof.
  apply (displaced_radius_in_range 1 8 (constant 0.042)).
  - lra.
  - rewrite createGeoidGeometry_positions.
    apply (nth_error_In _ 0).
    rewrite nth_error_map, SphereGeometry_head. reflexivity.
Defined.

(** C1 as stated fails: [createGeoidGeometry] takes a radius and a
    segment count only, and two calls with the same radius and segment
    count whose draws from [Math.random] differ (here [0.001] and
    [0.0048]) place the first vertex at different heights. *)
Lemma createGeoidGeometry_differs_between_calls :
  fst (createGeoidGeometry 1 8 (constant 0.001)) <>
  fst (createGeoidGeometry 1 8 (constant 0.0048)).
Proof.
  intros Heq. rewrite !createGeoidGeometry_positions in Heq.
  apply (f_equal (fun l => nth_error l 0)) in Heq.
  rewrite !nth_error_map, !SphereGeometry_head in Heq. simpl in Heq.
  injection Heq as Hx Hy Hz.
  change (Three.y (displace 1 (0.001 * 1000) (mkVector3 0 1 0)) =
          Three.y (displace 1 (0.0048 * 1000) (mkVector3 0 1 0))) in Hy.
  rewrite !displace_unit_pole in Hy.
  pose proof deformation_pole_seed_1. pose proof deformation_pole_seed_4_8.
  lra.
Qed.

(** C1, amended.  The vertex positions are a function of the radius, the
    segment count and the value that the call draws from [Math.random]:
    two calls with the same radius and segment count that draw the same
    value produce the same positions. *)
Theorem createGeoidGeometry_determined_by_draw
    (radius : R) (segments : nat) (g1 g2 : Rng) :
  fst (random g1) = fst (random g2) ->
  fst (createGeoidGeometry radius segments g1) =
  fst (createGeoidGeometry radius segments g2).
Proof.
  intros Hdraw. rewrite !createGeoidGeometry_positions, Hdraw. reflexivity.
Qed.

Lemma createGeoidGeometry_determined_by_draw_witness :
  fst (createGeoidGeometry 1 8 (constant 0.042)) =
  fst (createGeoidGeometry 1 8
         (mkRng (fun n => match n with O => 0.042 | S _ => 0.5 end) 0)).
Proof.
  apply createGeoidGeometry_determined_by_draw. reflexivity.
Defined.

End MeteorSpec.

(** * Properties of the propagator *)

Module OrbitSpec.
Import Orbit.

Lemma Int_part_succ (a : R) : Int_part (a + 1) = (Int_part a + 1)%Z.
Proof.
  symmetry. apply Int_part_spec.
  destruct (base_Int_part a) as [Hle Hgt].
  rewrite plus_IZR. simpl. lra.
Qed.

(** Adding one period does not change the remainder. *)
Lemma Rmod_add_period (t T : R) : T <> 0 -> Rmod (t + T) T = Rmod t T.
Proof.
  intros HT. unfold Rmod.
  replace ((t + T) / T) with (t / T + 1) by (field; exact HT).
  rewrite Int_part_succ, plus_IZR. simpl. ring.
Qed.

Lemma propagate_add_period (el : OrbitalElements) (t : R) :
  period el <> 0 -> propagate el (t + period el) = propagate el t.
Proof.
  intros HT. unfold propagate. rewrite Rmod_add_period by exact HT.
  reflexivity.
Qed.

Lemma within_refl (tol : R) (p : Vec3) : 0 <= tol -> within tol p p.
Proof.
  intros Htol. unfold within, minus, norm; simpl.
  replace ((px p - px p) * (px p - px p) + (py p - py p) * (py p - py p) +
           (pz p - pz p) * (pz p - pz p)) with 0 by ring.
  rewrite sqrt_0.
  apply Rmult_le_pos; [exact Htol | apply sqrt_pos].
Qed.

(** C9.  For valid orbital elements and every real time [t], the position
    at [t + period] equals the position at [t] within a relative
    tolerance of [1e-4]. *)
Theorem propagate_periodic (el : OrbitalElements) (t : R) :
  valid el ->
  within 1e-4 (propagate el t) (propagate el (t + period el)).
Proof.
  intros [_ [_ HT]].
  rewrite propagate_add_period by lra.
  apply within_refl. lra.
Qed.

Lemma propagate_periodic_witness :
  within 1e-4 (propagate (mkElements 150 0 365 0 0 0) 0)
              (propagate (mkElements 150 0 365 0 0 0) (0 + 365)).
Proof.
  apply (propagate_periodic (mkElements 150 0 365 0 0 0) 0).
  unfold valid; simpl. lra.
Defined.

End OrbitSpec.

(** * Properties of progressive creation *)

Module ProgressiveSpec.
Import Progressive.

Section Counting.

Context {OrbitRecord Meteor : Type}.
Variable construct : nat -> OrbitRecord -> option Meteor.
Variable orbits : list (option OrbitRecord).

Lemma iteration_index (st : State Meteor) :
  index (iteration construct orbits st) = S (index st).
Proof.
  unfold iteration.
  destruct (nth_error orbits (index st)) as [[record |] |];
    try destruct (construct (index st) record); reflexivity.
Qed.

Lemma iteration_length (st : State Meteor) :
  List.length (meteors (iteration construct orbits st)) =
  (List.length (meteors st) +
   (if succeeds construct orbits (index st) then 1 else 0))%nat.
Proof.
  unfold iteration, succeeds.
  destruct (nth_error orbits (index st)) as [[record |] |];
    try destruct (construct (index st) record); simpl;
    rewrite ?length_app; simpl; lia.
Qed.

Lemma iterations_index (n : nat) (st : State Meteor) :
  index (iterations construct orbits n st) = (index st + n)%nat.
Proof.
  revert st. induction n as [| n IH]; intros st; simpl.
  - lia.
  - rewrite IH, iteration_index. lia.
Qed.

Lemma iterations_length (n : nat) (st : State Meteor) :
  List.length (meteors (iterations construct orbits n st)) =
  (List.length (meteors st) + successes construct orbits (index st) n)%nat.
Proof.
  revert st. induction n as [| n IH]; intros st; simpl.
  - lia.
  - rewrite IH, iteration_length, iteration_index. lia.
Qed.

Lemma successes_le (lo n : nat) : (successes construct orbits lo n <= n)%nat.
Proof.
  revert lo. induction n as [| n IH]; intros lo; simpl.
  - lia.
  - specialize (IH (S lo)). destruct (succeeds construct orbits lo); lia.
Qed.

Lemma successes_split (lo n m : nat) :
  successes construct orbits lo (n + m) =
  (successes construct orbits lo n + successes construct orbits (lo + n) m)%nat.
Proof.
  revert lo. induction n as [| n IH]; intros lo; simpl.
  - rewrite Nat.add_0_r. reflexivity.
  - rewrite IH. replace (S lo + n)%nat with (lo + S n)%nat by lia. lia.
Qed.

Lemma successes_all (lo n : nat) :
  (forall i, (lo <= i < lo + n)%nat -> succeeds construct orbits i = true) ->
  successes construct orbits lo n = n.
Proof.
  revert lo. induction n as [| n IH]; intros lo Hall; simpl.
  - reflexivity.
  - rewrite Hall by lia. rewrite IH; [lia |].
    intros i Hi. apply Hall. lia.
Qed.

(** What the captured state satisfies between batches. *)
Definition consistent (total : nat) (st : State Meteor) : Prop :=
  (index st <= total)%nat /\
  List.length (meteors st) = successes construct orbits 0 (index st).

Lemma createBatch_index (batchSize total : nat) (st : State Meteor) :
  (index st <= total)%nat ->
  index (createBatch construct orbits batchSize total st) =
  Nat.min (index st + batchSize) total.
Proof.
  intros Hle. unfold createBatch. rewrite iterations_index. lia.
Qed.

Lemma createBatch_consistent (batchSize total : nat) (st : State Meteor) :
  consistent total st ->
  consistent total (createBatch construct orbits batchSize total st).
Proof.
  intros [Hle Hlen]. split.
  - rewrite createBatch_index by exact Hle. lia.
  - unfold createBatch. rewrite iterations_length, iterations_index, Hlen.
    rewrite <- (successes_split 0 (index st)). reflexivity.
Qed.

Lemma run_spec (batchSize total timers : nat) :
  forall (st : State Meteor) (seen : list nat),
  consistent total st ->
  Forall (fun c => (c <= total)%nat) seen ->
  let out := run construct timers orbits batchSize total st seen in
  consistent total (state out) /\
  Forall (fun c => (c <= total)%nat) (boundaries out) /\
  (pending out = false -> index (state out) = total) /\
  ((0 < batchSize)%nat -> (total <= index st + S timers * batchSize)%nat ->
   pending out = false).
Proof.
  induction timers as [| timers' IH]; intros st seen Hst Hseen; simpl.
  - pose proof (createBatch_consistent batchSize total st Hst) as Hst'.
    pose proof (createBatch_index batchSize total st (proj1 Hst)) as Hidx.
    set (st' := createBatch construct orbits batchSize total st) in *.
    assert (Hseen' : Forall (fun c => (c <= total)%nat)
                       (seen ++ [List.length (meteors st')])).
    { apply Forall_app. split; [exact Hseen |].
      constructor; [| constructor].
      destruct Hst' as [Hle Hlen]. rewrite Hlen.
      pose proof (successes_le 0 (index st')). lia. }
    destruct (index st' <? total)%nat eqn:Hlt; simpl.
    + apply Nat.ltb_lt in Hlt. repeat split; try apply Hst'; try exact Hseen'.
      * discriminate.
      * intros Hb Hfuel. lia.
    + apply Nat.ltb_ge in Hlt. destruct Hst' as [Hle Hlen].
      repeat split; try assumption; intros; lia.
  - pose proof (createBatch_consistent batchSize total st Hst) as Hst'.
    pose proof (createBatch_index batchSize total st (proj1 Hst)) as Hidx.
    set (st' := createBatch construct orbits batchSize total st) in *.
    assert (Hseen' : Forall (fun c => (c <= total)%nat)
                       (seen ++ [List.length (meteors st')])).
    { apply Forall_app. split; [exact Hseen |].
      constructor; [| constructor].
      destruct Hst' as [Hle Hlen]. rewrite Hlen.
      pose proof (successes_le 0 (index st')). lia. }
    destruct (index st' <? total)%nat eqn:Hlt.
    + apply Nat.ltb_lt in Hlt.
      specialize (IH st' (seen ++ [List.length (meteors st')]) Hst' Hseen').
      cbv zeta in IH. destruct IH as [H1 [H2 [H3 H4]]].
      repeat split; try apply H1; try exact H2; try exact H3.
      intros Hb Hfuel. apply H4; [exact Hb |]. rewrite Hidx. simpl in Hfuel. lia.
    + apply Nat.ltb_ge in Hlt. destruct Hst' as [Hle Hlen]. simpl.
      repeat split; try assumption; intros; lia.
Qed.

End Counting.

(** C6 as stated fails: the [try]/[catch] around each record skips a
    record whose creation throws.  Of 37 entries whose sixth is [null],
    36 meteors are created, not [min 37 200 = 37]. *)
Lemma skipped_record_lowers_the_count :
  let orbits := repeat (Some tt) 5 ++ [None] ++ repeat (Some tt) 31 in
  let out := createMeteorsFromOrbitsProgressive (fun i _ => Some i) orbits
               true true METEOR_BATCH_SIZE 37 in
  List.length orbits = 37%nat /\
  pending out = false /\
  List.length (meteors (state out)) = 36%nat /\
  List.length (meteors (state out)) <> Nat.min (List.length orbits) MAX_METEORS.
Proof. vm_compute. repeat split; congruence. Qed.

(** The scenario of 37 well-formed records in batches of 10. *)
Example thirty_seven_records_in_batches_of_ten :
  let out := createMeteorsFromOrbitsProgressive (fun i (_ : unit) => Some i)
               (repeat (Some tt) 37) true true METEOR_BATCH_SIZE 3 in
  boundaries out = [10; 20; 30; 37]%nat /\ pending out = false /\
  List.length (meteors (state out)) = 37%nat.
Proof. vm_compute. repeat split. Qed.

(** C6, amended.  With scene and sun present and a positive batch size,
    progressive creation over [N] entries comes to an end once enough
    timers have fired; it has then gone through the first
    [min N MAX_METEORS] entries and holds one meteor for each of them
    whose creation did not throw, hence exactly [min N MAX_METEORS]
    meteors when none throws; and the count handed to [onBatchCreated]
    never exceeds [MAX_METEORS]. *)
Theorem progressive_creation_count
    {OrbitRecord Meteor : Type} (construct : nat -> OrbitRecord -> option Meteor)
    (orbits : list (option OrbitRecord)) (batchSize timers : nat) :
  (0 < batchSize)%nat ->
  (List.length orbits <= timers)%nat ->
  let total := Nat.min (List.length orbits) MAX_METEORS in
  let out := createMeteorsFromOrbitsProgressive construct orbits true true
               batchSize timers in
  pending out = false /\
  List.length (meteors (state out)) = successes construct orbits 0 total /\
  ((forall i, (i < total)%nat -> succeeds construct orbits i = true) ->
   List.length (meteors (state out)) = total) /\
  Forall (fun c => (c <= MAX_METEORS)%nat) (boundaries out).
Proof.
  intros Hb Hfuel total out.
  unfold createMeteorsFromOrbitsProgressive in out. simpl in out.
  destruct (List.length orbits =? 0)%nat eqn:Hempty.
  - apply Nat.eqb_eq in Hempty.
    assert (Ht : total = 0%nat) by (unfold total; rewrite Hempty; reflexivity).
    subst out. simpl. rewrite Ht. simpl. repeat split; constructor.
  - simpl in out.
    pose proof (run_spec construct orbits batchSize total timers
                  (mkState 0 [] 0) [] (conj (Nat.le_0_l _) eq_refl)
                  (Forall_nil _)) as Hrun.
    cbv zeta in Hrun. fold total in out. fold out in Hrun.
    destruct Hrun as [[Hle Hlen] [Hseen [Hdone Hterm]]].
    assert (Hp : pending out = false).
    { apply Hterm; [exact Hb |]. simpl index.
      assert (total <= List.length orbits)%nat by (unfold total; lia).
      nia. }
    specialize (Hdone Hp).
    repeat split.
    + exact Hp.
    + rewrite Hlen, Hdone. reflexivity.
    + intros Hall. rewrite Hlen, Hdone. apply successes_all.
      intros i Hi. apply Hall. lia.
    + eapply Forall_impl; [| exact Hseen].
      intros c Hc. simpl in Hc. unfold total in Hc. lia.
Qed.

Lemma progressive_creation_count_witness :
  let out := createMeteorsFromOrbitsProgressive (fun i (_ : unit) => Some i)
               (repeat (Some tt) 37) true true 10 37 in
  pending out = false /\
  List.length (meteors (state out)) =
    successes (fun i (_ : unit) => Some i) (repeat (Some tt) 37) 0
      (Nat.min (List.length (repeat (Some tt) 37)) MAX_METEORS) /\
  ((forall i, (i < Nat.min (List.length (repeat (Some tt) 37)) MAX_METEORS)%nat ->
      succeeds (fun i (_ : unit) => Some i) (repeat (Some tt) 37) i = true) ->
   List.length (meteors (state out)) =
     Nat.min (List.length (repeat (Some tt) 37)) MAX_METEORS) /\
  Forall (fun c => (c <= MAX_METEORS)%nat) (boundaries out).
Proof.
  apply (progressive_creation_count (fun i (_ : unit) => Some i)
           (repeat (Some tt) 37) 10 37).
  - lia.
  - vm_compute. lia.
Defined.

End ProgressiveSpec.

(** * Arithmetic on finite numbers *)

Module NumFacts.
Import JsNum.

Lemma max_Fin (a b : R) : max (Fin a) (Fin b) = Fin (Rmax a b).
Proof.
  unfold max, lt, Rltb, Rmax.
  destruct (Rlt_dec a b), (Rle_dec a b); f_equal; lra.
Qed.

Lemma min_Fin (a b : R) : min (Fin a) (Fin b) = Fin (Rmin a b).
Proof.
  unfold min, lt, Rltb, Rmin.
  destruct (Rlt_dec b a), (Rle_dec a b); f_equal; lra.
Qed.

Lemma lt_Fin_true (a b : R) : a < b -> lt (Fin a) (Fin b) = true.
Proof. intros H. unfold lt, Rltb. destruct (Rlt_dec a b); [reflexivity | lra]. Qed.

Lemma lt_Fin_false (a b : R) : b <= a -> lt (Fin a) (Fin b) = false.
Proof. intros H. unfold lt, Rltb. destruct (Rlt_dec a b); [lra | reflexivity]. Qed.

Lemma lt_Fin_inv (a b : R) : lt (Fin a) (Fin b) = true -> a < b.
Proof. unfold lt, Rltb. destruct (Rlt_dec a b); [trivial | discriminate]. Qed.

Lemma lt_Fin_inv_false (a b : R) : lt (Fin a) (Fin b) = false -> b <= a.
Proof. unfold lt, Rltb. destruct (Rlt_dec a b); [discriminate | lra]. Qed.

Lemma div_Fin (a b : R) : b <> 0 -> div (Fin a) (Fin b) = Fin (a / b).
Proof. intros H. unfold div. destruct (Req_dec_T b 0); [contradiction | reflexivity]. Qed.

Lemma sqrt_Fin (a : R) : 0 <= a -> sqrt (Fin a) = Fin (R_sqrt.sqrt a).
Proof. intros H. unfold sqrt. destruct (Rlt_dec a 0); [lra | reflexivity]. Qed.

Lemma sum_of_squares_nonneg (a b c : R) : 0 <= a * a + b * b + c * c.
Proof. nra. Qed.

Lemma Rmax_Rmin_between (lo hi v : R) :
  lo <= hi -> lo <= Rmax lo (Rmin hi v) <= hi.
Proof.
  intros H. unfold Rmax, Rmin.
  destruct (Rle_dec hi v); destruct (Rle_dec lo _); lra.
Qed.

Lemma Rmax_Rmin_inside (lo hi v : R) :
  lo <= v <= hi -> Rmax lo (Rmin hi v) = v.
Proof.
  intros H. unfold Rmax, Rmin.
  destruct (Rle_dec hi v); destruct (Rle_dec lo _); lra.
Qed.

(** The clamp of a finite value between finite bounds is finite. *)
Lemma clamp_Fin (v lo hi : R) :
  clamp (Fin v) (Fin lo) (Fin hi) = Fin (Rmax lo (Rmin hi v)).
Proof. unfold clamp. rewrite min_Fin, max_Fin. reflexivity. Qed.

Lemma acos_Fin (a : R) : -1 <= a <= 1 -> acos (Fin a) = Fin (Ratan.acos a).
Proof.
  intros H. unfold acos.
  destruct (Rlt_dec a (-1)); [lra |]. destruct (Rlt_dec 1 a); [lra | reflexivity].
Qed.

End NumFacts.

(** * Properties of the camera controller *)

Module CameraFacts.
Import JsNum ThreeMath CameraController CameraProps.

Ltac break_match :=
  match goal with
  | |- context [match ?c with _ => _ end] => destruct c eqn:?
  end.

Lemma sameControl_refl (s : State) : sameControl s s.
Proof. unfold sameControl. repeat split. Qed.

Lemma sameControl_trans (s1 s2 s3 : State) :
  sameControl s1 s2 -> sameControl s2 s3 -> sameControl s1 s3.
Proof.
  unfold sameControl. intros H12 H23.
  repeat match goal with H : _ /\ _ |- _ => destruct H end.
  repeat split; congruence.
Qed.

Lemma updateMinDistanceForTarget_sameControl (w : World) (s : State) :
  sameControl s (updateMinDistanceForTarget w s).
Proof.
  unfold updateMinDistanceForTarget.
  repeat break_match; unfold sameControl; simpl; repeat split.
Qed.

Lemma followLockedTarget_sameControl (w : World) (s : State) :
  sameControl s (followLockedTarget w s).
Proof.
  unfold followLockedTarget.
  destruct (lockedTarget s) as [locked |]; [| apply sameControl_refl].
  destruct (negb (isTransitioning s)); [| apply sameControl_refl].
  eapply sameControl_trans; [| apply updateMinDistanceForTarget_sameControl].
  unfold sameControl; simpl; repeat split.
Qed.

Lemma autoRotateStep_sameControl (s : State) : sameControl s (autoRotateStep s).
Proof.
  unfold autoRotateStep.
  destruct (autoRotate s); unfold sameControl; simpl; repeat split.
Qed.

Lemma placeCamera_sameControl (s : State) : sameControl s (placeCamera s).
Proof. unfold placeCamera, sameControl; simpl; repeat split. Qed.

Lemma update_sameControl (w : World) (s : State) :
  sameControl s (update w s).
Proof.
  unfold update.
  destruct (isNaN _ || _ || _ || _ || _ || _); [unfold sameControl; simpl; repeat split |].
  cbv zeta.
  match goal with |- context [if ?c then _ else _] => destruct c end;
    [unfold sameControl; simpl; repeat split |].
  eapply sameControl_trans; [| apply placeCamera_sameControl].
  eapply sameControl_trans; [| apply autoRotateStep_sameControl].
  eapply sameControl_trans; [| apply followLockedTarget_sameControl].
  unfold sameControl; simpl; repeat split.
Qed.

Lemma sameControl_sameLock (s s' : State) : sameControl s s' -> sameLock s s'.
Proof.
  unfold sameControl, sameLock.
  intros (HlT & HlM & HiT & Hsun & Hearth & _ & _ & _ & Hfr & _).
  repeat split; assumption.
Qed.

Lemma sameLock_trans (s1 s2 s3 : State) :
  sameLock s1 s2 -> sameLock s2 s3 -> sameLock s1 s3.
Proof.
  unfold sameLock.
  intros (A1 & A2 & A3 & A4 & A5 & A6) (B1 & B2 & B3 & B4 & B5 & B6).
  repeat split; congruence.
Qed.

Lemma update_sameLock (w : World) (s : State) : sameLock s (update w s).
Proof. apply sameControl_sameLock, update_sameControl. Qed.

Lemma completionReady_sameLock (s s' : State) (a : Animation) :
  sameLock s s' -> completionReady s a -> completionReady s' a.
Proof.
  unfold sameLock, completionReady.
  intros (HlT & HlM & HiT & Hsun & Hearth & Hfr).
  destruct (onComplete a); congruence.
Qed.

Lemma lockInvariant_sameLock (s s' : State) :
  sameLock s s' -> lockInvariant s -> lockInvariant s'.
Proof.
  intros Hsame [[Hiff Htr] Hready].
  pose proof Hsame as (HlT & HlM & HiT & Hsun & Hearth & Hfr).
  split; [split |].
  - rewrite HlT, HlM. exact Hiff.
  - intros Ht. rewrite HlT, HlM. apply Htr. congruence.
  - rewrite Hfr. eapply Forall_impl; [| exact Hready].
    intros a. apply completionReady_sameLock. exact Hsame.
Qed.

(** A call of [animate] from a state with the lock cleared. *)
Lemma animate_lockInvariant (w : World) (a : Animation) (s : State) :
  lockInvariant s -> completionReady s a -> lockInvariant (animate w a s).
Proof.
  intros Hinv Hready. unfold animate, dateNow. cbv zeta.
  match goal with
  | |- context [update w ?s5] =>
      assert (Hsame : sameLock s (update w s5))
        by (eapply sameLock_trans; [| apply update_sameLock];
            unfold sameLock; simpl; repeat split);
      generalize dependent (update w s5); intros s6 Hsame
  end.
  pose proof (lockInvariant_sameLock s s6 Hsame Hinv) as [[Hiff Htr] Hfr].
  pose proof (completionReady_sameLock s s6 a Hsame Hready) as Hready6.
  destruct (JsNum.lt _ (Fin 1)).
  - split; [split |]; simpl.
    + exact Hiff.
    + exact Htr.
    + apply Forall_app. split; [| constructor; [| constructor]].
      * eapply Forall_impl; [| exact Hfr]. intros b Hb. exact Hb.
      * exact Hready6.
  - unfold complete, completionReady in *.
    destruct (onComplete a) as [| | m].
    + eapply lockInvariant_sameLock.
      * eapply sameLock_trans;
          [apply sameControl_sameLock, updateMinDistanceForTarget_sameControl |].
        unfold sameLock; simpl; repeat split.
      * split; [split |]; simpl.
        -- split; [intros E; contradiction | discriminate].
        -- discriminate.
        -- eapply Forall_impl; [| exact Hfr]. intros b Hb.
           unfold completionReady in *. destruct (onComplete b); simpl; assumption.
    + eapply lockInvariant_sameLock.
      * eapply sameLock_trans;
          [apply sameControl_sameLock, updateMinDistanceForTarget_sameControl |].
        unfold sameLock; simpl; repeat split.
      * split; [split |]; simpl.
        -- split; [intros E; contradiction | discriminate].
        -- discriminate.
        -- eapply Forall_impl; [| exact Hfr]. intros b Hb.
           unfold completionReady in *. destruct (onComplete b); simpl; assumption.
    + eapply lockInvariant_sameLock.
      * eapply sameLock_trans;
          [apply sameControl_sameLock, updateMinDistanceForTarget_sameControl |].
        unfold sameLock; simpl; repeat split.
      * split; [split |]; simpl.
        -- split; discriminate.
        -- discriminate.
        -- eapply Forall_impl; [| exact Hfr]. intros b Hb.
           unfold completionReady in *. destruct (onComplete b); simpl; assumption.
Qed.

Lemma completionReady_instances (s s' : State) (l : list Animation) :
  sunInstance s' = sunInstance s -> earthInstance s' = earthInstance s ->
  Forall (completionReady s) l -> Forall (completionReady s') l.
Proof.
  intros Hsun Hearth. apply Forall_impl. intros a.
  unfold completionReady. destruct (onComplete a); congruence.
Qed.

Lemma transitionToTarget_lockInvariant (w : World) (obj : BodyId)
    (dist : num) (c : Completion) (dur : num) (s : State) :
  lockedTarget s = None -> lockMode s = none ->
  Forall (completionReady s) (frames s) ->
  match c with
  | CompleteSun => sunInstance s <> None
  | CompleteEarth => earthInstance s <> None
  | CompleteMeteor _ => True
  end ->
  lockInvariant (transitionToTarget w obj dist c dur s).
Proof.
  intros HlT HlM Hfr Hc. unfold transitionToTarget, dateNow. cbv zeta.
  apply animate_lockInvariant.
  - split; [split |]; simpl.
    + rewrite HlT, HlM. split; reflexivity.
    + intros _. split; assumption.
    + eapply completionReady_instances; [| | exact Hfr]; reflexivity.
  - unfold completionReady; simpl. exact Hc.
Qed.

Lemma lockOntoSunWithTransition_lockInvariant (w : World) (d : num) (s : State) :
  lockInvariant s -> lockInvariant (lockOntoSunWithTransition w d s).
Proof.
  intros Hinv. unfold lockOntoSunWithTransition.
  destruct (sunInstance s) as [sunI |] eqn:Hsun; [| exact Hinv].
  destruct (LockMode_eqb (lockMode s) sun); [exact Hinv |].
  cbv zeta. apply transitionToTarget_lockInvariant; simpl; try reflexivity.
  - eapply completionReady_instances; [| | apply Hinv]; reflexivity.
  - rewrite Hsun. discriminate.
Qed.

Lemma lockOntoEarthWithTransition_lockInvariant (w : World) (d : num) (s : State) :
  lockInvariant s -> lockInvariant (lockOntoEarthWithTransition w d s).
Proof.
  intros Hinv. unfold lockOntoEarthWithTransition.
  destruct (earthInstance s) as [earthI |] eqn:Hearth; [| exact Hinv].
  destruct (LockMode_eqb (lockMode s) earth); [exact Hinv |].
  cbv zeta. apply transitionToTarget_lockInvariant; simpl; try reflexivity.
  - eapply completionReady_instances; [| | apply Hinv]; reflexivity.
  - rewrite Hearth. discriminate.
Qed.

Lemma lockOntoMeteor_lockInvariant (w : World) (m : option BodyId) (d : num)
    (s : State) :
  lockInvariant s -> lockInvariant (lockOntoMeteor w m d s).
Proof.
  intros Hinv. unfold lockOntoMeteor.
  destruct m as [m |]; [| exact Hinv].
  destruct (LockMode_eqb (lockMode s) meteor && sameBody (lockedTarget s) m);
    [exact Hinv |].
  destruct (instantiateMesh (w m));
    try (cbv zeta; apply transitionToTarget_lockInvariant; simpl;
         try reflexivity;
         eapply completionReady_instances; [| | apply Hinv]; reflexivity).
  eapply lockInvariant_sameLock; [| exact Hinv].
  unfold sameLock; simpl; repeat split.
Qed.

Lemma setCurrentMeteor_sameLock (m : option BodyId) (s : State) :
  sameLock s (setCurrentMeteor m s).
Proof.
  unfold setCurrentMeteor. cbv zeta.
  destruct (_ =? -1)%Z; unfold sameLock; simpl; repeat split.
Qed.

Lemma lockOntoMeteorByIndex_lockInvariant (w : World) (i : Z) (d : num)
    (s : State) :
  lockInvariant s -> lockInvariant (lockOntoMeteorByIndex w i d s).
Proof.
  intros Hinv. unfold lockOntoMeteorByIndex.
  destruct (_ =? 0)%nat; [exact Hinv |].
  destruct (_ || _); [exact Hinv |].
  cbv zeta. apply lockOntoMeteor_lockInvariant.
  eapply lockInvariant_sameLock; [| exact Hinv].
  eapply sameLock_trans; [| apply setCurrentMeteor_sameLock].
  unfold sameLock; simpl; repeat split.
Qed.

Lemma lockOntoMeteorIfExists_lockInvariant (w : World) (s : State) :
  lockInvariant s -> lockInvariant (lockOntoMeteorIfExists w s).
Proof.
  intros Hinv. unfold lockOntoMeteorIfExists.
  destruct (currentMeteor s).
  - apply lockOntoMeteor_lockInvariant. exact Hinv.
  - eapply lockInvariant_sameLock; [| exact Hinv].
    unfold sameLock; simpl; repeat split.
Qed.

Lemma unlockTarget_lockInvariant (s : State) :
  lockInvariant s -> lockInvariant (unlockTarget s).
Proof.
  intros [_ Hfr]. unfold unlockTarget. cbv zeta.
  split; [split |]; simpl.
  - split; reflexivity.
  - discriminate.
  - destruct (lockedTarget s); [destruct (lockMode s) |]; simpl;
      (eapply completionReady_instances; [| | exact Hfr]; reflexivity).
Qed.

(** Every operation that only ends with [update] keeps the lock fields. *)
Lemma onMouseMove_sameLock (w : World) (cx cy : num) (s : State) :
  sameLock s (onMouseMove w cx cy s).
Proof.
  unfold onMouseMove. destruct (negb (isMouseDown s)).
  - unfold sameLock; repeat split.
  - cbv zeta. eapply sameLock_trans; [| apply update_sameLock].
    unfold sameLock; simpl; repeat split.
Qed.

Lemma onWheel_sameLock (w : World) (dy : num) (s : State) :
  sameLock s (onWheel w dy s).
Proof.
  unfold onWheel. cbv zeta. eapply sameLock_trans; [| apply update_sameLock].
  unfold sameLock; simpl; repeat split.
Qed.

Lemma resetCamera_sameLock (w : World) (s : State) : sameLock s (resetCamera w s).
Proof.
  unfold resetCamera. cbv zeta. eapply sameLock_trans; [| apply update_sameLock].
  unfold sameLock; simpl; repeat split.
Qed.

Lemma setTarget_sameLock (w : World) (v : Vector3) (s : State) :
  sameLock s (setTarget w v s).
Proof.
  unfold setTarget. eapply sameLock_trans; [| apply update_sameLock].
  unfold sameLock; simpl; repeat split.
Qed.

Lemma setZoomLimits_sameLock (w : World) (mn mx : num) (s : State) :
  sameLock s (setZoomLimits w mn mx s).
Proof.
  unfold setZoomLimits. cbv zeta. eapply sameLock_trans; [| apply update_sameLock].
  unfold sameLock; simpl; repeat split.
Qed.

Lemma onKeyDown_lockInvariant (w : World) (code : Key) (s : State) :
  lockInvariant s -> lockInvariant (onKeyDown w code s).
Proof.
  intros Hinv. unfold onKeyDown.
  destruct (isTransitioning s); [exact Hinv |].
  destruct code.
  - eapply lockInvariant_sameLock; [apply resetCamera_sameLock | exact Hinv].
  - eapply lockInvariant_sameLock; [| exact Hinv].
    unfold sameLock; simpl; repeat split.
  - apply lockOntoSunWithTransition_lockInvariant. exact Hinv.
  - apply lockOntoEarthWithTransition_lockInvariant. exact Hinv.
  - apply lockOntoMeteorIfExists_lockInvariant. exact Hinv.
  - destruct (meteorsList s) as [| firstMeteor rest] eqn:Hl.
    + eapply lockInvariant_sameLock; [| exact Hinv].
      unfold sameLock; simpl; repeat split.
    + cbv zeta.
      assert (Hlock : lockInvariant
                (lockOntoMeteor w (Some firstMeteor) (Fin 1500)
                   (setCurrentMeteor (Some firstMeteor) s))).
      { apply lockOntoMeteor_lockInvariant.
        eapply lockInvariant_sameLock; [apply setCurrentMeteor_sameLock | exact Hinv]. }
      destruct (lockOntoMeteorThrows w (Some firstMeteor)
                  (setCurrentMeteor (Some firstMeteor) s)); [exact Hlock |].
      eapply lockInvariant_sameLock; [| exact Hlock].
      unfold sameLock; simpl; repeat split.
  - apply unlockTarget_lockInvariant. exact Hinv.
  - cbv zeta. eapply lockInvariant_sameLock; [| exact Hinv].
    eapply sameLock_trans; [| apply update_sameLock].
    unfold sameLock.
    destruct (lockedTarget s) eqn:HlT; simpl; rewrite ?HlT; simpl;
      [repeat split; assumption |].
    match goal with
    | |- context [if ?c then _ else _] => destruct c
    end; simpl; repeat split; assumption.
  - cbv zeta. eapply lockInvariant_sameLock; [| exact Hinv].
    eapply sameLock_trans; [| apply update_sameLock].
    unfold sameLock; simpl; repeat split.
  - destruct (_ && _); [| exact Hinv].
    apply lockOntoMeteorByIndex_lockInvariant. exact Hinv.
  - destruct (_ && _); [| exact Hinv].
    apply lockOntoMeteorByIndex_lockInvariant. exact Hinv.
  - exact Hinv.
Qed.

Lemma Forall_remove_nth {A : Type} (P : A -> Prop) (l : list A) (i : nat) :
  Forall P l -> Forall P (firstn i l ++ skipn (S i) l).
Proof.
  revert i. induction l as [| a l IH]; intros i H.
  - destruct i; simpl; constructor.
  - inversion H as [| a' l' Ha Hl]; subst.
    destruct i as [| i]; simpl.
    + exact Hl.
    + constructor; [exact Ha | apply IH; exact Hl].
Qed.

Lemma animationFrame_lockInvariant (w : World) (i : nat) (s : State) :
  lockInvariant s -> lockInvariant (animationFrame w i s).
Proof.
  intros Hinv. unfold animationFrame.
  destruct (nth_error (frames s) i) as [a |] eqn:Hnth; [| exact Hinv].
  destruct Hinv as [Hlock Hfr].
  assert (Ha : completionReady s a).
  { rewrite Forall_forall in Hfr. apply Hfr. eapply nth_error_In; eauto. }
  apply animate_lockInvariant.
  - split; [exact Hlock | simpl].
    eapply completionReady_instances;
      [| | apply Forall_remove_nth; exact Hfr]; reflexivity.
  - exact Ha.
Qed.

Lemma step_lockInvariant (w : World) (op : Op) (s : State) :
  lockInvariant s -> lockInvariant (step w op s).
Proof.
  intros Hinv. destruct op; simpl.
  - eapply lockInvariant_sameLock; [| exact Hinv]. unfold sameLock; simpl; repeat split.
  - eapply lockInvariant_sameLock; [apply onMouseMove_sameLock | exact Hinv].
  - eapply lockInvariant_sameLock; [| exact Hinv]. unfold sameLock; simpl; repeat split.
  - eapply lockInvariant_sameLock; [apply onWheel_sameLock | exact Hinv].
  - apply onKeyDown_lockInvariant. exact Hinv.
  - eapply lockInvariant_sameLock; [apply update_sameLock | exact Hinv].
  - eapply lockInvariant_sameLock; [apply resetCamera_sameLock | exact Hinv].
  - eapply lockInvariant_sameLock; [apply setTarget_sameLock | exact Hinv].
  - eapply lockInvariant_sameLock; [apply setCurrentMeteor_sameLock | exact Hinv].
  - eapply lockInvariant_sameLock; [| exact Hinv]. unfold sameLock; simpl; repeat split.
  - apply lockOntoMeteorIfExists_lockInvariant. exact Hinv.
  - apply lockOntoSunWithTransition_lockInvariant. exact Hinv.
  - apply lockOntoEarthWithTransition_lockInvariant. exact Hinv.
  - apply lockOntoMeteor_lockInvariant. exact Hinv.
  - apply lockOntoMeteorByIndex_lockInvariant. exact Hinv.
  - apply unlockTarget_lockInvariant. exact Hinv.
  - eapply lockInvariant_sameLock; [apply setZoomLimits_sameLock | exact Hinv].
  - eapply lockInvariant_sameLock; [| exact Hinv]. unfold sameLock; simpl; repeat split.
  - apply animationFrame_lockInvariant. exact Hinv.
Qed.

Lemma constructor_lockInvariant (w : World) (cam : Camera) (tgt : Vector3)
    (minD maxD : num) (clk : nat -> num) (sunI earthI : option BodyId) :
  lockInvariant (setTargetObjects sunI earthI (constructor w cam tgt minD maxD clk)).
Proof.
  unfold constructor, setTargetObjects.
  match goal with
  | |- context [update w ?s0] =>
      pose proof (update_sameLock w s0) as (HlT & HlM & HiT & _ & _ & Hfr);
      generalize dependent (update w s0); intros s1 HlT HlM HiT Hfr
  end.
  simpl in HlT, HlM, HiT, Hfr.
  split; [split |]; simpl.
  - rewrite HlT, HlM. split; reflexivity.
  - rewrite HiT. discriminate.
  - rewrite Hfr. constructor.
Qed.

Lemma reachable_lockInvariant (s : State) : reachable s -> lockInvariant s.
Proof.
  induction 1 as [w cam tgt minD maxD clk sunI earthI | w op s Hr IH].
  - apply constructor_lockInvariant.
  - apply step_lockInvariant. exact IH.
Qed.

End CameraFacts.

(** * The distance and angle bounds of the camera *)

Module CameraBounds.
Import JsNum ThreeMath CameraController CameraProps NumFacts CameraFacts.

Local Arguments update : simpl never.
Local Arguments updateMinDistanceForTarget : simpl never.
Local Arguments setFromVector3 : simpl never.
Local Arguments complete : simpl never.

Ltac explode s :=
  destruct s as [[[cpx cpy cpz] cla] [tx ty tz] mnD mxD cD mD lX lY [sr sp st]
                 aR lT lM iT mL cI sI eI cM fr cK cR ef].

Ltac fin_vars :=
  repeat match goal with
  | H : finite ?a |- _ =>
      is_var a; destruct a; unfold finite in H; simpl in H;
      try discriminate H; clear H
  | H : CameraProps.le ?a _ |- _ =>
      is_var a; destruct a; simpl in H; try contradiction
  | H : CameraProps.le _ ?a |- _ =>
      is_var a; destruct a; simpl in H; try contradiction
  | H : CameraProps.lt ?a _ |- _ =>
      is_var a; destruct a; simpl in H; try contradiction
  | H : CameraProps.lt _ ?a |- _ =>
      is_var a; destruct a; simpl in H; try contradiction
  end.

Ltac case_if :=
  match goal with
  | |- context [if ?c then _ else _] =>
      let H := fresh "Hc" in
      destruct c eqn:H;
      try (
           first [ apply lt_Fin_inv in H | apply lt_Fin_inv_false in H ])
  end.

Lemma targetRadius_ok (M : R) (w : World) (s : State) (locked : BodyId) :
  worldOk M w -> 37.5 <= M ->
  exists q : R, targetRadius w s locked = Fin q /\ q * 2.5 <= M.
Proof.
  intros Hw HM. unfold targetRadius.
  assert (Hbody : forall b r, bodyRadius (w b) = Some r ->
                    exists q, r = Fin q /\ q * 2.5 <= M).
  { intros b r Hr. destruct (Hw b) as [_ Hb]. rewrite Hr in Hb.
    destruct r as [q | | |]; simpl in Hb; try contradiction;
      try (unfold infinityTimes in Hb; destruct (Rlt_dec 0 2.5); [| lra];
           simpl in Hb; contradiction).
    exists q. split; [reflexivity | exact Hb]. }
  destruct (bodyRadius (w locked)) as [r |] eqn:Hr.
  - eapply Hbody; eauto.
  - destruct (_ && _); [exists 15; split; [reflexivity | lra] |].
    destruct (_ && _); [exists 1; split; [reflexivity | lra] |].
    destruct (lockMode s); try (exists 1; split; [reflexivity | lra]).
    destruct (currentMeteor s) as [m |]; [| exists 1; split; [reflexivity | lra]].
    destruct (bodyRadius (w m)) as [r |] eqn:Hm;
      [| exists 0.2; split; [reflexivity | lra]].
    destruct (truthy r); [| exists 0.2; split; [reflexivity | lra]].
    eapply Hbody; eauto.
Qed.

Lemma updateMinDistanceForTarget_invariant (M : R) (w : World) (s : State) :
  worldOk M w -> invariant M s -> invariant M (updateMinDistanceForTarget w s).
Proof.
  intros Hw [Hst Hwb].
  unfold updateMinDistanceForTarget.
  destruct (lockedTarget s) as [locked |] eqn:HlT; [| split; assumption].
  destruct (targetRadius_ok M w s locked Hw (proj1 (proj2 Hst))) as [q [Hq Hq25]].
  rewrite Hq. clear Hq.
  explode s.
  unfold steady, withinBounds, finiteVector in *. simpl in *.
  destruct Hst as (HM & HM37 & Hmn & Hr & Hp & Ht & Hc & HlX & HlY & (Htx & Hty & Htz)
                   & (Hcx & Hcy & Hcz) & HK & Hfr & Hclk).
  destruct Hwb as (B1 & B2 & B3 & B4).
  subst mxD lT. fin_vars.
  assert (HK' := HK ltac:(discriminate)). clear HK.
  rewrite min_Fin in HK'. simpl in HK'.
  unfold CameraProps.le in *.
  unfold gt. simpl.
  case_if; simpl; [case_if; simpl |];
    unfold invariant, steady, withinBounds, finiteVector, finite; simpl;
    rewrite ?min_Fin; simpl; repeat split; auto; try lra.
  all: try intros _; unfold Rmin in *; repeat destruct (Rle_dec _ _); lra.
Qed.

Ltac open_invariant Hst Hwb :=
  unfold steady, withinBounds, finiteVector in Hst, Hwb; simpl in Hst, Hwb;
  destruct Hst as (HM & HM37 & Hmn & Hr & Hp & Ht & Hc & HlX & HlY &
                   (Htx & Hty & Htz) & (Hcx & Hcy & Hcz) & HK & Hfr & Hclk);
  destruct Hwb as (B1 & B2 & B3 & B4).

Ltac open_steady Hst :=
  unfold steady, finiteVector in Hst; simpl in Hst;
  destruct Hst as (HM & HM37 & Hmn & Hr & Hp & Ht & Hc & HlX & HlY &
                   (Htx & Hty & Htz) & (Hcx & Hcy & Hcz) & HK & Hfr & Hclk).

Ltac close_invariant :=
  unfold invariant, steady, withinBounds, finiteVector, finite, CameraProps.le in *;
  simpl in *; rewrite ?min_Fin, ?max_Fin in *; simpl in *;
  repeat split; auto; try lra;
  try (let Hl := fresh "Hl" in
       intro Hl;
       repeat match goal with
       | HK : _ <> None -> _ |- _ => specialize (HK Hl)
       end);
  unfold Rmin, Rmax in *; repeat destruct (Rle_dec _ _); try lra.

Lemma followLockedTarget_invariant (M : R) (w : World) (s : State) :
  worldOk M w -> invariant M s -> invariant M (followLockedTarget w s).
Proof.
  intros Hw Hinv. unfold followLockedTarget.
  destruct (lockedTarget s) as [locked |] eqn:HlT; [| exact Hinv].
  destruct (negb (isTransitioning s)); [| exact Hinv].
  apply updateMinDistanceForTarget_invariant; [exact Hw |].
  destruct (Hw locked) as [(Hx & Hy & Hz) _].
  destruct Hinv as [Hst Hwb]. explode s. open_invariant Hst Hwb.
  destruct (getPosition (w locked)) as [gx gy gz]. simpl in Hx, Hy, Hz.
  subst mxD. fin_vars. close_invariant.
Qed.

Lemma autoRotateStep_invariant (M : R) (s : State) :
  invariant M s -> invariant M (autoRotateStep s).
Proof.
  intros [Hst Hwb]. unfold autoRotateStep.
  destruct (autoRotate s); [| split; assumption].
  explode s. open_invariant Hst Hwb. subst mxD. fin_vars. close_invariant.
Qed.

Lemma placeCamera_invariant (M : R) (s : State) :
  invariant M s -> invariant M (placeCamera s).
Proof.
  intros [Hst Hwb]. unfold placeCamera.
  explode s. open_invariant Hst Hwb. subst mxD. fin_vars. close_invariant.
Qed.

Lemma PI_room : 0.01 <= Rtrigo1.PI + - (0.01).
Proof. pose proof TrigBounds.PI_enclosure. lra. Qed.

(** [update] puts a controller in working order within its bounds. *)
Lemma update_invariant (M : R) (w : World) (s : State) :
  worldOk M w -> steady M s -> invariant M (update w s).
Proof.
  intros Hw Hst. unfold update.
  assert (Hvalid :
    isNaN (radius (spherical s)) || isNaN (phi (spherical s)) ||
    isNaN (theta (spherical s)) || negb (isFinite (radius (spherical s))) ||
    negb (isFinite (phi (spherical s))) ||
    negb (isFinite (theta (spherical s))) = false).
  { explode s. open_steady Hst. fin_vars. reflexivity. }
  rewrite Hvalid. cbv zeta.
  match goal with
  | |- context [if ?c then _ else _] =>
      assert (Htarget : c = false)
        by (explode s; open_steady Hst; fin_vars; reflexivity);
      rewrite Htarget
  end.
  apply placeCamera_invariant, autoRotateStep_invariant,
        followLockedTarget_invariant; [exact Hw |].
  pose proof PI_room.
  explode s. open_steady Hst. subst mxD. fin_vars.
  simpl. rewrite !min_Fin, !max_Fin.
  close_invariant.
Qed.

Lemma update_synced_unlocked (M : R) (w : World) (s : State) :
  lockedTarget s = None -> steady M s -> synced s -> synced (update w s).
Proof.
  intros HlT Hst Hsync. unfold update.
  assert (Hvalid :
    isNaN (radius (spherical s)) || isNaN (phi (spherical s)) ||
    isNaN (theta (spherical s)) || negb (isFinite (radius (spherical s))) ||
    negb (isFinite (phi (spherical s))) ||
    negb (isFinite (theta (spherical s))) = false).
  { explode s. open_steady Hst. fin_vars. reflexivity. }
  rewrite Hvalid. cbv zeta.
  match goal with
  | |- context [if ?c then _ else _] =>
      assert (Htarget : c = false)
        by (explode s; open_steady Hst; fin_vars; reflexivity);
      rewrite Htarget
  end.
  unfold followLockedTarget, autoRotateStep, placeCamera, synced in *.
  explode s. open_steady Hst. simpl in HlT. subst mxD lT. fin_vars.
  simpl in *. destruct aR; simpl; rewrite ?min_Fin, ?max_Fin in *; simpl in *;
    unfold Rmin, Rmax in *; repeat destruct (Rle_dec _ _); lra.
Qed.

Lemma setFromVector3_finite (v : Vector3) :
  finiteVector v ->
  exists r p t : R, setFromVector3 v = mkSpherical (Fin r) (Fin p) (Fin t).
Proof.
  destruct v as [vx vy vz]. intros (Hx & Hy & Hz). simpl in *. fin_vars.
  unfold setFromVector3. simpl.
  rewrite sqrt_Fin by apply sum_of_squares_nonneg.
  unfold eqb, Reqb. destruct (Req_dec_T _ 0) as [E | E].
  - eauto.
  - rewrite div_Fin by exact E. rewrite clamp_Fin.
    rewrite acos_Fin by (apply Rmax_Rmin_between; lra).
    unfold atan2. eauto.
Qed.


Lemma complete_invariant (M : R) (w : World) (c : Completion) (s : State) :
  worldOk M w -> invariant M s -> synced s ->
  invariant M (complete w c s).
Proof.
  intros Hw [Hst Hwb] Hsync. unfold complete, synced in *.
  assert (Hlock : forall (l : option BodyId) (m : LockMode),
            invariant M (set_lockMode m (set_lockedTarget l s))).
  { intros l m. explode s. open_invariant Hst Hwb. subst mxD. fin_vars.
    simpl in Hsync. rewrite min_Fin in Hsync. close_invariant. }
  destruct c; cbv zeta;
    match goal with
    | |- invariant M (emit _ (updateMinDistanceForTarget w ?s1)) =>
        pose proof (updateMinDistanceForTarget_invariant M w s1 Hw (Hlock _ _)) as Hu;
        generalize dependent (updateMinDistanceForTarget w s1); intros s2 Hu
    end;
    destruct Hu as [Hst2 Hwb2]; explode s2; open_invariant Hst2 Hwb2;
    subst; fin_vars; close_invariant.
Qed.

Lemma progressAt_finite (a : Animation) (n : R) :
  animationOk a -> exists p : R, progressAt a (Fin n) = Fin p /\ p <= 1.
Proof.
  destruct a as [obj dist c dur stgt sth sph srad st0].
  unfold animationOk. cbn [duration startTime targetDistance startTarget
                           startTheta startPhi startRadius].
  intros (_ & Hdur & _ & _ & _ & _ & Hst0). fin_vars.
  unfold progressAt. cbn [duration startTime]. simpl.
  rewrite div_Fin by lra. rewrite min_Fin.
  eexists. split; [reflexivity | apply Rmin_r].
Qed.

Lemma ease_finite (p : R) : exists e : R, ease (Fin p) = Fin e.
Proof.
  unfold ease. destruct (JsNum.lt _ _); simpl; [eauto |].
  rewrite div_Fin by lra. simpl. eauto.
Qed.

Lemma interpolate_steady (M : R) (w : World) (a : Animation) (e : R) (s : State) :
  worldOk M w -> invariant M s -> animationOk a ->
  steady M (interpolate w a (Fin e) s) /\ synced (interpolate w a (Fin e) s).
Proof.
  intros Hw [Hst Hwb] Ha. unfold interpolate.
  destruct (Hw (targetObject a)) as [Hpos _].
  assert (Hvec : finiteVector (sub (position (camera s))
                                   (getPosition (w (targetObject a))))).
  { destruct (getPosition (w (targetObject a))) as [gx gy gz].
    destruct Hpos as (Hgx & Hgy & Hgz). simpl in Hgx, Hgy, Hgz.
    explode s. open_steady Hst. fin_vars. repeat split. }
  destruct (setFromVector3_finite _ Hvec) as (r' & p' & t' & Hsph).
  rewrite Hsph. clear Hsph Hvec.
  destruct (getPosition (w (targetObject a))) as [gx gy gz].
  destruct Hpos as (Hgx & Hgy & Hgz). simpl in Hgx, Hgy, Hgz.
  destruct a as [obj dist c dur [sx sy sz] sth sph srad st0].
  unfold animationOk, finiteVector in Ha.
  cbn [duration startTime targetDistance startTarget startTheta startPhi
       startRadius x y z] in Ha.
  destruct Ha as (Hdist & Hdur & (Hsx & Hsy & Hsz) & Hsth & Hsph & Hsrad & Hst0).
  explode s. open_invariant Hst Hwb. subst mxD. fin_vars.
  unfold synced. simpl. rewrite ?min_Fin.
  unfold steady, finiteVector, finite, CameraProps.le, CameraProps.lt; simpl.
  rewrite ?min_Fin. simpl.
  repeat split; auto; try lra; try apply Rmin_r.
  intros _. apply Rmin_r.
Qed.

Lemma animate_invariant (M : R) (w : World) (a : Animation) (s : State) :
  worldOk M w -> invariant M s -> animationOk a ->
  invariant M (animate w a s).
Proof.
  intros Hw Hinv Ha. unfold animate, dateNow.
  assert (Hnow : exists n, clock s (clockReads s) = Fin n).
  { destruct Hinv as [Hst _]. unfold steady in Hst.
    destruct Hst as (_ & _ & _ & _ & _ & _ & _ & _ & _ & _ & _ & _ & _ & Hclk).
    specialize (Hclk (clockReads s)). unfold finite in Hclk.
    destruct (clock s (clockReads s)); try discriminate Hclk. eauto. }
  destruct Hnow as [n Hn]. rewrite Hn. cbv zeta.
  destruct (progressAt_finite a n Ha) as (p & Hprog & Hprog1). rewrite Hprog.
  destruct (ease_finite p) as [e He]. rewrite He.
  set (s0 := set_clockReads (S (clockReads s)) s).
  assert (Hinv0 : invariant M s0).
  { destruct Hinv as [Hst Hwb]. unfold s0. explode s. open_invariant Hst Hwb.
    subst mxD. fin_vars. close_invariant. }
  destruct (interpolate_steady M w a e s0 Hw Hinv0 Ha) as [Hst5 Hsync5].
  set (s5 := interpolate w a (Fin e) s0) in *.
  pose proof (update_invariant M w s5 Hw Hst5) as Hinv6.
  assert (Hsync6 : synced (update w s5)).
  { destruct (lockedTarget s5) as [l |] eqn:HlT.
    - destruct Hinv6 as [Hst6 _]. unfold steady in Hst6.
      destruct Hst6 as (_ & _ & _ & _ & _ & _ & _ & _ & _ & _ & _ & HK & _).
      apply HK. destruct (update_sameControl w s5) as (E & _). rewrite E, HlT.
      discriminate.
    - eapply update_synced_unlocked; eauto. }
  generalize dependent (update w s5). intros s6 Hinv6 Hsync6.
  destruct (JsNum.lt (Fin p) (Fin 1)).
  - destruct Hinv6 as [Hst6 Hwb6]. explode s6. open_invariant Hst6 Hwb6.
    subst mxD. fin_vars.
    unfold invariant, steady, withinBounds, finiteVector, finite, CameraProps.le;
      simpl.
    repeat split; auto.
    apply Forall_app. split; [exact Hfr | constructor; [exact Ha | constructor]].
  - apply complete_invariant; [exact Hw | |].
    + destruct Hinv6 as [Hst6 Hwb6]. explode s6. open_invariant Hst6 Hwb6.
      subst mxD. fin_vars. close_invariant.
    + unfold synced in *. explode s6. exact Hsync6.
Qed.


Ltac steady_by_computation s Hinv :=
  let Hst := fresh "Hst" in
  let Hwb := fresh "Hwb" in
  destruct Hinv as [Hst Hwb]; explode s; open_invariant Hst Hwb;
  subst; fin_vars; simpl;
  rewrite ?sqrt_Fin by apply sum_of_squares_nonneg;
  repeat case_if; simpl;
  rewrite ?div_Fin by lra; simpl;
  close_invariant.

Lemma transitionToTarget_invariant (M : R) (w : World) (obj : BodyId)
    (dist : num) (c : Completion) (dur : num) (s : State) :
  worldOk M w -> invariant M s -> finite dist -> CameraProps.lt (Fin 0) dur ->
  invariant M (transitionToTarget w obj dist c dur s).
Proof.
  intros Hw Hinv Hdist Hdur. unfold transitionToTarget, dateNow. cbv zeta.
  apply animate_invariant; [exact Hw | |].
  - steady_by_computation s Hinv.
  - unfold animationOk, finiteVector. simpl.
    destruct Hinv as [Hst Hwb]. explode s. open_invariant Hst Hwb.
    subst. fin_vars. simpl. unfold finite in *. simpl.
    repeat split; auto.
Qed.

Lemma lockOntoSunWithTransition_invariant (M : R) (w : World) (d : num) (s : State) :
  worldOk M w -> invariant M s -> CameraProps.lt (Fin 0) d ->
  invariant M (lockOntoSunWithTransition w d s).
Proof.
  intros Hw Hinv Hd. unfold lockOntoSunWithTransition.
  destruct (sunInstance s); [| exact Hinv].
  destruct (LockMode_eqb _ _); [exact Hinv |]. cbv zeta.
  apply transitionToTarget_invariant; [exact Hw | | reflexivity | exact Hd].
  steady_by_computation s Hinv.
Qed.

Lemma lockOntoEarthWithTransition_invariant (M : R) (w : World) (d : num) (s : State) :
  worldOk M w -> invariant M s -> CameraProps.lt (Fin 0) d ->
  invariant M (lockOntoEarthWithTransition w d s).
Proof.
  intros Hw Hinv Hd. unfold lockOntoEarthWithTransition.
  destruct (earthInstance s); [| exact Hinv].
  destruct (LockMode_eqb _ _); [exact Hinv |]. cbv zeta.
  apply transitionToTarget_invariant; [exact Hw | | reflexivity | exact Hd].
  steady_by_computation s Hinv.
Qed.

Lemma lockOntoMeteor_invariant (M : R) (w : World) (m : option BodyId) (d : num)
    (s : State) :
  worldOk M w -> invariant M s -> CameraProps.lt (Fin 0) d ->
  invariant M (lockOntoMeteor w m d s).
Proof.
  intros Hw Hinv Hd. unfold lockOntoMeteor.
  destruct m as [m |]; [| exact Hinv].
  destruct (_ && _); [exact Hinv |].
  assert (Hgoal : finite (match bodyRadius (w m) with
                          | Some r => if truthy r then r else Fin 0.2
                          | None => Fin 0.2
                          end * Fin 4)%num).
  { destruct (Hw m) as [_ Hrad].
    destruct (bodyRadius (w m)) as [r |]; [| reflexivity].
    destruct (truthy r); [| reflexivity].
    destruct r; simpl in Hrad; try contradiction; try reflexivity;
      unfold infinityTimes in Hrad; destruct (Rlt_dec 0 2.5); try lra;
      simpl in Hrad; contradiction. }
  destruct (instantiateMesh (w m)); cbv zeta;
    try (apply transitionToTarget_invariant;
         [exact Hw | steady_by_computation s Hinv | exact Hgoal | exact Hd]).
  steady_by_computation s Hinv.
Qed.

Lemma setCurrentMeteor_invariant (M : R) (m : option BodyId) (s : State) :
  invariant M s -> invariant M (setCurrentMeteor m s).
Proof.
  intros Hinv. unfold setCurrentMeteor. cbv zeta.
  destruct (_ =? -1)%Z; steady_by_computation s Hinv.
Qed.

Lemma lockOntoMeteorByIndex_invariant (M : R) (w : World) (i : Z) (d : num)
    (s : State) :
  worldOk M w -> invariant M s -> CameraProps.lt (Fin 0) d ->
  invariant M (lockOntoMeteorByIndex w i d s).
Proof.
  intros Hw Hinv Hd. unfold lockOntoMeteorByIndex.
  destruct (_ =? 0)%nat; [exact Hinv |].
  destruct (_ || _); [exact Hinv |]. cbv zeta.
  apply lockOntoMeteor_invariant; [exact Hw | | exact Hd].
  apply setCurrentMeteor_invariant.
  steady_by_computation s Hinv.
Qed.

Lemma lockOntoMeteorIfExists_invariant (M : R) (w : World) (s : State) :
  worldOk M w -> invariant M s -> invariant M (lockOntoMeteorIfExists w s).
Proof.
  intros Hw Hinv. unfold lockOntoMeteorIfExists.
  destruct (currentMeteor s).
  - apply lockOntoMeteor_invariant; [exact Hw | exact Hinv | simpl; lra].
  - steady_by_computation s Hinv.
Qed.

Lemma unlockTarget_invariant (M : R) (s : State) :
  invariant M s -> invariant M (unlockTarget s).
Proof.
  intros Hinv. unfold unlockTarget. cbv zeta.
  destruct (lockedTarget s) eqn:HlT; [destruct (lockMode s) |];
    steady_by_computation s Hinv.
Qed.


Ltac update_by_computation s Hw Hinv :=
  apply update_invariant; [exact Hw |];
  let Hst := fresh "Hst" in
  let Hwb := fresh "Hwb" in
  destruct Hinv as [Hst Hwb]; explode s; open_invariant Hst Hwb;
  subst; fin_vars; simpl;
  rewrite ?sqrt_Fin by apply sum_of_squares_nonneg;
  repeat case_if; simpl;
  rewrite ?div_Fin by lra; rewrite ?min_Fin, ?max_Fin; simpl;
  unfold steady, finiteVector, finite, CameraProps.le in *; simpl in *;
  rewrite ?min_Fin, ?max_Fin in *; simpl in *;
  repeat split; auto; try lra;
  try (let Hl := fresh "Hl" in
       intro Hl;
       repeat match goal with
       | HK : _ <> None -> _ |- _ => specialize (HK Hl)
       end);
  unfold Rmin, Rmax in *; repeat destruct (Rle_dec _ _); try lra.

Lemma onMouseMove_invariant (M : R) (w : World) (cx cy : num) (s : State) :
  worldOk M w -> invariant M s -> finite cx -> finite cy ->
  invariant M (onMouseMove w cx cy s).
Proof.
  intros Hw Hinv Hev1 Hev2. unfold onMouseMove.
  destruct (negb (isMouseDown s)); [exact Hinv |]. cbv zeta.
  update_by_computation s Hw Hinv.
Qed.

Lemma onWheel_invariant (M : R) (w : World) (dy : num) (s : State) :
  worldOk M w -> invariant M s -> finite dy -> invariant M (onWheel w dy s).
Proof.
  intros Hw Hinv Hdy. unfold onWheel. cbv zeta.
  destruct (lockedTarget s) eqn:HlT;
    (apply update_invariant; [exact Hw |]);
    destruct Hinv as [Hst Hwb]; explode s; open_invariant Hst Hwb;
    simpl in HlT; subst; fin_vars; simpl;
    rewrite ?sqrt_Fin by apply sum_of_squares_nonneg;
    repeat case_if; simpl;
    rewrite ?min_Fin, ?max_Fin; simpl;
    unfold steady, finiteVector, finite, CameraProps.le in *; simpl in *;
    rewrite ?min_Fin, ?max_Fin in *; simpl in *;
    repeat split; auto; try lra;
    try (intros _); apply Rmin_r.
Qed.

Lemma resetCamera_invariant (M : R) (w : World) (s : State) :
  worldOk M w -> invariant M s -> invariant M (resetCamera w s).
Proof.
  intros Hw Hinv. unfold resetCamera. cbv zeta.
  apply update_invariant; [exact Hw |].
  destruct Hinv as [Hst Hwb]. explode s. open_invariant Hst Hwb.
  subst. fin_vars. simpl. unfold JsNum.PI. rewrite div_Fin by lra.
  unfold steady, finiteVector, finite, CameraProps.le in *; simpl in *.
  rewrite ?min_Fin. simpl.
  repeat split; auto; try lra. intros _. apply Rmin_r.
Qed.

Lemma setTarget_invariant (M : R) (w : World) (v : Vector3) (s : State) :
  worldOk M w -> invariant M s -> finiteVector v -> invariant M (setTarget w v s).
Proof.
  intros Hw Hinv (Hvx & Hvy & Hvz). unfold setTarget.
  destruct v as [vx vy vz]. simpl in Hvx, Hvy, Hvz.
  update_by_computation s Hw Hinv.
Qed.

Lemma setZoomLimits_invariant (M : R) (w : World) (mn mx : num) (s : State) :
  worldOk M w -> invariant M s -> mx = Fin M -> CameraProps.le mn (Fin M) ->
  invariant M (setZoomLimits w mn mx s).
Proof.
  intros Hw Hinv Hmx Hmn'. unfold setZoomLimits. cbv zeta. subst mx.
  apply update_invariant; [exact Hw |].
  destruct Hinv as [Hst Hwb]. explode s. open_invariant Hst Hwb.
  subst. fin_vars. simpl. rewrite ?min_Fin, ?max_Fin. simpl.
  unfold steady, finiteVector, finite, CameraProps.le in *; simpl in *.
  rewrite ?min_Fin. simpl.
  repeat split; auto; try lra. intros _. apply Rmin_r.
Qed.

Lemma onKeyDown_invariant (M : R) (w : World) (code : Key) (s : State) :
  worldOk M w -> invariant M s -> invariant M (onKeyDown w code s).
Proof.
  intros Hw Hinv. unfold onKeyDown.
  destruct (isTransitioning s); [exact Hinv |].
  destruct code.
  - apply resetCamera_invariant; assumption.
  - steady_by_computation s Hinv.
  - apply lockOntoSunWithTransition_invariant; [assumption | assumption | simpl; lra].
  - apply lockOntoEarthWithTransition_invariant; [assumption | assumption | simpl; lra].
  - apply lockOntoMeteorIfExists_invariant; assumption.
  - destruct (meteorsList s) as [| firstMeteor rest] eqn:Hl.
    + steady_by_computation s Hinv.
    + cbv zeta.
      pose proof (lockOntoMeteor_invariant M w (Some firstMeteor) (Fin 1500)
                    (setCurrentMeteor (Some firstMeteor) s) Hw
                    (setCurrentMeteor_invariant M _ s Hinv)) as Hlock.
      assert (Hd : CameraProps.lt (Fin 0) (Fin 1500)) by (simpl; lra).
      specialize (Hlock Hd).
      destruct (lockOntoMeteorThrows w (Some firstMeteor)
                  (setCurrentMeteor (Some firstMeteor) s)); [exact Hlock |].
      generalize dependent (lockOntoMeteor w (Some firstMeteor) (Fin 1500)
                              (setCurrentMeteor (Some firstMeteor) s)).
      intros s2 Hlock. steady_by_computation s2 Hlock.
  - apply unlockTarget_invariant. exact Hinv.
  - cbv zeta.
    destruct (lockedTarget s) eqn:HlT;
      (apply update_invariant; [exact Hw |]);
      destruct Hinv as [Hst Hwb]; explode s; open_invariant Hst Hwb;
      simpl in HlT; subst; fin_vars; simpl;
      rewrite ?sqrt_Fin by apply sum_of_squares_nonneg;
      rewrite ?min_Fin, ?max_Fin; simpl;
      repeat case_if; simpl;
      rewrite ?min_Fin, ?max_Fin; simpl;
      unfold steady, finiteVector, finite, CameraProps.le in *; simpl in *;
      rewrite ?min_Fin, ?max_Fin in *; simpl in *;
      repeat split; auto; try lra;
      try (intros _); apply Rmin_r.
  - cbv zeta. apply update_invariant; [exact Hw |].
    destruct Hinv as [Hst Hwb]. explode s. open_invariant Hst Hwb.
    subst. fin_vars. simpl. rewrite ?min_Fin, ?max_Fin. simpl.
    unfold steady, finiteVector, finite, CameraProps.le in *; simpl in *.
    rewrite ?min_Fin. simpl.
    repeat split; auto; try lra. intros _. apply Rmin_r.
  - destruct (_ && _); [| exact Hinv].
    apply lockOntoMeteorByIndex_invariant; [assumption | assumption | simpl; lra].
  - destruct (_ && _); [| exact Hinv].
    apply lockOntoMeteorByIndex_invariant; [assumption | assumption | simpl; lra].
  - exact Hinv.
Qed.

Lemma animationFrame_invariant (M : R) (w : World) (i : nat) (s : State) :
  worldOk M w -> invariant M s -> invariant M (animationFrame w i s).
Proof.
  intros Hw Hinv. unfold animationFrame.
  destruct (nth_error (frames s) i) as [a |] eqn:Hnth; [| exact Hinv].
  assert (Hframes : Forall animationOk (frames s)).
  { destruct Hinv as [Hst _]. unfold steady in Hst.
    destruct Hst as (_ & _ & _ & _ & _ & _ & _ & _ & _ & _ & _ & _ & Hframes & _).
    exact Hframes. }
  apply animate_invariant; [exact Hw | |].
  - pose proof (Forall_remove_nth animationOk (frames s) i Hframes) as Hrest.
    destruct Hinv as [Hst Hwb]. explode s. open_invariant Hst Hwb.
    subst. fin_vars. simpl in Hrest. close_invariant.
  - rewrite Forall_forall in Hframes. apply Hframes. eapply nth_error_In; eauto.
Qed.

Lemma step_invariant (M : R) (w : World) (op : Op) (s : State) :
  worldOk M w -> opOk M op -> invariant M s -> invariant M (step w op s).
Proof.
  intros Hw Hop Hinv. destruct op; simpl in Hop |- *.
  - destruct Hop as [Hev1 Hev2]. unfold onMouseDown. steady_by_computation s Hinv.
  - destruct Hop. apply onMouseMove_invariant; assumption.
  - unfold onMouseUp. steady_by_computation s Hinv.
  - apply onWheel_invariant; assumption.
  - apply onKeyDown_invariant; assumption.
  - apply update_invariant; [exact Hw | apply Hinv].
  - apply resetCamera_invariant; assumption.
  - apply setTarget_invariant; assumption.
  - apply setCurrentMeteor_invariant; assumption.
  - unfold setMeteorsList. cbv zeta. destruct (_ <? _)%nat; steady_by_computation s Hinv.
  - apply lockOntoMeteorIfExists_invariant; assumption.
  - apply lockOntoSunWithTransition_invariant; assumption.
  - apply lockOntoEarthWithTransition_invariant; assumption.
  - apply lockOntoMeteor_invariant; assumption.
  - apply lockOntoMeteorByIndex_invariant; assumption.
  - apply unlockTarget_invariant; assumption.
  - destruct Hop. apply setZoomLimits_invariant; assumption.
  - unfold setAutoRotate. steady_by_computation s Hinv.
  - apply animationFrame_invariant; assumption.
Qed.

Lemma run_invariant (M : R) (ops : list (World * Op)) (s : State) :
  Forall (fun wo => worldOk M (fst wo) /\ opOk M (snd wo)) ops ->
  invariant M s -> invariant M (run ops s).
Proof.
  revert s. induction ops as [| [w op] rest IH]; intros s Hops Hinv; simpl.
  - exact Hinv.
  - inversion Hops as [| wo l [Hw Hop] Hrest]; subst. simpl in Hw, Hop.
    apply IH; [exact Hrest |]. apply step_invariant; assumption.
Qed.

(** The constructor puts the controller in working order. *)
Lemma constructor_invariant (M : R) (w : World) (cam : Camera) (tgt : Vector3)
    (minD : num) (clk : nat -> num) :
  worldOk M w -> 37.5 <= M -> CameraProps.le minD (Fin M) ->
  finiteVector (position cam) -> finiteVector tgt ->
  (forall n, finite (clk n)) ->
  invariant M (constructor w cam tgt minD (Fin M) clk).
Proof.
  intros Hw HM Hmin Hcam Htgt Hclk. unfold constructor.
  apply update_invariant; [exact Hw |].
  assert (Hvec : finiteVector (sub (position cam) tgt)).
  { destruct cam as [[cx cy cz] la]. destruct tgt as [tx ty tz].
    destruct Hcam as (H1 & H2 & H3). destruct Htgt as (H4 & H5 & H6).
    simpl in *. fin_vars. repeat split. }
  destruct (setFromVector3_finite _ Hvec) as (r & p & t & Hsph).
  rewrite Hsph.
  destruct cam as [[cx cy cz] la]. destruct tgt as [tx ty tz].
  destruct Hcam as (H1 & H2 & H3). destruct Htgt as (H4 & H5 & H6).
  simpl in *. fin_vars.
  unfold steady, finiteVector, finite, CameraProps.le; simpl.
  rewrite ?max_Fin. simpl.
  repeat split; auto. intros E. contradiction.
Qed.

End CameraBounds.

(** * The bounds of the camera, whatever the maximum distance *)

(** The lemmas of [CameraBounds] once more, for a maximum distance that
    is not assumed to leave room for the sun: the world tells how much
    room its objects need ([worldRoom]), and [setZoomLimits] may move the
    maximum. *)

Module CameraRoom.
Import JsNum ThreeMath CameraController CameraProps NumFacts CameraFacts
       CameraBounds.

Local Arguments update : simpl never.
Local Arguments updateMinDistanceForTarget : simpl never.
Local Arguments setFromVector3 : simpl never.
Local Arguments complete : simpl never.

Lemma targetRadius_ok_for (M : R) (w : World) (s : State) (locked : BodyId) :
  worldRoom M w ->
  exists q : R, targetRadius w s locked = Fin q /\ q * 2.5 <= M.
Proof.
  intros Hw. unfold targetRadius.
  assert (Hbody : forall b r, bodyRadius (w b) = Some r ->
                    exists q, r = Fin q /\ q * 2.5 <= M).
  { intros b r Hr. destruct (Hw b) as [_ Hb]. rewrite Hr in Hb.
    destruct r as [q | | |]; simpl in Hb; try contradiction;
      try (unfold infinityTimes in Hb; destruct (Rlt_dec 0 2.5); [| lra];
           simpl in Hb; contradiction).
    exists q. split; [reflexivity | exact Hb]. }
  destruct (bodyRadius (w locked)) as [r |] eqn:Hr.
  - eapply Hbody; eauto.
  - assert (HM : 37.5 <= M).
    { destruct (Hw locked) as [_ Hb]. rewrite Hr in Hb. exact Hb. }
    destruct (_ && _); [exists 15; split; [reflexivity | lra] |].
    destruct (_ && _); [exists 1; split; [reflexivity | lra] |].
    destruct (lockMode s); try (exists 1; split; [reflexivity | lra]).
    destruct (currentMeteor s) as [m |]; [| exists 1; split; [reflexivity | lra]].
    destruct (bodyRadius (w m)) as [r |] eqn:Hm;
      [| exists 0.2; split; [reflexivity | lra]].
    destruct (truthy r); [| exists 0.2; split; [reflexivity | lra]].
    eapply Hbody; eauto.
Qed.

Lemma updateMinDistanceForTarget_invariant_for (M : R) (w : World) (s : State) :
  worldRoom M w -> invariantFor M s -> invariantFor M (updateMinDistanceForTarget w s).
Proof.
  intros Hw [Hst Hwb].
  unfold updateMinDistanceForTarget.
  destruct (lockedTarget s) as [locked |] eqn:HlT; [| split; assumption].
  destruct (targetRadius_ok_for M w s locked Hw) as [q [Hq Hq25]].
  rewrite Hq. clear Hq.
  explode s.
  unfold steadyFor, withinBounds, finiteVector in *. simpl in *.
  destruct Hst as (HM & Hmn & Hr & Hp & Ht & Hc & HlX & HlY & (Htx & Hty & Htz)
                   & (Hcx & Hcy & Hcz) & HK & Hfr & Hclk).
  destruct Hwb as (B1 & B2 & B3 & B4).
  subst mxD lT. fin_vars.
  assert (HK' := HK ltac:(discriminate)). clear HK.
  rewrite min_Fin in HK'. simpl in HK'.
  unfold CameraProps.le in *.
  unfold gt. simpl.
  case_if; simpl; [case_if; simpl |];
    unfold invariantFor, steadyFor, withinBounds, finiteVector, finite; simpl;
    rewrite ?min_Fin; simpl; repeat split; auto; try lra.
  all: try intros _; unfold Rmin in *; repeat destruct (Rle_dec _ _); lra.
Qed.

Ltac open_invariant_for Hst Hwb :=
  unfold steadyFor, withinBounds, finiteVector in Hst, Hwb; simpl in Hst, Hwb;
  destruct Hst as (HM & Hmn & Hr & Hp & Ht & Hc & HlX & HlY &
                   (Htx & Hty & Htz) & (Hcx & Hcy & Hcz) & HK & Hfr & Hclk);
  destruct Hwb as (B1 & B2 & B3 & B4).

Ltac open_steady_for Hst :=
  unfold steadyFor, finiteVector in Hst; simpl in Hst;
  destruct Hst as (HM & Hmn & Hr & Hp & Ht & Hc & HlX & HlY &
                   (Htx & Hty & Htz) & (Hcx & Hcy & Hcz) & HK & Hfr & Hclk).

Ltac close_invariant_for :=
  unfold invariantFor, steadyFor, withinBounds, finiteVector, finite, CameraProps.le in *;
  simpl in *; rewrite ?min_Fin, ?max_Fin in *; simpl in *;
  repeat split; auto; try lra;
  try (let Hl := fresh "Hl" in
       intro Hl;
       repeat match goal with
       | HK : _ <> None -> _ |- _ => specialize (HK Hl)
       end);
  unfold Rmin, Rmax in *; repeat destruct (Rle_dec _ _); try lra.

Lemma followLockedTarget_invariant_for (M : R) (w : World) (s : State) :
  worldRoom M w -> invariantFor M s -> invariantFor M (followLockedTarget w s).
Proof.
  intros Hw Hinv. unfold followLockedTarget.
  destruct (lockedTarget s) as [locked |] eqn:HlT; [| exact Hinv].
  destruct (negb (isTransitioning s)); [| exact Hinv].
  apply updateMinDistanceForTarget_invariant_for; [exact Hw |].
  destruct (Hw locked) as [(Hx & Hy & Hz) _].
  destruct Hinv as [Hst Hwb]. explode s. open_invariant_for Hst Hwb.
  destruct (getPosition (w locked)) as [gx gy gz]. simpl in Hx, Hy, Hz.
  subst mxD. fin_vars. close_invariant_for.
Qed.

Lemma autoRotateStep_invariant_for (M : R) (s : State) :
  invariantFor M s -> invariantFor M (autoRotateStep s).
Proof.
  intros [Hst Hwb]. unfold autoRotateStep.
  destruct (autoRotate s); [| split; assumption].
  explode s. open_invariant_for Hst Hwb. subst mxD. fin_vars. close_invariant_for.
Qed.

Lemma placeCamera_invariant_for (M : R) (s : State) :
  invariantFor M s -> invariantFor M (placeCamera s).
Proof.
  intros [Hst Hwb]. unfold placeCamera.
  explode s. open_invariant_for Hst Hwb. subst mxD. fin_vars. close_invariant_for.
Qed.


(** [update] puts a controller in working order within its bounds. *)
Lemma update_invariant_for (M : R) (w : World) (s : State) :
  worldRoom M w -> steadyFor M s -> invariantFor M (update w s).
Proof.
  intros Hw Hst. unfold update.
  assert (Hvalid :
    isNaN (radius (spherical s)) || isNaN (phi (spherical s)) ||
    isNaN (theta (spherical s)) || negb (isFinite (radius (spherical s))) ||
    negb (isFinite (phi (spherical s))) ||
    negb (isFinite (theta (spherical s))) = false).
  { explode s. open_steady_for Hst. fin_vars. reflexivity. }
  rewrite Hvalid. cbv zeta.
  match goal with
  | |- context [if ?c then _ else _] =>
      assert (Htarget : c = false)
        by (explode s; open_steady_for Hst; fin_vars; reflexivity);
      rewrite Htarget
  end.
  apply placeCamera_invariant_for, autoRotateStep_invariant_for,
        followLockedTarget_invariant_for; [exact Hw |].
  pose proof PI_room.
  explode s. open_steady_for Hst. subst mxD. fin_vars.
  simpl. rewrite !min_Fin, !max_Fin.
  close_invariant_for.
Qed.

Lemma update_synced_unlocked_for (M : R) (w : World) (s : State) :
  lockedTarget s = None -> steadyFor M s -> synced s -> synced (update w s).
Proof.
  intros HlT Hst Hsync. unfold update.
  assert (Hvalid :
    isNaN (radius (spherical s)) || isNaN (phi (spherical s)) ||
    isNaN (theta (spherical s)) || negb (isFinite (radius (spherical s))) ||
    negb (isFinite (phi (spherical s))) ||
    negb (isFinite (theta (spherical s))) = false).
  { explode s. open_steady_for Hst. fin_vars. reflexivity. }
  rewrite Hvalid. cbv zeta.
  match goal with
  | |- context [if ?c then _ else _] =>
      assert (Htarget : c = false)
        by (explode s; open_steady_for Hst; fin_vars; reflexivity);
      rewrite Htarget
  end.
  unfold followLockedTarget, autoRotateStep, placeCamera, synced in *.
  explode s. open_steady_for Hst. simpl in HlT. subst mxD lT. fin_vars.
  simpl in *. destruct aR; simpl; rewrite ?min_Fin, ?max_Fin in *; simpl in *;
    unfold Rmin, Rmax in *; repeat destruct (Rle_dec _ _); lra.
Qed.



Lemma complete_invariant_for (M : R) (w : World) (c : Completion) (s : State) :
  worldRoom M w -> invariantFor M s -> synced s ->
  invariantFor M (complete w c s).
Proof.
  intros Hw [Hst Hwb] Hsync. unfold complete, synced in *.
  assert (Hlock : forall (l : option BodyId) (m : LockMode),
            invariantFor M (set_lockMode m (set_lockedTarget l s))).
  { intros l m. explode s. open_invariant_for Hst Hwb. subst mxD. fin_vars.
    simpl in Hsync. rewrite min_Fin in Hsync. close_invariant_for. }
  destruct c; cbv zeta;
    match goal with
    | |- invariantFor M (emit _ (updateMinDistanceForTarget w ?s1)) =>
        pose proof (updateMinDistanceForTarget_invariant_for M w s1 Hw (Hlock _ _)) as Hu;
        generalize dependent (updateMinDistanceForTarget w s1); intros s2 Hu
    end;
    destruct Hu as [Hst2 Hwb2]; explode s2; open_invariant_for Hst2 Hwb2;
    subst; fin_vars; close_invariant_for.
Qed.



Lemma interpolate_steady_for (M : R) (w : World) (a : Animation) (e : R) (s : State) :
  worldRoom M w -> invariantFor M s -> animationOk a ->
  steadyFor M (interpolate w a (Fin e) s) /\ synced (interpolate w a (Fin e) s).
Proof.
  intros Hw [Hst Hwb] Ha. unfold interpolate.
  destruct (Hw (targetObject a)) as [Hpos _].
  assert (Hvec : finiteVector (sub (position (camera s))
                                   (getPosition (w (targetObject a))))).
  { destruct (getPosition (w (targetObject a))) as [gx gy gz].
    destruct Hpos as (Hgx & Hgy & Hgz). simpl in Hgx, Hgy, Hgz.
    explode s. open_steady_for Hst. fin_vars. repeat split. }
  destruct (setFromVector3_finite _ Hvec) as (r' & p' & t' & Hsph).
  rewrite Hsph. clear Hsph Hvec.
  destruct (getPosition (w (targetObject a))) as [gx gy gz].
  destruct Hpos as (Hgx & Hgy & Hgz). simpl in Hgx, Hgy, Hgz.
  destruct a as [obj dist c dur [sx sy sz] sth sph srad st0].
  unfold animationOk, finiteVector in Ha.
  cbn [duration startTime targetDistance startTarget startTheta startPhi
       startRadius x y z] in Ha.
  destruct Ha as (Hdist & Hdur & (Hsx & Hsy & Hsz) & Hsth & Hsph & Hsrad & Hst0).
  explode s. open_invariant_for Hst Hwb. subst mxD. fin_vars.
  unfold synced. simpl. rewrite ?min_Fin.
  unfold steadyFor, finiteVector, finite, CameraProps.le, CameraProps.lt; simpl.
  rewrite ?min_Fin. simpl.
  repeat split; auto; try lra; try apply Rmin_r.
  intros _. apply Rmin_r.
Qed.

Lemma animate_invariant_for (M : R) (w : World) (a : Animation) (s : State) :
  worldRoom M w -> invariantFor M s -> animationOk a ->
  invariantFor M (animate w a s).
Proof.
  intros Hw Hinv Ha. unfold animate, dateNow.
  assert (Hnow : exists n, clock s (clockReads s) = Fin n).
  { destruct Hinv as [Hst _]. unfold steadyFor in Hst.
    destruct Hst as (_ & _ & _ & _ & _ & _ & _ & _ & _ & _ & _ & _ & Hclk).
    specialize (Hclk (clockReads s)). unfold finite in Hclk.
    destruct (clock s (clockReads s)); try discriminate Hclk. eauto. }
  destruct Hnow as [n Hn]. rewrite Hn. cbv zeta.
  destruct (progressAt_finite a n Ha) as (p & Hprog & Hprog1). rewrite Hprog.
  destruct (ease_finite p) as [e He]. rewrite He.
  set (s0 := set_clockReads (S (clockReads s)) s).
  assert (Hinv0 : invariantFor M s0).
  { destruct Hinv as [Hst Hwb]. unfold s0. explode s. open_invariant_for Hst Hwb.
    subst mxD. fin_vars. close_invariant_for. }
  destruct (interpolate_steady_for M w a e s0 Hw Hinv0 Ha) as [Hst5 Hsync5].
  set (s5 := interpolate w a (Fin e) s0) in *.
  pose proof (update_invariant_for M w s5 Hw Hst5) as Hinv6.
  assert (Hsync6 : synced (update w s5)).
  { destruct (lockedTarget s5) as [l |] eqn:HlT.
    - destruct Hinv6 as [Hst6 _]. unfold steadyFor in Hst6.
      destruct Hst6 as (_ & _ & _ & _ & _ & _ & _ & _ & _ & _ & HK & _).
      apply HK. destruct (update_sameControl w s5) as (E & _). rewrite E, HlT.
      discriminate.
    - eapply update_synced_unlocked_for; eauto. }
  generalize dependent (update w s5). intros s6 Hinv6 Hsync6.
  destruct (JsNum.lt (Fin p) (Fin 1)).
  - destruct Hinv6 as [Hst6 Hwb6]. explode s6. open_invariant_for Hst6 Hwb6.
    subst mxD. fin_vars.
    unfold invariantFor, steadyFor, withinBounds, finiteVector, finite, CameraProps.le;
      simpl.
    repeat split; auto.
    apply Forall_app. split; [exact Hfr | constructor; [exact Ha | constructor]].
  - apply complete_invariant_for; [exact Hw | |].
    + destruct Hinv6 as [Hst6 Hwb6]. explode s6. open_invariant_for Hst6 Hwb6.
      subst mxD. fin_vars. close_invariant_for.
    + unfold synced in *. explode s6. exact Hsync6.
Qed.


Ltac steady_by_computation_for s Hinv :=
  let Hst := fresh "Hst" in
  let Hwb := fresh "Hwb" in
  destruct Hinv as [Hst Hwb]; explode s; open_invariant_for Hst Hwb;
  subst; fin_vars; simpl;
  rewrite ?sqrt_Fin by apply sum_of_squares_nonneg;
  repeat case_if; simpl;
  rewrite ?div_Fin by lra; simpl;
  close_invariant_for.

Lemma transitionToTarget_invariant_for (M : R) (w : World) (obj : BodyId)
    (dist : num) (c : Completion) (dur : num) (s : State) :
  worldRoom M w -> invariantFor M s -> finite dist -> CameraProps.lt (Fin 0) dur ->
  invariantFor M (transitionToTarget w obj dist c dur s).
Proof.
  intros Hw Hinv Hdist Hdur. unfold transitionToTarget, dateNow. cbv zeta.
  apply animate_invariant_for; [exact Hw | |].
  - steady_by_computation_for s Hinv.
  - unfold animationOk, finiteVector. simpl.
    destruct Hinv as [Hst Hwb]. explode s. open_invariant_for Hst Hwb.
    subst. fin_vars. simpl. unfold finite in *. simpl.
    repeat split; auto.
Qed.

Lemma lockOntoSunWithTransition_invariant_for (M : R) (w : World) (d : num) (s : State) :
  worldRoom M w -> invariantFor M s -> CameraProps.lt (Fin 0) d ->
  invariantFor M (lockOntoSunWithTransition w d s).
Proof.
  intros Hw Hinv Hd. unfold lockOntoSunWithTransition.
  destruct (sunInstance s); [| exact Hinv].
  destruct (LockMode_eqb _ _); [exact Hinv |]. cbv zeta.
  apply transitionToTarget_invariant_for; [exact Hw | | reflexivity | exact Hd].
  steady_by_computation_for s Hinv.
Qed.

Lemma lockOntoEarthWithTransition_invariant_for (M : R) (w : World) (d : num) (s : State) :
  worldRoom M w -> invariantFor M s -> CameraProps.lt (Fin 0) d ->
  invariantFor M (lockOntoEarthWithTransition w d s).
Proof.
  intros Hw Hinv Hd. unfold lockOntoEarthWithTransition.
  destruct (earthInstance s); [| exact Hinv].
  destruct (LockMode_eqb _ _); [exact Hinv |]. cbv zeta.
  apply transitionToTarget_invariant_for; [exact Hw | | reflexivity | exact Hd].
  steady_by_computation_for s Hinv.
Qed.

Lemma lockOntoMeteor_invariant_for (M : R) (w : World) (m : option BodyId) (d : num)
    (s : State) :
  worldRoom M w -> invariantFor M s -> CameraProps.lt (Fin 0) d ->
  invariantFor M (lockOntoMeteor w m d s).
Proof.
  intros Hw Hinv Hd. unfold lockOntoMeteor.
  destruct m as [m |]; [| exact Hinv].
  destruct (_ && _); [exact Hinv |].
  assert (Hgoal : finite (match bodyRadius (w m) with
                          | Some r => if truthy r then r else Fin 0.2
                          | None => Fin 0.2
                          end * Fin 4)%num).
  { destruct (Hw m) as [_ Hrad].
    destruct (bodyRadius (w m)) as [r |]; [| reflexivity].
    destruct (truthy r); [| reflexivity].
    destruct r; simpl in Hrad; try contradiction; try reflexivity;
      unfold infinityTimes in Hrad; destruct (Rlt_dec 0 2.5); try lra;
      simpl in Hrad; contradiction. }
  destruct (instantiateMesh (w m)); cbv zeta;
    try (apply transitionToTarget_invariant_for;
         [exact Hw | steady_by_computation_for s Hinv | exact Hgoal | exact Hd]).
  steady_by_computation_for s Hinv.
Qed.

Lemma setCurrentMeteor_invariant_for (M : R) (m : option BodyId) (s : State) :
  invariantFor M s -> invariantFor M (setCurrentMeteor m s).
Proof.
  intros Hinv. unfold setCurrentMeteor. cbv zeta.
  destruct (_ =? -1)%Z; steady_by_computation_for s Hinv.
Qed.

Lemma lockOntoMeteorByIndex_invariant_for (M : R) (w : World) (i : Z) (d : num)
    (s : State) :
  worldRoom M w -> invariantFor M s -> CameraProps.lt (Fin 0) d ->
  invariantFor M (lockOntoMeteorByIndex w i d s).
Proof.
  intros Hw Hinv Hd. unfold lockOntoMeteorByIndex.
  destruct (_ =? 0)%nat; [exact Hinv |].
  destruct (_ || _); [exact Hinv |]. cbv zeta.
  apply lockOntoMeteor_invariant_for; [exact Hw | | exact Hd].
  apply setCurrentMeteor_invariant_for.
  steady_by_computation_for s Hinv.
Qed.

Lemma lockOntoMeteorIfExists_invariant_for (M : R) (w : World) (s : State) :
  worldRoom M w -> invariantFor M s -> invariantFor M (lockOntoMeteorIfExists w s).
Proof.
  intros Hw Hinv. unfold lockOntoMeteorIfExists.
  destruct (currentMeteor s).
  - apply lockOntoMeteor_invariant_for; [exact Hw | exact Hinv | simpl; lra].
  - steady_by_computation_for s Hinv.
Qed.

Lemma unlockTarget_invariant_for (M : R) (s : State) :
  invariantFor M s -> invariantFor M (unlockTarget s).
Proof.
  intros Hinv. unfold unlockTarget. cbv zeta.
  destruct (lockedTarget s) eqn:HlT; [destruct (lockMode s) |];
    steady_by_computation_for s Hinv.
Qed.


Ltac update_by_computation_for s Hw Hinv :=
  apply update_invariant_for; [exact Hw |];
  let Hst := fresh "Hst" in
  let Hwb := fresh "Hwb" in
  destruct Hinv as [Hst Hwb]; explode s; open_invariant_for Hst Hwb;
  subst; fin_vars; simpl;
  rewrite ?sqrt_Fin by apply sum_of_squares_nonneg;
  repeat case_if; simpl;
  rewrite ?div_Fin by lra; rewrite ?min_Fin, ?max_Fin; simpl;
  unfold steadyFor, finiteVector, finite, CameraProps.le in *; simpl in *;
  rewrite ?min_Fin, ?max_Fin in *; simpl in *;
  repeat split; auto; try lra;
  try (let Hl := fresh "Hl" in
       intro Hl;
       repeat match goal with
       | HK : _ <> None -> _ |- _ => specialize (HK Hl)
       end);
  unfold Rmin, Rmax in *; repeat destruct (Rle_dec _ _); try lra.

Lemma onMouseMove_invariant_for (M : R) (w : World) (cx cy : num) (s : State) :
  worldRoom M w -> invariantFor M s -> finite cx -> finite cy ->
  invariantFor M (onMouseMove w cx cy s).
Proof.
  intros Hw Hinv Hev1 Hev2. unfold onMouseMove.
  destruct (negb (isMouseDown s)); [exact Hinv |]. cbv zeta.
  update_by_computation_for s Hw Hinv.
Qed.

Lemma onWheel_invariant_for (M : R) (w : World) (dy : num) (s : State) :
  worldRoom M w -> invariantFor M s -> finite dy -> invariantFor M (onWheel w dy s).
Proof.
  intros Hw Hinv Hdy. unfold onWheel. cbv zeta.
  destruct (lockedTarget s) eqn:HlT;
    (apply update_invariant_for; [exact Hw |]);
    destruct Hinv as [Hst Hwb]; explode s; open_invariant_for Hst Hwb;
    simpl in HlT; subst; fin_vars; simpl;
    rewrite ?sqrt_Fin by apply sum_of_squares_nonneg;
    repeat case_if; simpl;
    rewrite ?min_Fin, ?max_Fin; simpl;
    unfold steadyFor, finiteVector, finite, CameraProps.le in *; simpl in *;
    rewrite ?min_Fin, ?max_Fin in *; simpl in *;
    repeat split; auto; try lra;
    try (intros _); apply Rmin_r.
Qed.

Lemma resetCamera_invariant_for (M : R) (w : World) (s : State) :
  worldRoom M w -> invariantFor M s -> invariantFor M (resetCamera w s).
Proof.
  intros Hw Hinv. unfold resetCamera. cbv zeta.
  apply update_invariant_for; [exact Hw |].
  destruct Hinv as [Hst Hwb]. explode s. open_invariant_for Hst Hwb.
  subst. fin_vars. simpl. unfold JsNum.PI. rewrite div_Fin by lra.
  unfold steadyFor, finiteVector, finite, CameraProps.le in *; simpl in *.
  rewrite ?min_Fin. simpl.
  repeat split; auto; try lra. intros _. apply Rmin_r.
Qed.

Lemma setTarget_invariant_for (M : R) (w : World) (v : Vector3) (s : State) :
  worldRoom M w -> invariantFor M s -> finiteVector v -> invariantFor M (setTarget w v s).
Proof.
  intros Hw Hinv (Hvx & Hvy & Hvz). unfold setTarget.
  destruct v as [vx vy vz]. simpl in Hvx, Hvy, Hvz.
  update_by_computation_for s Hw Hinv.
Qed.

Lemma setZoomLimits_invariant_for (M : R) (w : World) (mn mx : num) (s : State) :
  worldRoom M w -> invariantFor M s -> mx = Fin M -> CameraProps.le mn (Fin M) ->
  invariantFor M (setZoomLimits w mn mx s).
Proof.
  intros Hw Hinv Hmx Hmn'. unfold setZoomLimits. cbv zeta. subst mx.
  apply update_invariant_for; [exact Hw |].
  destruct Hinv as [Hst Hwb]. explode s. open_invariant_for Hst Hwb.
  subst. fin_vars. simpl. rewrite ?min_Fin, ?max_Fin. simpl.
  unfold steadyFor, finiteVector, finite, CameraProps.le in *; simpl in *.
  rewrite ?min_Fin. simpl.
  repeat split; auto; try lra. intros _. apply Rmin_r.
Qed.

Lemma onKeyDown_invariant_for (M : R) (w : World) (code : Key) (s : State) :
  worldRoom M w -> invariantFor M s -> invariantFor M (onKeyDown w code s).
Proof.
  intros Hw Hinv. unfold onKeyDown.
  destruct (isTransitioning s); [exact Hinv |].
  destruct code.
  - apply resetCamera_invariant_for; assumption.
  - steady_by_computation_for s Hinv.
  - apply lockOntoSunWithTransition_invariant_for; [assumption | assumption | simpl; lra].
  - apply lockOntoEarthWithTransition_invariant_for; [assumption | assumption | simpl; lra].
  - apply lockOntoMeteorIfExists_invariant_for; assumption.
  - destruct (meteorsList s) as [| firstMeteor rest] eqn:Hl.
    + steady_by_computation_for s Hinv.
    + cbv zeta.
      pose proof (lockOntoMeteor_invariant_for M w (Some firstMeteor) (Fin 1500)
                    (setCurrentMeteor (Some firstMeteor) s) Hw
                    (setCurrentMeteor_invariant_for M _ s Hinv)) as Hlock.
      assert (Hd : CameraProps.lt (Fin 0) (Fin 1500)) by (simpl; lra).
      specialize (Hlock Hd).
      destruct (lockOntoMeteorThrows w (Some firstMeteor)
                  (setCurrentMeteor (Some firstMeteor) s)); [exact Hlock |].
      generalize dependent (lockOntoMeteor w (Some firstMeteor) (Fin 1500)
                              (setCurrentMeteor (Some firstMeteor) s)).
      intros s2 Hlock. steady_by_computation_for s2 Hlock.
  - apply unlockTarget_invariant_for. exact Hinv.
  - cbv zeta.
    destruct (lockedTarget s) eqn:HlT;
      (apply update_invariant_for; [exact Hw |]);
      destruct Hinv as [Hst Hwb]; explode s; open_invariant_for Hst Hwb;
      simpl in HlT; subst; fin_vars; simpl;
      rewrite ?sqrt_Fin by apply sum_of_squares_nonneg;
      rewrite ?min_Fin, ?max_Fin; simpl;
      repeat case_if; simpl;
      rewrite ?min_Fin, ?max_Fin; simpl;
      unfold steadyFor, finiteVector, finite, CameraProps.le in *; simpl in *;
      rewrite ?min_Fin, ?max_Fin in *; simpl in *;
      repeat split; auto; try lra;
      try (intros _); apply Rmin_r.
  - cbv zeta. apply update_invariant_for; [exact Hw |].
    destruct Hinv as [Hst Hwb]. explode s. open_invariant_for Hst Hwb.
    subst. fin_vars. simpl. rewrite ?min_Fin, ?max_Fin. simpl.
    unfold steadyFor, finiteVector, finite, CameraProps.le in *; simpl in *.
    rewrite ?min_Fin. simpl.
    repeat split; auto; try lra. intros _. apply Rmin_r.
  - destruct (_ && _); [| exact Hinv].
    apply lockOntoMeteorByIndex_invariant_for; [assumption | assumption | simpl; lra].
  - destruct (_ && _); [| exact Hinv].
    apply lockOntoMeteorByIndex_invariant_for; [assumption | assumption | simpl; lra].
  - exact Hinv.
Qed.

Lemma animationFrame_invariant_for (M : R) (w : World) (i : nat) (s : State) :
  worldRoom M w -> invariantFor M s -> invariantFor M (animationFrame w i s).
Proof.
  intros Hw Hinv. unfold animationFrame.
  destruct (nth_error (frames s) i) as [a |] eqn:Hnth; [| exact Hinv].
  assert (Hframes : Forall animationOk (frames s)).
  { destruct Hinv as [Hst _]. unfold steadyFor in Hst.
    destruct Hst as (_ & _ & _ & _ & _ & _ & _ & _ & _ & _ & _ & Hframes & _).
    exact Hframes. }
  apply animate_invariant_for; [exact Hw | |].
  - pose proof (Forall_remove_nth animationOk (frames s) i Hframes) as Hrest.
    destruct Hinv as [Hst Hwb]. explode s. open_invariant_for Hst Hwb.
    subst. fin_vars. simpl in Hrest. close_invariant_for.
  - rewrite Forall_forall in Hframes. apply Hframes. eapply nth_error_In; eauto.
Qed.

Lemma step_invariant_for (M : R) (w : World) (op : Op) (s : State) :
  worldRoom M w -> opOk M op -> invariantFor M s -> invariantFor M (step w op s).
Proof.
  intros Hw Hop Hinv. destruct op; simpl in Hop |- *.
  - destruct Hop as [Hev1 Hev2]. unfold onMouseDown. steady_by_computation_for s Hinv.
  - destruct Hop. apply onMouseMove_invariant_for; assumption.
  - unfold onMouseUp. steady_by_computation_for s Hinv.
  - apply onWheel_invariant_for; assumption.
  - apply onKeyDown_invariant_for; assumption.
  - apply update_invariant_for; [exact Hw | apply Hinv].
  - apply resetCamera_invariant_for; assumption.
  - apply setTarget_invariant_for; assumption.
  - apply setCurrentMeteor_invariant_for; assumption.
  - unfold setMeteorsList. cbv zeta. destruct (_ <? _)%nat; steady_by_computation_for s Hinv.
  - apply lockOntoMeteorIfExists_invariant_for; assumption.
  - apply lockOntoSunWithTransition_invariant_for; assumption.
  - apply lockOntoEarthWithTransition_invariant_for; assumption.
  - apply lockOntoMeteor_invariant_for; assumption.
  - apply lockOntoMeteorByIndex_invariant_for; assumption.
  - apply unlockTarget_invariant_for; assumption.
  - destruct Hop. apply setZoomLimits_invariant_for; assumption.
  - unfold setAutoRotate. steady_by_computation_for s Hinv.
  - apply animationFrame_invariant_for; assumption.
Qed.

Lemma run_invariant_for (M : R) (ops : list (World * Op)) (s : State) :
  Forall (fun wo => worldRoom M (fst wo) /\ opOk M (snd wo)) ops ->
  invariantFor M s -> invariantFor M (run ops s).
Proof.
  revert s. induction ops as [| [w op] rest IH]; intros s Hops Hinv; simpl.
  - exact Hinv.
  - inversion Hops as [| wo l [Hw Hop] Hrest]; subst. simpl in Hw, Hop.
    apply IH; [exact Hrest |]. apply step_invariant_for; assumption.
Qed.

(** The constructor puts the controller in working order. *)
Lemma constructor_invariant_for (M : R) (w : World) (cam : Camera) (tgt : Vector3)
    (minD : num) (clk : nat -> num) :
  worldRoom M w -> CameraProps.le minD (Fin M) ->
  finiteVector (position cam) -> finiteVector tgt ->
  (forall n, finite (clk n)) ->
  invariantFor M (constructor w cam tgt minD (Fin M) clk).
Proof.
  intros Hw Hmin Hcam Htgt Hclk. unfold constructor.
  apply update_invariant_for; [exact Hw |].
  assert (Hvec : finiteVector (sub (position cam) tgt)).
  { destruct cam as [[cx cy cz] la]. destruct tgt as [tx ty tz].
    destruct Hcam as (H1 & H2 & H3). destruct Htgt as (H4 & H5 & H6).
    simpl in *. fin_vars. repeat split. }
  destruct (setFromVector3_finite _ Hvec) as (r & p & t & Hsph).
  rewrite Hsph.
  destruct cam as [[cx cy cz] la]. destruct tgt as [tx ty tz].
  destruct Hcam as (H1 & H2 & H3). destruct Htgt as (H4 & H5 & H6).
  simpl in *. fin_vars.
  unfold steadyFor, finiteVector, finite, CameraProps.le; simpl.
  rewrite ?max_Fin. simpl.
  repeat split; auto. intros E. contradiction.
Qed.

(** ** Zoom limits that change *)

Lemma worldRoom_mono (room M : R) (w : World) :
  worldRoom room w -> room <= M -> worldRoom M w.
Proof.
  intros Hw Hle b. destruct (Hw b) as [Hpos Hrad]. split; [exact Hpos |].
  destruct (bodyRadius (w b)) as [r |]; [| lra].
  destruct (JsNum.mul r (Fin 2.5)); simpl in Hrad |- *; try contradiction. lra.
Qed.

(** [setZoomLimits] with a new maximum: the controller is in working
    order for the new maximum. *)
Lemma setZoomLimits_rescale (M M' : R) (w : World) (mn : num) (s : State) :
  worldRoom M' w -> invariantFor M s -> CameraProps.le mn (Fin M') ->
  invariantFor M' (setZoomLimits w mn (Fin M') s).
Proof.
  intros Hw Hinv Hmn'. unfold setZoomLimits. cbv zeta.
  apply update_invariant_for; [exact Hw |].
  destruct Hinv as [Hst Hwb]. explode s. open_invariant_for Hst Hwb.
  subst. fin_vars. simpl. rewrite ?min_Fin, ?max_Fin. simpl.
  unfold steadyFor, finiteVector, finite, CameraProps.le in *; simpl in *.
  rewrite ?min_Fin. simpl.
  repeat split; auto; try lra. intros _. apply Rmin_r.
Qed.

Lemma opWithin_opOk (room M : R) (op : Op) :
  opWithin room op ->
  match op with SetZoomLimits _ _ => True | _ => opOk M op end.
Proof. destruct op; simpl; auto. Qed.

(** A step keeps the controller in working order for the maximum
    distance in force, which stays at or above [room]. *)
Lemma step_within (room : R) (w : World) (op : Op) (s : State) :
  worldRoom room w -> opWithin room op ->
  (exists M : R, room <= M /\ invariantFor M s) ->
  exists M : R, room <= M /\ invariantFor M (step w op s).
Proof.
  intros Hw Hop (M & HM & Hinv).
  assert (HwM : worldRoom M w) by (apply (worldRoom_mono room); assumption).
  destruct op;
    try (exists M; split; [exact HM |];
         apply step_invariant_for; [exact HwM | exact Hop | exact Hinv]).
  destruct Hop as (M' & -> & HM' & Hmn). exists M'. split; [exact HM' |].
  simpl. apply (setZoomLimits_rescale M M'); try assumption.
  apply (worldRoom_mono room); assumption.
Qed.

Lemma run_within (room : R) (ops : list (World * Op)) (s : State) :
  Forall (fun wo => worldRoom room (fst wo) /\ opWithin room (snd wo)) ops ->
  (exists M : R, room <= M /\ invariantFor M s) ->
  exists M : R, room <= M /\ invariantFor M (run ops s).
Proof.
  revert s.
  induction ops as [| [w op] rest IH]; intros s Hops Hinv; simpl.
  - exact Hinv.
  - inversion Hops as [| wo l [Hw Hop] Hrest]; subst. simpl in Hw, Hop.
    apply IH; [exact Hrest |]. apply step_within; assumption.
Qed.

End CameraRoom.

(** * Properties of the camera controller *)

Module CameraSpec.
Import JsNum ThreeMath CameraController CameraProps NumFacts CameraFacts
       CameraBounds CameraRoom Scenes.

Local Arguments update : simpl never.
Local Arguments updateMinDistanceForTarget : simpl never.
Local Arguments setFromVector3 : simpl never.
Local Arguments complete : simpl never.

(** In every state reachable from the constructor through the
    operations of the controller, [lockedTarget] is null exactly when
    [lockMode] is ['none'], both are cleared while [isTransitioning] is
    set, and [getLockStatus] reports [isLocked] in agreement with its
    mode. *)
Lemma lock_fields_agree (s : State) :
  reachable s ->
  (lockedTarget s = None <-> lockMode s = none) /\
  (isTransitioning s = true ->
   lockedTarget s = None /\ lockMode s = none /\
   isLocked (getLockStatus s) = false) /\
  isLocked (getLockStatus s) = negb (LockMode_eqb (mode (getLockStatus s)) none).
Proof.
  intros Hr. destruct (reachable_lockInvariant s Hr) as [[Hiff Htr] _].
  unfold getLockStatus; simpl. repeat split.
  - apply Hiff.
  - apply Hiff.
  - apply Htr; assumption.
  - apply Htr; assumption.
  - destruct (Htr H) as [E _]. rewrite E. reflexivity.
  - destruct (lockedTarget s) as [b |] eqn:HlT; simpl.
    + destruct (lockMode s) eqn:HlM; try reflexivity.
      destruct Hiff as [_ Hback]. discriminate (Hback eq_refl).
    + destruct Hiff as [Hforth _]. rewrite (Hforth eq_refl). reflexivity.
Qed.

(** How [update] acts when its two checks pass. *)
Lemma update_valid (w : World) (s : State) :
  finite (radius (spherical s)) -> finite (phi (spherical s)) ->
  finite (theta (spherical s)) ->
  isNaN (x (target s)) || isNaN (y (target s)) || isNaN (z (target s)) = false ->
  update w s =
  placeCamera (autoRotateStep (followLockedTarget w
    (set_radius (JsNum.max (minDistance s)
                   (JsNum.min (maxDistance s) (radius (spherical s))))
       (set_phi (JsNum.max (Fin 0.01)
                   (JsNum.min (JsNum.sub PI (Fin 0.01)) (phi (spherical s)))) s)))).
Proof.
  unfold finite. intros Hr Hp Ht Htgt. unfold update.
  destruct (radius (spherical s)) eqn:Er; try discriminate Hr.
  destruct (phi (spherical s)) eqn:Ep; try discriminate Hp.
  destruct (theta (spherical s)) eqn:Et; try discriminate Ht.
  simpl. simpl in Htgt. rewrite Htgt, ?Er, ?Ep, ?Et. reflexivity.
Qed.

Lemma phi_followLockedTarget (w : World) (s : State) :
  phi (spherical (followLockedTarget w s)) = phi (spherical s).
Proof.
  unfold followLockedTarget, updateMinDistanceForTarget.
  repeat break_match; reflexivity.
Qed.

Lemma phi_autoRotateStep (s : State) :
  phi (spherical (autoRotateStep s)) = phi (spherical s).
Proof. unfold autoRotateStep. destruct (autoRotate s); reflexivity. Qed.

(** After an [update] that is not skipped the polar angle is the clamped
    polar angle. *)
Lemma phi_after_update (w : World) (s : State) :
  finite (radius (spherical s)) -> finite (phi (spherical s)) ->
  finite (theta (spherical s)) ->
  isNaN (x (target s)) || isNaN (y (target s)) || isNaN (z (target s)) = false ->
  phi (spherical (update w s)) =
  JsNum.max (Fin 0.01) (JsNum.min (JsNum.sub PI (Fin 0.01)) (phi (spherical s))).
Proof.
  intros Hr Hp Ht Htgt. rewrite update_valid by assumption.
  unfold placeCamera. simpl.
  rewrite phi_autoRotateStep, phi_followLockedTarget. reflexivity.
Qed.

Lemma setFromVector3_origin :
  setFromVector3 (sub origin origin) = mkSpherical (Fin 0) (Fin 0) (Fin 0).
Proof.
  unfold setFromVector3, origin. simpl.
  replace ((0 + - 0) * (0 + - 0) + (0 + - 0) * (0 + - 0) + (0 + - 0) * (0 + - 0))
    with 0 by ring.
  rewrite sqrt_Fin by lra. rewrite sqrt_0.
  unfold eqb, Reqb. destruct (Req_dec_T 0 0); [reflexivity | contradiction].
Qed.

Lemma clamp_phi_low :
  JsNum.max (Fin 0.01) (JsNum.min (JsNum.sub PI (Fin 0.01)) (Fin 0)) = Fin 0.01.
Proof.
  simpl. rewrite min_Fin, max_Fin. f_equal.
  pose proof PI_room. unfold Rmax, Rmin. repeat destruct (Rle_dec _ _); lra.
Qed.

Lemma demoController_world : worldOk 500 demoWorld.
Proof.
  intros b. unfold demoWorld.
  destruct b as [| [| b]]; simpl; unfold finiteVector, finite; simpl;
    repeat split; lra.
Qed.

Lemma demoController_invariant (clk : nat -> num) :
  (forall n, finite (clk n)) -> invariant 500 (demoController clk).
Proof.
  intros Hclock. unfold demoController.
  pose proof (constructor_invariant 500 demoWorld newCamera origin (Fin 80) clk
                demoController_world) as Hc.
  assert (Hinv : invariant 500
            (constructor demoWorld newCamera origin (Fin 80) (Fin 500) clk)).
  { apply Hc; try exact Hclock; simpl; try lra;
      unfold finiteVector, finite; simpl; repeat split. }
  generalize dependent (constructor demoWorld newCamera origin (Fin 80) (Fin 500) clk).
  intros s _ Hinv. unfold setTargetObjects. steady_by_computation s Hinv.
Qed.

Lemma demoController_phi (clk : nat -> num) :
  phi (spherical (demoController clk)) = Fin 0.01.
Proof.
  unfold demoController, setTargetObjects, constructor. simpl.
  rewrite phi_after_update; simpl; rewrite ?setFromVector3_origin;
    try reflexivity.
  apply clamp_phi_low.
Qed.

(** Zooming with the wheel leaves the polar angle of a controller in
    working order as it is. *)
Lemma onWheel_phi (M : R) (w : World) (dy : num) (s : State) :
  invariant M s -> finite dy ->
  phi (spherical (onWheel w dy s)) = phi (spherical s).
Proof.
  intros Hinv Hdy. unfold onWheel. cbv zeta.
  rewrite phi_after_update.
  - destruct Hinv as [Hst Hwb]. explode s. open_invariant Hst Hwb.
    subst. fin_vars. simpl. rewrite min_Fin, max_Fin. f_equal.
    apply Rmax_Rmin_inside. simpl in B3, B4. lra.
  - destruct Hinv as [Hst Hwb]. explode s. open_invariant Hst Hwb.
    subst. fin_vars. simpl.
    rewrite ?sqrt_Fin by apply sum_of_squares_nonneg.
    destruct lT; repeat case_if; simpl; rewrite ?min_Fin, ?max_Fin; reflexivity.
  - destruct Hinv as [Hst Hwb]. explode s. open_invariant Hst Hwb.
    subst. fin_vars. reflexivity.
  - destruct Hinv as [Hst Hwb]. explode s. open_invariant Hst Hwb.
    subst. fin_vars. reflexivity.
  - destruct Hinv as [Hst Hwb]. explode s. open_invariant Hst Hwb.
    subst. fin_vars. reflexivity.
Qed.

Lemma run_nil (s : State) : run [] s = s.
Proof. reflexivity. Qed.

Lemma run_cons (w : World) (op : Op) (rest : list (World * Op)) (s : State) :
  run ((w, op) :: rest) s = run rest (step w op s).
Proof. reflexivity. Qed.

Lemma step_OnWheel (w : World) (dy : num) (s : State) :
  step w (OnWheel dy) s = onWheel w dy s.
Proof. reflexivity. Qed.

(** ** Exact descriptions of [update] and of one frame of a transition *)

Lemma followLockedTarget_skip (w : World) (s : State) :
  lockedTarget s = None \/ isTransitioning s = true ->
  followLockedTarget w s = s.
Proof.
  unfold followLockedTarget. intros [H | H]; rewrite H; [reflexivity |].
  destruct (lockedTarget s); reflexivity.
Qed.

Lemma update_unlocked (w : World) (s : State) :
  finite (radius (spherical s)) -> finite (phi (spherical s)) ->
  finite (theta (spherical s)) ->
  isNaN (x (target s)) || isNaN (y (target s)) || isNaN (z (target s)) = false ->
  lockedTarget s = None \/ isTransitioning s = true ->
  update w s =
  placeCamera (autoRotateStep
    (set_radius (JsNum.max (minDistance s)
                   (JsNum.min (maxDistance s) (radius (spherical s))))
       (set_phi (JsNum.max (Fin 0.01)
                   (JsNum.min (JsNum.sub PI (Fin 0.01)) (phi (spherical s)))) s))).
Proof.
  intros Hr Hp Ht Htgt Hfree. rewrite update_valid by assumption.
  rewrite followLockedTarget_skip; [reflexivity | exact Hfree].
Qed.

(** A frame before the end of the transition registers the callback
    again. *)
Lemma animate_pending (w : World) (a : Animation) (s : State) (n p : R) :
  clock s (clockReads s) = Fin n -> progressAt a (Fin n) = Fin p -> p < 1 ->
  animate w a s =
  set_frames
    (frames (update w (interpolate w a (ease (Fin p))
                         (set_clockReads (S (clockReads s)) s))) ++ [a])
    (update w (interpolate w a (ease (Fin p))
                 (set_clockReads (S (clockReads s)) s))).
Proof.
  intros Hn Hp Hlt. unfold animate, dateNow. rewrite Hn. cbv zeta.
  rewrite Hp, lt_Fin_true by exact Hlt. reflexivity.
Qed.

(** The frame at the end of the transition clears the flag and runs the
    completion callback. *)
Lemma animate_completes (w : World) (a : Animation) (s : State) (n p : R) :
  clock s (clockReads s) = Fin n -> progressAt a (Fin n) = Fin p -> 1 <= p ->
  animate w a s =
  complete w (onComplete a)
    (set_isTransitioning false
       (update w (interpolate w a (ease (Fin p))
                    (set_clockReads (S (clockReads s)) s)))).
Proof.
  intros Hn Hp Hge. unfold animate, dateNow. rewrite Hn. cbv zeta.
  rewrite Hp, lt_Fin_false by exact Hge. reflexivity.
Qed.

Lemma progressAt_value (a : Animation) (n t0 d : R) :
  startTime a = Fin t0 -> duration a = Fin d -> 0 < d ->
  progressAt a (Fin n) = Fin (Rmin ((n - t0) / d) 1).
Proof.
  intros Ht0 Hd Hpos. unfold progressAt. rewrite Ht0, Hd. cbv zeta. simpl.
  rewrite div_Fin by lra. rewrite min_Fin. reflexivity.
Qed.

Lemma ease_one : ease (Fin 1) = Fin 1.
Proof.
  unfold ease. rewrite lt_Fin_false by lra. simpl.
  rewrite div_Fin by lra. simpl. f_equal. lra.
Qed.

Lemma ease_zero : ease (Fin 0) = Fin 0.
Proof. unfold ease. rewrite lt_Fin_true by lra. simpl. f_equal. lra. Qed.


Lemma step_SetTarget (w : World) (v : Vector3) (s : State) :
  step w (SetTarget v) s = setTarget w v s.
Proof. reflexivity. Qed.

Lemma step_OnKeyDown (w : World) (code : Key) (s : State) :
  step w (OnKeyDown code) s = onKeyDown w code s.
Proof. reflexivity. Qed.

Lemma step_OnMouseDown (w : World) (cx cy : num) (s : State) :
  step w (OnMouseDown cx cy) s = onMouseDown cx cy s.
Proof. reflexivity. Qed.

Lemma step_OnMouseMove (w : World) (cx cy : num) (s : State) :
  step w (OnMouseMove cx cy) s = onMouseMove w cx cy s.
Proof. reflexivity. Qed.

Lemma step_AnimationFrame (w : World) (i : nat) (s : State) :
  step w (AnimationFrame i) s = animationFrame w i s.
Proof. reflexivity. Qed.

Lemma step_SetMeteorsList (w : World) (l : list BodyId) (s : State) :
  step w (SetMeteorsList l) s = setMeteorsList l s.
Proof. reflexivity. Qed.

(** The fields of a freshly built controller that [update] leaves alone. *)
Lemma constructor_fields (w : World) (cam : Camera) (tgt : Vector3)
    (minD maxD : num) (clk : nat -> num) (sunI earthI : option BodyId) :
  let s := setTargetObjects sunI earthI (constructor w cam tgt minD maxD clk) in
  lockedTarget s = None /\ lockMode s = none /\ isTransitioning s = false /\
  sunInstance s = sunI /\ earthInstance s = earthI /\
  currentMeteor s = None /\ meteorsList s = [] /\
  currentMeteorIndex s = (-1)%Z /\ frames s = [] /\ clock s = clk /\
  clockReads s = 0%nat /\ isMouseDown s = false /\ autoRotate s = false /\
  maxDistance s = maxD.
Proof.
  unfold constructor, setTargetObjects.
  match goal with
  | |- context [update w ?s0] =>
      pose proof (update_sameControl w s0) as Hsame;
      generalize dependent (update w s0); intros s1 Hsame
  end.
  unfold sameControl in Hsame. simpl in Hsame.
  destruct Hsame as (H1 & H2 & H3 & H4 & H5 & H6 & H7 & H8 & H9 & H10 & H11 &
                     H12 & H13 & H14 & H15 & H16).
  simpl. repeat split; assumption.
Qed.

(** The invalid-state checks of [update]: with a non-finite spherical
    coordinate the frame is skipped and an error is logged ... *)
Lemma update_skips_invalid_spherical (w : World) (s : State) :
  isFinite (radius (spherical s)) && isFinite (phi (spherical s)) &&
  isFinite (theta (spherical s)) = false ->
  update w s =
  emit (ConsoleError
    "CameraController: Invalid spherical coordinates detected, skipping camera update.") s.
Proof.
  intros H. unfold update.
  destruct (radius (spherical s)), (phi (spherical s)), (theta (spherical s));
    simpl in H; try discriminate H; reflexivity.
Qed.

(** ... and with a NaN component in the target the camera stays where it
    was and an error is logged. *)
Lemma update_skips_nan_target (w : World) (s : State) :
  isNaN (x (target s)) || isNaN (y (target s)) || isNaN (z (target s)) = true ->
  camera (update w s) = camera s /\
  exists message, effects (update w s) = effects s ++ [ConsoleError message].
Proof.
  intros H. unfold update.
  destruct (isNaN _ || _ || _ || _ || _ || _).
  - split; [reflexivity | eexists; reflexivity].
  - cbv zeta. simpl target. rewrite H.
    split; [reflexivity | eexists; reflexivity].
Qed.

(** An infinite component of the target passes both checks. *)
Lemma setTarget_infinite (M : R) (w : World) (s : State) :
  invariant M s -> lockedTarget s = None ->
  let s' := setTarget w (mkVector3 PInf (Fin 0) (Fin 0)) s in
  x (target s') = PInf /\ x (position (camera s')) = PInf /\
  effects s' = effects s.
Proof.
  intros [Hst Hwb] HlT. unfold setTarget. cbv zeta.
  rewrite update_unlocked.
  - explode s. open_invariant Hst Hwb. subst. fin_vars.
    unfold placeCamera, autoRotateStep. simpl.
    rewrite !min_Fin, !max_Fin.
    destruct aR; simpl; repeat split.
  - explode s. open_invariant Hst Hwb. subst. fin_vars. reflexivity.
  - explode s. open_invariant Hst Hwb. subst. fin_vars. reflexivity.
  - explode s. open_invariant Hst Hwb. subst. fin_vars. reflexivity.
  - reflexivity.
  - left. exact HlT.
Qed.

Lemma stillClock_finite : forall n, finite (stillClock n).
Proof. intros n. reflexivity. Qed.

(** C5.  An infinite target is not caught by [update].  After
    [setTarget(new Vector3(Infinity, 0, 0))] on a controller built as in
    [ThreeDemo.js] the frame is not skipped: nothing is logged and the
    camera position has an infinite component. *)
Theorem infinite_target_reaches_camera :
  let s0 := demoController stillClock in
  let s := run [(demoWorld, SetTarget (mkVector3 PInf (Fin 0) (Fin 0)))] s0 in
  isFinite (x (target s)) = false /\
  x (position (camera s)) = PInf /\
  effects s = effects s0.
Proof.
  cbv zeta. rewrite run_cons, run_nil, step_SetTarget.
  destruct (setTarget_infinite 500 demoWorld (demoController stillClock)) as
    (Htx & Hcx & Heff).
  - apply demoController_invariant, stillClock_finite.
  - apply constructor_fields.
  - rewrite Htx, Hcx, Heff. repeat split.
Qed.

(** Outside a lock, [update] moves neither the distances nor the orbit
    centre, whether the frame is skipped or not. *)
Lemma update_keeps_distances (w : World) (s : State) :
  lockedTarget s = None \/ isTransitioning s = true ->
  minDistance (update w s) = minDistance s /\
  currentDistance (update w s) = currentDistance s /\
  target (update w s) = target s.
Proof.
  intros Hfree. unfold update.
  destruct (isNaN _ || _ || _ || _ || _ || _); [repeat split |].
  cbv zeta.
  match goal with |- context [if ?c then _ else _] => destruct c end;
    [repeat split |].
  rewrite followLockedTarget_skip by (simpl; exact Hfree).
  unfold placeCamera, autoRotateStep. simpl.
  destruct (autoRotate s); repeat split.
Qed.

(** The angle [theta] after an [update] that is not skipped. *)
Lemma theta_after_update (w : World) (s : State) :
  finite (radius (spherical s)) -> finite (phi (spherical s)) ->
  finite (theta (spherical s)) ->
  isNaN (x (target s)) || isNaN (y (target s)) || isNaN (z (target s)) = false ->
  lockedTarget s = None \/ isTransitioning s = true ->
  theta (spherical (update w s)) =
  if autoRotate s then JsNum.add (theta (spherical s)) autoRotateSpeed
  else theta (spherical s).
Proof.
  intros Hr Hp Ht Htgt Hfree. rewrite update_unlocked by assumption.
  unfold placeCamera, autoRotateStep. simpl.
  destruct (autoRotate s); reflexivity.
Qed.

Lemma radius_after_update (w : World) (s : State) :
  finite (radius (spherical s)) -> finite (phi (spherical s)) ->
  finite (theta (spherical s)) ->
  isNaN (x (target s)) || isNaN (y (target s)) || isNaN (z (target s)) = false ->
  lockedTarget s = None \/ isTransitioning s = true ->
  radius (spherical (update w s)) =
  JsNum.max (minDistance s) (JsNum.min (maxDistance s) (radius (spherical s))).
Proof.
  intros Hr Hp Ht Htgt Hfree. rewrite update_unlocked by assumption.
  unfold placeCamera, autoRotateStep. simpl.
  destruct (autoRotate s); reflexivity.
Qed.

(** The facts about a state in working order that the checks of [update]
    look at. *)
Lemma steady_valid (M : R) (s : State) :
  steady M s ->
  finite (radius (spherical s)) /\ finite (phi (spherical s)) /\
  finite (theta (spherical s)) /\
  isNaN (x (target s)) || isNaN (y (target s)) || isNaN (z (target s)) = false.
Proof.
  intros Hst. explode s. open_steady Hst. subst. fin_vars.
  repeat split.
Qed.

(** The start of a transition whose first frame is not the last. *)
Lemma transitionToTarget_pending (M : R) (w : World) (obj : BodyId)
    (g : R) (c : Completion) (d : R) (s : State) (n0 n1 p e r0 mn mx : R) :
  worldOk M w -> invariant M s -> lockedTarget s = None ->
  minDistance s = Fin mn -> maxDistance s = Fin mx ->
  clock s (clockReads s) = Fin n0 -> clock s (S (clockReads s)) = Fin n1 ->
  0 < d -> p = Rmin ((n1 - n0) / d) 1 -> p < 1 -> ease (Fin p) = Fin e ->
  radius (spherical s) = Fin r0 ->
  let s' := transitionToTarget w obj (Fin g) c (Fin d) s in
  sameControl (set_frames
                 (frames s ++
                  [mkAnimation obj (Fin g) c (Fin d) (target s)
                     (theta (spherical s)) (phi (spherical s)) (Fin r0) (Fin n0)])
                 (set_clockReads (S (S (clockReads s)))
                    (set_isTransitioning true s))) s' /\
  minDistance s' = Fin mn /\
  currentDistance s' = Fin (r0 + (g - r0) * e) /\
  radius (spherical s') = Fin (Rmax mn (Rmin mx (r0 + (g - r0) * e))).
Proof.
  intros Hworld Hinv Hfree0 Hmin0 Hmax0 Hn0 Hn1 Hdur Hprog Hlt He Hr0.
  set (a := mkAnimation obj (Fin g) c (Fin d) (target s) (theta (spherical s))
              (phi (spherical s)) (Fin r0) (Fin n0)).
  set (s2 := set_clockReads (S (clockReads s)) (set_isTransitioning true s)).
  assert (E : transitionToTarget w obj (Fin g) c (Fin d) s = animate w a s2).
  { unfold transitionToTarget, dateNow. cbv zeta.
    change (clock (set_isTransitioning true s)
              (clockReads (set_isTransitioning true s)))
      with (clock s (clockReads s)).
    rewrite Hn0.
    change (radius (spherical (set_isTransitioning true s)))
      with (radius (spherical s)).
    rewrite Hr0. reflexivity. }
  rewrite E. clear E.
  assert (Ha : animationOk a).
  { unfold a, animationOk, finiteVector. simpl.
    destruct Hinv as [Hst Hwb]. explode s. open_invariant Hst Hwb.
    subst. fin_vars. simpl. unfold finite. simpl. repeat split; auto. }
  assert (Hinv2 : invariant M (set_clockReads (S (clockReads s2)) s2)).
  { unfold s2. steady_by_computation s Hinv. }
  rewrite (animate_pending w a s2 n1 p); [| exact Hn1 | | exact Hlt].
  2:{ rewrite (progressAt_value a n1 n0 d); [rewrite Hprog; reflexivity | | | exact Hdur];
      reflexivity. }
  rewrite He.
  destruct (interpolate_steady M w a e _ Hworld Hinv2 Ha) as [Hst5 _].
  set (s5 := interpolate w a (Fin e) (set_clockReads (S (clockReads s2)) s2)) in *.
  assert (Hfree : lockedTarget s5 = None \/ isTransitioning s5 = true)
    by (right; reflexivity).
  destruct (update_keeps_distances w s5 Hfree) as (Hmin & Hcd & _).
  destruct (steady_valid M s5 Hst5) as (V1 & V2 & V3 & V4).
  pose proof (radius_after_update w s5 V1 V2 V3 V4 Hfree) as Hrad.
  pose proof (update_sameControl w s5) as Hsame.
  clear V1 V2 V3 V4.
  generalize dependent (update w s5). intros u Hmin Hcd Hrad Hsame.
  unfold sameControl in *. simpl in Hsame |- *.
  destruct Hsame as (H1 & H2 & H3 & H4 & H5 & H6 & H7 & H8 & H9 & H10 & H11 &
                     H12 & H13 & H14 & H15 & H16).
  rewrite Hmin, Hcd, Hrad. unfold s5, interpolate. simpl.
  rewrite Hmin0, Hmax0, min_Fin, max_Fin.
  repeat split; try assumption; try congruence.
Qed.

(** The key 1 on a controller that is neither in a transition nor locked
    onto the earth starts the transition towards the earth, at five units
    from it. *)
Lemma onKeyDown_Digit1 (w : World) (s : State) (e : BodyId) :
  isTransitioning s = false -> earthInstance s = Some e ->
  LockMode_eqb (lockMode s) earth = false ->
  onKeyDown w Digit1 s =
  transitionToTarget w e (Fin 5) CompleteEarth (Fin 1500)
    (set_lockMode none (set_lockedTarget None s)).
Proof.
  intros HiT He Hmode. unfold onKeyDown. rewrite HiT.
  unfold lockOntoEarthWithTransition. rewrite He, Hmode. cbv zeta.
  replace (Fin 1 * Fin 5)%num with (Fin 5); [reflexivity |].
  simpl. f_equal. lra.
Qed.

(** The distances of the controller of the demo after its construction. *)
Lemma demoController_distances (clk : nat -> num) :
  minDistance (demoController clk) = Fin 80 /\
  currentDistance (demoController clk) = Fin 80 /\
  radius (spherical (demoController clk)) = Fin 80.
Proof.
  unfold demoController, setTargetObjects, constructor.
  match goal with
  | |- context [update demoWorld ?s0] =>
      assert (Hfree : lockedTarget s0 = None \/ isTransitioning s0 = true)
        by (left; reflexivity);
      destruct (update_keeps_distances demoWorld s0 Hfree) as (Hmin & Hcd & _);
      assert (Hrad : radius (spherical (update demoWorld s0)) = Fin 80);
      [ rewrite radius_after_update;
        [ | simpl; rewrite ?setFromVector3_origin; reflexivity ..
          | exact Hfree ]
      | generalize dependent (update demoWorld s0) ]
  end.
  - simpl. rewrite setFromVector3_origin. simpl.
    rewrite min_Fin, max_Fin. f_equal.
    unfold Rmax, Rmin. repeat destruct (Rle_dec _ _); lra.
  - intros u Hmin Hcd Hrad. simpl. rewrite Hmin, Hcd, Hrad. simpl.
    rewrite max_Fin. repeat split. f_equal.
    unfold Rmax. destruct (Rle_dec _ _); lra.
Qed.

(** A drag with the button down turns the camera, in a transition as
    outside one. *)
Lemma onMouseMove_theta (M : R) (w : World) (cx cy : num) (s : State) :
  invariant M s -> finite cx -> finite cy ->
  isMouseDown s = true -> autoRotate s = false ->
  lockedTarget s = None \/ isTransitioning s = true ->
  theta (spherical (onMouseMove w cx cy s)) =
  (theta (spherical s) - (cx - lastMouseX s) * rotationSpeed)%num.
Proof.
  intros Hinv Hev1 Hev2 Hdown Hauto Hfree. unfold onMouseMove.
  rewrite Hdown. simpl negb. cbv iota zeta.
  rewrite theta_after_update.
  - simpl. rewrite Hauto. reflexivity.
  - destruct Hinv as [Hst Hwb]. explode s. open_invariant Hst Hwb.
    subst. fin_vars. reflexivity.
  - destruct Hinv as [Hst Hwb]. explode s. open_invariant Hst Hwb.
    subst. fin_vars. simpl. rewrite min_Fin, max_Fin. reflexivity.
  - destruct Hinv as [Hst Hwb]. explode s. open_invariant Hst Hwb.
    subst. fin_vars. reflexivity.
  - destruct Hinv as [Hst Hwb]. explode s. open_invariant Hst Hwb.
    subst. fin_vars. reflexivity.
  - exact Hfree.
Qed.

(** The requested distance after a turn of the wheel, outside a lock. *)
Lemma onWheel_currentDistance (w : World) (dy : num) (s : State) :
  lockedTarget s = None ->
  currentDistance (onWheel w dy s) =
  JsNum.max
    (JsNum.max
       (if JsNum.lt (length (target s)) (Fin 15 * Fin 3)%num
        then JsNum.max (minDistance s) (Fin 15 * Fin 2.5)%num
        else minDistance s)
       (Fin 20))
    (JsNum.min (maxDistance s) (currentDistance s + dy * zoomSpeed * Fin 0.01)%num).
Proof.
  intros Hfree. unfold onWheel. cbv zeta.
  match goal with
  | |- currentDistance (update w ?s3) = _ =>
      assert (Hfree3 : lockedTarget s3 = None \/ isTransitioning s3 = true)
        by (left; exact Hfree);
      destruct (update_keeps_distances w s3 Hfree3) as (_ & Hcd & _);
      rewrite Hcd
  end.
  simpl. rewrite Hfree. reflexivity.
Qed.

(** C2.  On a controller built as in [ThreeDemo.js], the key 1 starts the
    transition towards the earth and the mouse button goes down.  While
    [isTransitioning] is set, a drag of the mouse changes [theta] and a
    turn of the wheel changes [currentDistance]; only the keyboard is
    ignored. *)
Theorem pointer_input_not_ignored_during_transition :
  let s := run [(demoWorld, OnKeyDown Digit1);
                (demoWorld, OnMouseDown (Fin 0) (Fin 0))]
               (demoController stillClock) in
  isTransitioning s = true /\
  theta (spherical (step demoWorld (OnMouseMove (Fin 100) (Fin 0)) s))
    <> theta (spherical s) /\
  currentDistance s = Fin 80 /\
  currentDistance (step demoWorld (OnWheel (Fin 1000)) s) = Fin 85 /\
  step demoWorld (OnKeyDown ArrowUp) s = s.
Proof.
  cbv zeta. rewrite !run_cons, run_nil.
  rewrite step_OnKeyDown, step_OnMouseDown, step_OnMouseMove, step_OnWheel,
    step_OnKeyDown.
  pose proof (demoController_invariant stillClock stillClock_finite) as Hinv0.
  destruct (constructor_fields demoWorld newCamera origin (Fin 80) (Fin 500)
              stillClock (Some sunId) (Some earthId))
    as (F1 & F2 & F3 & F4 & F5 & F6 & F7 & F8 & F9 & F10 & F11 & F12 & F13 & F14).
  destruct (demoController_distances stillClock) as (D1 & D2 & D3).
  fold (demoController stillClock) in F1, F2, F3, F4, F5, F6, F7, F8, F9, F10,
    F11, F12, F13, F14.
  generalize dependent (demoController stillClock). intros s0. intros.
  rewrite (onKeyDown_Digit1 demoWorld s0 earthId F3 F5)
    by (rewrite F2; reflexivity).
  assert (Hinv0' : invariant 500 (set_lockMode none (set_lockedTarget None s0)))
    by steady_by_computation s0 Hinv0.
  assert (Hp0 : 0 = Rmin ((0 - 0) / 1500) 1)
    by (unfold Rmin; destruct (Rle_dec _ _); lra).
  assert (Hstart :=
    transitionToTarget_pending 500 demoWorld earthId 5 CompleteEarth 1500
      (set_lockMode none (set_lockedTarget None s0)) 0 0 0 0 80 80 500
      demoController_world Hinv0' eq_refl D1 F14
      ltac:(simpl; rewrite F10; reflexivity)
      ltac:(simpl; rewrite F10; reflexivity)
      ltac:(lra) Hp0 ltac:(lra) ease_zero D3).
  cbv zeta in Hstart.
  assert (Hinv1 : invariant 500
            (transitionToTarget demoWorld earthId (Fin 5) CompleteEarth
               (Fin 1500) (set_lockMode none (set_lockedTarget None s0)))).
  { apply transitionToTarget_invariant;
      [exact demoController_world | exact Hinv0' | reflexivity | simpl; lra]. }
  generalize dependent
    (transitionToTarget demoWorld earthId (Fin 5) CompleteEarth (Fin 1500)
       (set_lockMode none (set_lockedTarget None s0))).
  intros s1 (Hsame & Hmin1 & Hcd1 & Hrad1) Hinv1.
  unfold sameControl in Hsame. simpl in Hsame.
  destruct Hsame as (H1 & H2 & H3 & H4 & H5 & H6 & H7 & H8 & H9 & H10 & H11 &
                     H12 & H13 & H14 & H15 & H16).
  assert (Hinv2 : invariant 500 (onMouseDown (Fin 0) (Fin 0) s1)).
  { unfold onMouseDown. steady_by_computation s1 Hinv1. }
  assert (G1 : isTransitioning (onMouseDown (Fin 0) (Fin 0) s1) = true)
    by (unfold onMouseDown; simpl; congruence).
  assert (G2 : lockedTarget (onMouseDown (Fin 0) (Fin 0) s1) = None)
    by (unfold onMouseDown; simpl; congruence).
  assert (G3 : currentDistance (onMouseDown (Fin 0) (Fin 0) s1) = Fin 80).
  { unfold onMouseDown. simpl. rewrite Hcd1. f_equal. lra. }
  assert (G4 : minDistance (onMouseDown (Fin 0) (Fin 0) s1) = Fin 80)
    by (unfold onMouseDown; simpl; congruence).
  assert (G5 : maxDistance (onMouseDown (Fin 0) (Fin 0) s1) = Fin 500)
    by (unfold onMouseDown; simpl; congruence).
  assert (G6 : isMouseDown (onMouseDown (Fin 0) (Fin 0) s1) = true)
    by reflexivity.
  assert (G7 : autoRotate (onMouseDown (Fin 0) (Fin 0) s1) = false)
    by (unfold onMouseDown; simpl; congruence).
  assert (G8 : lastMouseX (onMouseDown (Fin 0) (Fin 0) s1) = Fin 0)
    by reflexivity.
  generalize dependent (onMouseDown (Fin 0) (Fin 0) s1). intros s2. intros.
  split; [exact G1 |]. split; [| split; [exact G3 | split]].
  - rewrite (onMouseMove_theta 500 demoWorld (Fin 100) (Fin 0) s2 Hinv2
               eq_refl eq_refl G6 G7 (or_intror G1)).
    rewrite G8. destruct (steady_valid 500 s2 (proj1 Hinv2)) as (_ & _ & Ht & _).
    unfold finite in Ht. destruct (theta (spherical s2)) as [t | | |];
      try discriminate Ht.
    simpl. intros E. injection E as E. lra.
  - rewrite (onWheel_currentDistance demoWorld (Fin 1000) s2 G2).
    rewrite G3, G4, G5. simpl.
    destruct (JsNum.lt _ _); rewrite ?min_Fin, ?max_Fin; f_equal;
      unfold Rmax, Rmin; repeat destruct (Rle_dec _ _); lra.
  - unfold onKeyDown. rewrite G1. reflexivity.
Qed.

Lemma steppedClock_finite (n : nat) : finite (steppedClock n).
Proof. do 5 (destruct n as [| n]; [reflexivity |]). reflexivity. Qed.

Lemma animationFrame_head (w : World) (a : Animation) (rest : list Animation)
    (s : State) :
  frames s = a :: rest ->
  animationFrame w 0 s = animate w a (set_frames rest s).
Proof. intros Hfr. unfold animationFrame. rewrite Hfr. reflexivity. Qed.

Lemma clamp_synced (M : R) (s : State) :
  steady M s -> synced s ->
  le (JsNum.min (maxDistance s) (currentDistance s))
     (JsNum.max (minDistance s)
        (JsNum.min (maxDistance s) (radius (spherical s)))).
Proof.
  intros Hst Hsync. unfold synced in Hsync.
  explode s. open_steady Hst. subst. fin_vars. simpl in *.
  rewrite !min_Fin in *. rewrite max_Fin. simpl in *.
  unfold Rmax, Rmin in *. repeat destruct (Rle_dec _ _); lra.
Qed.

(** The last frame of a transition, before the callback [onComplete]: the
    requested distance is the goal, and the spherical radius is the goal
    clamped between the distances in force. *)
Lemma animate_last_frame (M : R) (w : World) (a : Animation) (s : State)
    (n t0 d r0 g mn mx : R) :
  worldOk M w -> invariant M s -> animationOk a -> isTransitioning s = true ->
  clock s (clockReads s) = Fin n ->
  startTime a = Fin t0 -> duration a = Fin d -> 0 < d -> d <= n - t0 ->
  startRadius a = Fin r0 -> targetDistance a = Fin g ->
  minDistance s = Fin mn -> maxDistance s = Fin mx ->
  exists u : State,
    animate w a s = complete w (onComplete a) u /\
    sameControl (set_isTransitioning false (set_clockReads (S (clockReads s)) s)) u /\
    invariant M u /\ synced u /\
    radius (spherical u) = Fin (Rmax mn (Rmin mx g)) /\
    currentDistance u = Fin g /\ minDistance u = Fin mn.
Proof.
  intros Hworld Hinv Ha HiT Hn Ht0 Hdur Hpos Hlate Hr0 Hg Hmin0 Hmax0.
  assert (Hprog : progressAt a (Fin n) = Fin 1).
  { rewrite (progressAt_value a n t0 d Ht0 Hdur Hpos). f_equal.
    assert (1 <= (n - t0) / d).
    { apply (Rmult_le_reg_r d); [exact Hpos |].
      unfold Rdiv. rewrite Rmult_assoc, Rinv_l by lra. lra. }
    unfold Rmin. destruct (Rle_dec _ _); lra. }
  rewrite (animate_completes w a s n 1 Hn Hprog) by lra.
  rewrite ease_one.
  assert (Hinv2 : invariant M (set_clockReads (S (clockReads s)) s))
    by steady_by_computation s Hinv.
  destruct (interpolate_steady M w a 1 _ Hworld Hinv2 Ha) as [Hst5 Hsync5].
  set (s5 := interpolate w a (Fin 1) (set_clockReads (S (clockReads s)) s)) in *.
  assert (Hfree : lockedTarget s5 = None \/ isTransitioning s5 = true)
    by (right; exact HiT).
  destruct (update_keeps_distances w s5 Hfree) as (Hmin & Hcd & _).
  destruct (steady_valid M s5 Hst5) as (V1 & V2 & V3 & V4).
  pose proof (radius_after_update w s5 V1 V2 V3 V4 Hfree) as Hrad.
  pose proof (update_sameControl w s5) as Hsame.
  pose proof (update_invariant M w s5 Hworld Hst5) as Hinvu.
  assert (Hsyncu : synced (update w s5)).
  { unfold synced. rewrite Hcd, Hrad.
    destruct Hsame as (_ & _ & _ & _ & _ & _ & _ & _ & _ & _ & _ & _ & _ & _ & _ & HmaxU).
    rewrite HmaxU. exact (clamp_synced M s5 Hst5 Hsync5). }
  clear V1 V2 V3 V4.
  exists (set_isTransitioning false (update w s5)).
  generalize dependent (update w s5). intros u Hmin Hcd Hrad Hsame Hinvu Hsyncu.
  split; [reflexivity |].
  unfold sameControl in *. simpl in Hsame |- *.
  destruct Hsame as (H1 & H2 & H3 & H4 & H5 & H6 & H7 & H8 & H9 & H10 & H11 &
                     H12 & H13 & H14 & H15 & H16).
  split; [repeat split; assumption |].
  split; [steady_by_computation u Hinvu |].
  split; [exact Hsyncu |].
  rewrite Hmin, Hcd, Hrad. unfold s5, interpolate. simpl.
  rewrite Hmin0, Hmax0, Hr0, Hg. simpl. rewrite min_Fin, max_Fin.
  repeat split; f_equal; try lra.
  f_equal. f_equal. lra.
Qed.

(** [updateMinDistanceForTarget] when the minimum distance in force is
    off by more than 0.1 and the requested distance respects the new
    one: only the minimum distance changes. *)
Lemma updateMinDistanceForTarget_resets (w : World) (s : State) (b : BodyId)
    (q mn c : R) :
  lockedTarget s = Some b -> bodyRadius (w b) = Some (Fin q) ->
  minDistance s = Fin mn -> currentDistance s = Fin c ->
  0.1 < Rabs (mn - q * 2.5) -> q * 2.5 <= c ->
  updateMinDistanceForTarget w s = set_minDistance (Fin (q * 2.5)) s.
Proof.
  intros Hl Hq Hmn Hc Hoff Hroom.
  unfold updateMinDistanceForTarget, targetRadius. rewrite Hl, Hq. cbv zeta.
  rewrite Hmn. simpl. unfold Rltb.
  destruct (Rlt_dec _ _) as [_ | Hn]; [| exfalso; apply Hn; exact Hoff].
  rewrite Hc, lt_Fin_false by lra. reflexivity.
Qed.

Lemma demoWorld_ok (M : R) : 37.5 <= M -> worldOk M demoWorld.
Proof.
  intros HMbig b. unfold demoWorld.
  destruct b as [| [| b]]; simpl; unfold finiteVector, finite; simpl;
    repeat split; lra.
Qed.

Lemma defaultController_invariant (clk : nat -> num) :
  (forall n, finite (clk n)) -> invariant 50 (defaultController clk).
Proof.
  intros Hclock. unfold defaultController.
  assert (Hworld : worldOk 50 demoWorld) by (apply demoWorld_ok; lra).
  pose proof (constructor_invariant 50 demoWorld newCamera origin (Fin 2) clk
                Hworld) as Hc.
  assert (Hinv : invariant 50
            (constructor demoWorld newCamera origin (Fin 2) (Fin 50) clk)).
  { apply Hc; try exact Hclock; simpl; try lra;
      unfold finiteVector, finite; simpl; repeat split. }
  generalize dependent (constructor demoWorld newCamera origin (Fin 2) (Fin 50) clk).
  intros s _ Hinv. unfold setTargetObjects. steady_by_computation s Hinv.
Qed.

(** The distances of a controller built with the default distances. *)
Lemma defaultController_distances (clk : nat -> num) :
  minDistance (defaultController clk) = Fin 2 /\
  radius (spherical (defaultController clk)) = Fin 2.
Proof.
  unfold defaultController, setTargetObjects, constructor.
  match goal with
  | |- context [update demoWorld ?s0] =>
      assert (Hfree : lockedTarget s0 = None \/ isTransitioning s0 = true)
        by (left; reflexivity);
      destruct (update_keeps_distances demoWorld s0 Hfree) as (Hmin & _ & _);
      assert (Hrad : radius (spherical (update demoWorld s0)) = Fin 2);
      [ rewrite radius_after_update;
        [ | simpl; rewrite ?setFromVector3_origin; reflexivity ..
          | exact Hfree ]
      | generalize dependent (update demoWorld s0) ]
  end.
  - simpl. rewrite setFromVector3_origin. simpl.
    rewrite min_Fin, max_Fin. f_equal.
    unfold Rmax, Rmin. repeat destruct (Rle_dec _ _); lra.
  - intros u Hmin Hrad. simpl. rewrite Hmin, Hrad. split; reflexivity.
Qed.

(** The key 0 on a controller that is neither in a transition nor locked
    onto the sun starts the transition towards the sun, at 45 units from
    it. *)
Lemma onKeyDown_Digit0 (w : World) (s : State) (b : BodyId) :
  isTransitioning s = false -> sunInstance s = Some b ->
  LockMode_eqb (lockMode s) sun = false ->
  onKeyDown w Digit0 s =
  transitionToTarget w b (Fin 45) CompleteSun (Fin 1500)
    (set_lockMode none (set_lockedTarget None s)).
Proof.
  intros HiT Hb Hmode. unfold onKeyDown. rewrite HiT.
  unfold lockOntoSunWithTransition. rewrite Hb, Hmode. cbv zeta.
  replace (Fin 15 * Fin 3)%num with (Fin 45); [reflexivity |].
  simpl. f_equal. lra.
Qed.

(** A transition of 1500 ms from start to end, in two frames: the first
    at the time of the call, the second 1500 ms later or more.  Before the
    callback [onComplete] runs, the requested distance is the goal and
    the spherical radius is the goal clamped between the distances in
    force. *)
Lemma transition_in_two_frames (M : R) (w : World) (obj : BodyId) (g : R)
    (c : Completion) (s : State) (t0 t1 r0 mn mx : R) :
  worldOk M w -> invariant M s -> lockedTarget s = None -> frames s = [] ->
  minDistance s = Fin mn -> maxDistance s = Fin mx ->
  radius (spherical s) = Fin r0 ->
  clock s (clockReads s) = Fin t0 -> clock s (S (clockReads s)) = Fin t0 ->
  clock s (S (S (clockReads s))) = Fin t1 -> 1500 <= t1 - t0 ->
  let s1 := transitionToTarget w obj (Fin g) c (Fin 1500) s in
  isTransitioning s1 = true /\
  map targetDistance (frames s1) = [Fin g] /\
  exists u : State,
    animationFrame w 0 s1 = complete w c u /\
    sameControl
      (set_isTransitioning false (set_clockReads (3 + clockReads s) s)) u /\
    invariant M u /\ synced u /\
    radius (spherical u) = Fin (Rmax mn (Rmin mx g)) /\
    currentDistance u = Fin g /\ minDistance u = Fin mn.
Proof.
  intros Hworld Hinv Hfree0 Hframes Hmin0 Hmax0 Hr0 Hn0 Hn1 Hn2 Hlate.
  assert (Hp0 : 0 = Rmin ((t0 - t0) / 1500) 1).
  { replace ((t0 - t0) / 1500) with 0 by lra.
    unfold Rmin. destruct (Rle_dec _ _); lra. }
  assert (Hstart :=
    transitionToTarget_pending M w obj g c 1500 s t0 t0 0 0 r0 mn mx
      Hworld Hinv Hfree0 Hmin0 Hmax0 Hn0 Hn1 ltac:(lra) Hp0 ltac:(lra)
      ease_zero Hr0).
  cbv zeta in Hstart |- *.
  assert (Hinv1 : invariant M (transitionToTarget w obj (Fin g) c (Fin 1500) s)).
  { apply transitionToTarget_invariant;
      [exact Hworld | exact Hinv | reflexivity | simpl; lra]. }
  generalize dependent (transitionToTarget w obj (Fin g) c (Fin 1500) s).
  intros s1 (Hsame & Hmin1 & Hcd1 & Hrad1) Hinv1.
  unfold sameControl in Hsame. simpl in Hsame.
  destruct Hsame as (H1 & H2 & H3 & H4 & H5 & H6 & H7 & H8 & H9 & H10 & H11 &
                     H12 & H13 & H14 & H15 & H16).
  rewrite Hframes in H9. simpl in H9.
  split; [exact H3 |]. rewrite H9. split; [reflexivity |].
  rewrite (animationFrame_head w _ [] s1 H9).
  match type of H9 with _ = [?a0] => set (a := a0) in * end.
  assert (Ha : animationOk a).
  { destruct Hinv1 as [Hst1 _]. unfold steady in Hst1.
    destruct Hst1 as (_ & _ & _ & _ & _ & _ & _ & _ & _ & _ & _ & _ & Hfr & _).
    rewrite H9 in Hfr. inversion Hfr. assumption. }
  assert (Hinv1' : invariant M (set_frames [] s1))
    by steady_by_computation s1 Hinv1.
  destruct (animate_last_frame M w a (set_frames [] s1)
              t1 t0 1500 r0 g mn mx Hworld Hinv1' Ha H3)
    as (u & Hanim & Hsame & Hinvu & Hsyncu & Hradu & Hcdu & Hminu);
    try reflexivity; try lra.
  { simpl. rewrite H10, H11. exact Hn2. }
  { exact Hmin1. }
  { simpl. congruence. }
  exists u. split; [exact Hanim |].
  split;
    [| split; [exact Hinvu | split; [exact Hsyncu | split; [exact Hradu |
       split; assumption]]]].
  unfold sameControl in Hsame |- *. simpl in Hsame |- *.
  destruct Hsame as (U1 & U2 & U3 & U4 & U5 & U6 & U7 & U8 & U9 & U10 & U11 &
                     U12 & U13 & U14 & U15 & U16).
  repeat split; congruence.
Qed.

(** C4.  On a controller built with the default distances, 2 and 50, the
    key 0 locks the camera onto the sun at radius 45 and raises the
    minimum distance to 37.5.  The key 1 then starts the transition
    towards the earth with the goal radius 5.  When the callback is run
    1500 ms later the transition is over and the mode is ['earth'], but
    the spherical radius is 37.5, the goal clamped by the minimum
    distance left by the sun, while [currentDistance] is 5. *)
Theorem earth_transition_stops_at_sun_minimum :
  let s2 := run [(demoWorld, OnKeyDown Digit0); (demoWorld, AnimationFrame 0)]
                (defaultController steppedClock) in
  let s3 := run [(demoWorld, OnKeyDown Digit1)] s2 in
  let s4 := run [(demoWorld, AnimationFrame 0)] s3 in
  lockMode s2 = sun /\ radius (spherical s2) = Fin 45 /\
  minDistance s2 = Fin 37.5 /\
  isTransitioning s3 = true /\ map targetDistance (frames s3) = [Fin 5] /\
  isTransitioning s4 = false /\ lockMode s4 = earth /\
  lockedTarget s4 = Some earthId /\ frames s4 = [] /\
  currentDistance s4 = Fin 5 /\
  radius (spherical s4) = Fin 37.5.
Proof.
  cbv zeta. rewrite !run_cons, !run_nil.
  rewrite !step_OnKeyDown, !step_AnimationFrame.
  assert (Hworld : worldOk 50 demoWorld) by (apply demoWorld_ok; lra).
  pose proof (defaultController_invariant steppedClock steppedClock_finite) as Hinv0.
  destruct (constructor_fields demoWorld newCamera origin (Fin 2) (Fin 50)
              steppedClock (Some sunId) (Some earthId))
    as (F1 & F2 & F3 & F4 & F5 & F6 & F7 & F8 & F9 & F10 & F11 & F12 & F13 & F14).
  destruct (defaultController_distances steppedClock) as (D1 & D3).
  fold (defaultController steppedClock) in F1, F2, F3, F4, F5, F6, F7, F8, F9,
    F10, F11, F12, F13, F14.
  generalize dependent (defaultController steppedClock). intros s0. intros.
  (* the transition towards the sun *)
  rewrite (onKeyDown_Digit0 demoWorld s0 sunId F3 F4)
    by (rewrite F2; reflexivity).
  assert (Hinv0' : invariant 50 (set_lockMode none (set_lockedTarget None s0)))
    by steady_by_computation s0 Hinv0.
  destruct (transition_in_two_frames 50 demoWorld sunId 45 CompleteSun
              (set_lockMode none (set_lockedTarget None s0)) 0 1500 2 2 50
              Hworld Hinv0' eq_refl F9 D1 F14 D3)
    as (_ & _ & u1 & Hframe1 & Hsame1 & Hinvu1 & Hsyncu1 & Hradu1 & Hcdu1 & Hminu1);
    try (simpl; rewrite F10, F11; reflexivity); try lra.
  rewrite Hframe1. clear Hframe1.
  unfold sameControl in Hsame1. simpl in Hsame1.
  destruct Hsame1 as (U1 & U2 & U3 & U4 & U5 & U6 & U7 & U8 & U9 & U10 & U11 &
                      U12 & U13 & U14 & U15 & U16).
  pose proof (complete_invariant 50 demoWorld CompleteSun u1 Hworld Hinvu1 Hsyncu1)
    as Hinv2.
  assert (E2 : complete demoWorld CompleteSun u1 =
               emit (ConsoleLog "Camera locked onto Sun")
                 (set_minDistance (Fin (15 * 2.5))
                    (set_lockMode sun (set_lockedTarget (Some sunId) u1)))).
  { unfold complete. cbv zeta. rewrite U4, F4.
    rewrite (updateMinDistanceForTarget_resets demoWorld _ sunId 15 2 45);
      [ reflexivity | reflexivity | reflexivity | exact Hminu1 | exact Hcdu1
      | unfold Rabs; destruct (Rcase_abs _); lra | lra ]. }
  rewrite E2 in Hinv2 |- *. clear E2.
  assert (Hrad45 : Rmax 2 (Rmin 50 45) = 45)
    by (unfold Rmax, Rmin; repeat destruct (Rle_dec _ _); lra).
  rewrite Hrad45 in Hradu1.
  match type of Hinv2 with invariant _ ?s => set (s2 := s) in * end.
  assert (G1 : isTransitioning s2 = false) by exact U3.
  assert (G2 : earthInstance s2 = Some earthId) by (unfold s2; simpl; congruence).
  assert (G3 : lockMode s2 = sun) by reflexivity.
  assert (G4 : frames s2 = []) by (unfold s2; simpl; congruence).
  assert (G5 : clock s2 = steppedClock) by (unfold s2; simpl; congruence).
  assert (G6 : clockReads s2 = 3%nat) by (unfold s2; simpl; congruence).
  assert (G7 : radius (spherical s2) = Fin 45) by exact Hradu1.
  assert (G8 : minDistance s2 = Fin (15 * 2.5)) by reflexivity.
  assert (G9 : maxDistance s2 = Fin 50) by (unfold s2; simpl; congruence).
  clearbody s2.
  split; [exact G3 |]. split; [exact G7 |].
  split; [rewrite G8; f_equal; lra |].
  (* the transition towards the earth *)
  rewrite (onKeyDown_Digit1 demoWorld s2 earthId G1 G2)
    by (rewrite G3; reflexivity).
  assert (Hinv2' : invariant 50 (set_lockMode none (set_lockedTarget None s2)))
    by steady_by_computation s2 Hinv2.
  destruct (transition_in_two_frames 50 demoWorld earthId 5 CompleteEarth
              (set_lockMode none (set_lockedTarget None s2)) 1500 3000 45
              (15 * 2.5) 50 Hworld Hinv2' eq_refl G4 G8 G9 G7)
    as (Htr3 & Hgoal3 & u2 & Hframe2 & Hsame2 & Hinvu2 & Hsyncu2 & Hradu2 &
        Hcdu2 & Hminu2);
    try (simpl; rewrite G5, G6; reflexivity); try lra.
  split; [exact Htr3 |]. split; [exact Hgoal3 |].
  rewrite Hframe2. clear Hframe2.
  unfold sameControl in Hsame2. simpl in Hsame2.
  destruct Hsame2 as (V1 & V2 & V3 & V4 & V5 & V6 & V7 & V8 & V9 & V10 & V11 &
                      V12 & V13 & V14 & V15 & V16).
  unfold complete. cbv zeta. rewrite V5, G2.
  rewrite (updateMinDistanceForTarget_resets demoWorld _ earthId 1 (15 * 2.5) 5);
    [ | reflexivity | reflexivity | exact Hminu2 | exact Hcdu2
      | unfold Rabs; destruct (Rcase_abs _); lra | lra ].
  simpl. rewrite V3, V9, G4, Hcdu2, Hradu2.
  repeat split. f_equal.
  unfold Rmax, Rmin. repeat destruct (Rle_dec _ _); lra.
Qed.

(** [indexOf] finds the place of an element of a list without
    repetition. *)
Lemma indexOf_nth_error (l : list BodyId) (k : nat) (m : BodyId) :
  NoDup l -> nth_error l k = Some m -> indexOf l m = Z.of_nat k.
Proof.
  revert k. induction l as [| a l IH]; intros k Hnd Hk.
  - destruct k; discriminate Hk.
  - inversion Hnd as [| a' l' Hnotin Hnd']; subst.
    destruct k as [| k]; simpl in Hk |- *.
    + injection Hk as ->. rewrite Nat.eqb_refl. reflexivity.
    + assert (Hne : Nat.eqb a m = false).
      { apply Nat.eqb_neq. intros ->. apply Hnotin.
        exact (nth_error_In _ _ Hk). }
      rewrite Hne, (IH k Hnd' Hk).
      destruct (Z.of_nat k =? -1)%Z eqn:E; [apply Z.eqb_eq in E |]; lia.
Qed.

(** ** The bounds of the camera *)

(** The controller of [ThreeDemo.js] is built with the camera on its
    target: its polar angle is clamped to exactly [0.01], and zooming
    leaves it there. *)
Lemma polar_angle_at_epsilon :
  ~ strictlyWithinBounds
      (run [(demoWorld, OnWheel (Fin 100))] (demoController stillClock)).
Proof.
  rewrite run_cons, run_nil, step_OnWheel.
  unfold strictlyWithinBounds. intros (_ & _ & Hphi & _).
  rewrite (onWheel_phi 500) in Hphi.
  - rewrite demoController_phi in Hphi. unfold CameraProps.lt in Hphi. lra.
  - apply demoController_invariant. intros n. reflexivity.
  - reflexivity.
Qed.

(** ** A maximum distance below the minimum of a lock *)

Lemma finiteView_valid (s : State) :
  finiteView s ->
  finite (radius (spherical s)) /\ finite (phi (spherical s)) /\
  finite (theta (spherical s)) /\
  isNaN (x (target s)) || isNaN (y (target s)) || isNaN (z (target s)) = false.
Proof.
  intros (_ & _ & _ & Hr & Hp & Ht & (Hx & Hy & Hz) & _).
  repeat split; try assumption.
  destruct (target s) as [vx vy vz]. simpl in *. fin_vars. reflexivity.
Qed.

(** Outside a lock [update] keeps the numbers of the view finite. *)
Lemma update_finiteView (w : World) (s : State) :
  finiteView s -> lockedTarget s = None \/ isTransitioning s = true ->
  finiteView (update w s).
Proof.
  intros Hfin Hfree.
  destruct (finiteView_valid s Hfin) as (V1 & V2 & V3 & V4).
  rewrite (update_unlocked w s V1 V2 V3 V4 Hfree). clear V1 V2 V3 V4 Hfree.
  destruct Hfin as (Hmn & Hmx & Hc & Hr & Hp & Ht & (Htx & Hty & Htz) &
                    (Hcx & Hcy & Hcz)).
  explode s. simpl in *. fin_vars.
  unfold placeCamera, autoRotateStep, finiteView, finiteVector, finite.
  destruct aR; simpl; rewrite ?min_Fin, ?max_Fin; simpl; repeat split.
Qed.

(** A frame of a transition towards an object at a finite position keeps
    them finite. *)
Lemma interpolate_finiteView (w : World) (a : Animation) (e : R) (s : State) :
  finiteView s -> finiteVector (getPosition (w (targetObject a))) ->
  animationOk a -> finiteView (interpolate w a (Fin e) s).
Proof.
  intros Hfin Hpos Ha. unfold interpolate.
  assert (Hvec : finiteVector (sub (position (camera s))
                                   (getPosition (w (targetObject a))))).
  { destruct (getPosition (w (targetObject a))) as [gx gy gz].
    destruct Hpos as (Hgx & Hgy & Hgz). simpl in Hgx, Hgy, Hgz.
    destruct Hfin as (_ & _ & _ & _ & _ & _ & _ & (Hcx & Hcy & Hcz)).
    destruct (position (camera s)) as [px py pz]. simpl in *.
    fin_vars. repeat split. }
  destruct (setFromVector3_finite _ Hvec) as (r' & p' & t' & Hsph).
  rewrite Hsph. clear Hsph Hvec.
  destruct (getPosition (w (targetObject a))) as [gx gy gz].
  destruct Hpos as (Hgx & Hgy & Hgz). simpl in Hgx, Hgy, Hgz.
  destruct a as [obj dist c dur [sx sy sz] sth sph srad st0].
  unfold animationOk, finiteVector in Ha.
  cbn [duration startTime targetDistance startTarget startTheta startPhi
       startRadius x y z] in Ha.
  destruct Ha as (Hdist & Hdur & (Hsx & Hsy & Hsz) & Hsth & Hsph & Hsrad & Hst0).
  destruct Hfin as (Hmn & Hmx & Hc & Hr & Hp & Ht & (Htx & Hty & Htz) &
                    (Hcx & Hcy & Hcz)).
  explode s. simpl in *. fin_vars.
  unfold finiteView, finiteVector, finite. simpl. repeat split.
Qed.

(** A controller built with finite arguments. *)
Lemma constructor_finiteView (w : World) (cam : Camera) (tgt : Vector3)
    (mn mx : R) (clk : nat -> num) (sunI earthI : option BodyId) :
  finiteVector (position cam) -> finiteVector tgt ->
  let s := setTargetObjects sunI earthI
             (constructor w cam tgt (Fin mn) (Fin mx) clk) in
  finiteView s /\ minDistance s = Fin mn /\ target s = tgt.
Proof.
  intros Hcam Htgt. cbv zeta. unfold constructor.
  assert (Hvec : finiteVector (sub (position cam) tgt)).
  { destruct cam as [[cx cy cz] la]. destruct tgt as [tx ty tz].
    destruct Hcam as (H1 & H2 & H3). destruct Htgt as (H4 & H5 & H6).
    simpl in *. fin_vars. repeat split. }
  destruct (setFromVector3_finite _ Hvec) as (r & p & t & Hsph).
  rewrite Hsph. clear Hsph Hvec.
  match goal with
  | |- context [update w ?s0] =>
      assert (Hfin0 : finiteView s0);
      [ | assert (Hfree : lockedTarget s0 = None \/ isTransitioning s0 = true)
            by (left; reflexivity);
          pose proof (update_finiteView w s0 Hfin0 Hfree) as Hfin;
          destruct (update_keeps_distances w s0 Hfree) as (Hmin & _ & Htarget);
          generalize dependent (update w s0) ]
  end.
  - destruct cam as [[cx cy cz] la]. destruct tgt as [tx ty tz].
    destruct Hcam as (H1 & H2 & H3). destruct Htgt as (H4 & H5 & H6).
    simpl in *. fin_vars.
    unfold finiteView, finiteVector, finite. simpl. rewrite ?max_Fin.
    repeat split.
  - intros u Hfin Hmin Htarget. unfold setTargetObjects.
    split; [| split; [exact Hmin | exact Htarget]].
    unfold finiteView in *. explode u. exact Hfin.
Qed.

(** The call of [transitionToTarget] is the first call of its closure. *)
Lemma transitionToTarget_first_frame (w : World) (obj : BodyId) (g : num)
    (c : Completion) (d : num) (s : State) :
  transitionToTarget w obj g c d s =
  animate w
    (mkAnimation obj g c d (target s) (theta (spherical s)) (phi (spherical s))
       (radius (spherical s)) (clock s (clockReads s)))
    (set_clockReads (S (clockReads s)) (set_isTransitioning true s)).
Proof. reflexivity. Qed.

(** [update] on a controller locked onto an object when the minimum
    distance, 2.5 times the radius of the object, is above the maximum:
    the spherical radius goes to the minimum. *)
Lemma update_minimum_above_maximum (w : World) (s : State) (b : BodyId)
    (q mx : R) :
  finiteView s -> lockedTarget s = Some b -> isTransitioning s = false ->
  finiteVector (getPosition (w b)) -> bodyRadius (w b) = Some (Fin q) ->
  minDistance s = Fin (q * 2.5) -> maxDistance s = Fin mx -> mx <= q * 2.5 ->
  maxDistance (update w s) = Fin mx /\
  minDistance (update w s) = Fin (q * 2.5) /\
  radius (spherical (update w s)) = Fin (q * 2.5) /\
  lockedTarget (update w s) = Some b.
Proof.
  intros Hfin Hlock HiT Hpos Hq Hmin Hmax Hbelow.
  destruct (finiteView_valid s Hfin) as (V1 & V2 & V3 & V4).
  rewrite update_valid; [| exact V1 | exact V2 | exact V3 | exact V4].
  clear V1 V2 V3 V4.
  unfold followLockedTarget, updateMinDistanceForTarget, targetRadius.
  destruct (getPosition (w b)) as [gx gy gz].
  destruct Hpos as (Hgx & Hgy & Hgz). simpl in Hgx, Hgy, Hgz.
  destruct Hfin as (_ & _ & _ & Hr & Hp & Ht & (Hx & Hy & Hz) & _).
  explode s. simpl in Hlock, HiT, Hmin, Hmax, Hr, Hp, Ht, Hx, Hy, Hz.
  subst mnD mxD lT iT. fin_vars.
  simpl. rewrite Hq. simpl. rewrite ?min_Fin, ?max_Fin. simpl. unfold Rltb.
  destruct (Rlt_dec 0.1 (Rabs (q * 2.5 + - (q * 2.5)))) as [Habs | _].
  { exfalso. replace (q * 2.5 + - (q * 2.5)) with 0 in Habs by lra.
    rewrite Rabs_R0 in Habs. lra. }
  unfold placeCamera, autoRotateStep. simpl.
  match goal with
  | |- context [Rmax (q * 2.5) ?c] =>
      assert (Hclamp : Rmax (q * 2.5) c = q * 2.5)
        by (unfold Rmax, Rmin; repeat destruct (Rle_dec _ _); lra)
  end.
  destruct aR; simpl; rewrite Hclamp; repeat split.
Qed.

(** The key 0 on an unlocked controller whose maximum distance is below
    2.5 times the radius of the sun.  The transition runs its two frames;
    its callback raises the minimum distance to 2.5 times the radius,
    above the maximum, and the next [update] takes the spherical radius
    there. *)
Lemma sun_lock_beyond_maximum (w : World) (s0 : State) (b : BodyId)
    (q mn mx t0 t1 : R) :
  finiteView s0 -> minDistance s0 = Fin mn -> maxDistance s0 = Fin mx ->
  lockedTarget s0 = None -> lockMode s0 = none -> isTransitioning s0 = false ->
  sunInstance s0 = Some b -> frames s0 = [] ->
  clock s0 (clockReads s0) = Fin t0 -> clock s0 (S (clockReads s0)) = Fin t0 ->
  clock s0 (S (S (clockReads s0))) = Fin t1 -> 1500 <= t1 - t0 ->
  finiteVector (getPosition (w b)) -> bodyRadius (w b) = Some (Fin q) ->
  mn <= mx -> mx + 0.1 < q * 2.5 -> q * 2.5 <= 45 ->
  let s3 := update w (animationFrame w 0 (onKeyDown w Digit0 s0)) in
  maxDistance s3 = Fin mx /\ minDistance s3 = Fin (q * 2.5) /\
  radius (spherical s3) = Fin (q * 2.5) /\ lockedTarget s3 = Some b.
Proof.
  intros Hfin0 Hmin0 Hmax0 Hfree0 Hmode0 HiT0 Hsun Hframes0 Hn0 Hn1 Hn2 Hlate
         Hpos Hq Hlimits Hbelow Hgoal.
  cbv zeta.
  rewrite (onKeyDown_Digit0 w s0 b HiT0 Hsun) by (rewrite Hmode0; reflexivity).
  rewrite transitionToTarget_first_frame.
  (* the first frame *)
  set (s0' := set_lockMode none (set_lockedTarget None s0)).
  assert (Hr0 : exists r0 p0 th0 : R,
            spherical s0 = mkSpherical (Fin r0) (Fin p0) (Fin th0)).
  { destruct Hfin0 as (_ & _ & _ & Hr & Hp & Ht & _).
    destruct (spherical s0) as [sr sp st]. simpl in *. fin_vars. eauto. }
  destruct Hr0 as (r0 & p0 & th0 & Hsph0).
  assert (Htgt0 : exists ax ay az : R,
            target s0 = mkVector3 (Fin ax) (Fin ay) (Fin az)).
  { destruct Hfin0 as (_ & _ & _ & _ & _ & _ & (Hx & Hy & Hz) & _).
    destruct (target s0) as [vx vy vz]. simpl in *. fin_vars. eauto. }
  destruct Htgt0 as (ax & ay & az & Htgt0).
  set (a := mkAnimation b (Fin 45) CompleteSun (Fin 1500) (target s0')
              (theta (spherical s0')) (phi (spherical s0'))
              (radius (spherical s0')) (clock s0' (clockReads s0'))).
  assert (Ha : animationOk a).
  { unfold a, animationOk, finiteVector, s0'. simpl.
    rewrite Hsph0, Htgt0, Hn0. simpl. unfold finite. simpl.
    repeat split; lra. }
  assert (Ha0 : startTime a = Fin t0) by (unfold a, s0'; simpl; exact Hn0).
  assert (Har : startRadius a = Fin r0)
    by (unfold a, s0'; simpl; rewrite Hsph0; reflexivity).
  assert (Hobj : targetObject a = b) by reflexivity.
  assert (Hdone : onComplete a = CompleteSun) by reflexivity.
  assert (Hd : duration a = Fin 1500) by reflexivity.
  assert (Hg : targetDistance a = Fin 45) by reflexivity.
  clearbody a.
  set (s2 := set_clockReads (S (clockReads s0')) (set_isTransitioning true s0')).
  assert (Hp0 : progressAt a (Fin t0) = Fin 0).
  { rewrite (progressAt_value a t0 t0 1500 Ha0 Hd) by lra. f_equal.
    replace ((t0 - t0) / 1500) with 0 by lra.
    unfold Rmin. destruct (Rle_dec _ _); lra. }
  rewrite (animate_pending w a s2 t0 0); [| exact Hn1 | exact Hp0 | lra].
  rewrite ease_zero.
  set (i1 := interpolate w a (Fin 0) (set_clockReads (S (clockReads s2)) s2)).
  assert (Hfin1 : finiteView i1).
  { apply interpolate_finiteView; [| rewrite Hobj; exact Hpos | exact Ha].
    unfold s2, s0', finiteView in *. explode s0. exact Hfin0. }
  assert (Hfree1 : lockedTarget i1 = None \/ isTransitioning i1 = true)
    by (right; reflexivity).
  pose proof (update_finiteView w i1 Hfin1 Hfree1) as Hfinu1.
  destruct (update_keeps_distances w i1 Hfree1) as (Hminu1 & _ & _).
  pose proof (update_sameControl w i1) as Hsame1.
  unfold sameControl in Hsame1.
  destruct Hsame1 as (H1 & H2 & H3 & H4 & H5 & H6 & H7 & H8 & H9 & H10 & H11 &
                      H12 & H13 & H14 & H15 & H16).
  assert (K1 : isTransitioning (update w i1) = true) by (rewrite H3; reflexivity).
  assert (K2 : sunInstance (update w i1) = Some b)
    by (rewrite H4; unfold i1, interpolate; simpl; exact Hsun).
  assert (K3 : frames (update w i1) = [])
    by (rewrite H9; unfold i1, interpolate; simpl; exact Hframes0).
  assert (K4 : clock (update w i1) (clockReads (update w i1)) = Fin t1)
    by (rewrite H10, H11; unfold i1, interpolate; simpl; exact Hn2).
  assert (K5 : minDistance (update w i1) = Fin mn)
    by (rewrite Hminu1; unfold i1, interpolate; simpl; exact Hmin0).
  assert (K6 : maxDistance (update w i1) = Fin mx)
    by (rewrite H16; unfold i1, interpolate; simpl; exact Hmax0).
  assert (K7 : autoRotate (update w i1) = autoRotate s0)
    by (rewrite H15; reflexivity).
  clear H1 H2 H3 H4 H5 H6 H7 H8 H9 H10 H11 H12 H13 H14 H15 H16 Hminu1 Hfree1
        Hfin1.
  clearbody i1. generalize dependent (update w i1). clear i1.
  intros u1; intros.
  rewrite K3. simpl app.
  (* the second frame *)
  rewrite (animationFrame_head w a [] (set_frames [a] u1) eq_refl).
  set (s4 := set_frames [] (set_frames [a] u1)).
  assert (Hp1 : progressAt a (Fin t1) = Fin 1).
  { rewrite (progressAt_value a t1 t0 1500 Ha0 Hd) by lra. f_equal.
    assert (1 <= (t1 - t0) / 1500) by lra.
    unfold Rmin. destruct (Rle_dec _ _); lra. }
  rewrite (animate_completes w a s4 t1 1); [| exact K4 | exact Hp1 | lra].
  rewrite ease_one, Hdone.
  set (i2 := interpolate w a (Fin 1) (set_clockReads (S (clockReads s4)) s4)).
  assert (Hfin2 : finiteView i2).
  { apply interpolate_finiteView; [| rewrite Hobj; exact Hpos | exact Ha].
    unfold s4, finiteView in *. explode u1. exact Hfinu1. }
  assert (Hfree2 : lockedTarget i2 = None \/ isTransitioning i2 = true)
    by (right; exact K1).
  assert (Hrad2 : radius (spherical i2) = Fin 45).
  { unfold i2, interpolate. simpl. rewrite Har, Hg. simpl. f_equal. lra. }
  assert (Hcd2 : currentDistance i2 = Fin 45).
  { unfold i2, interpolate. simpl. rewrite Har, Hg. simpl. f_equal. lra. }
  pose proof (update_finiteView w i2 Hfin2 Hfree2) as Hfinu2.
  destruct (update_keeps_distances w i2 Hfree2) as (Hminu2 & Hcdu2 & _).
  destruct (finiteView_valid i2 Hfin2) as (V1 & V2 & V3 & V4).
  pose proof (radius_after_update w i2 V1 V2 V3 V4 Hfree2) as Hradu2.
  pose proof (update_sameControl w i2) as Hsame2.
  unfold sameControl in Hsame2.
  destruct Hsame2 as (G1 & G2 & G3 & G4 & G5 & G6 & G7 & G8 & G9 & G10 & G11 &
                      G12 & G13 & G14 & G15 & G16).
  assert (J2 : sunInstance (update w i2) = Some b)
    by (rewrite G4; unfold i2, interpolate; simpl; exact K2).
  assert (J5 : minDistance (update w i2) = Fin mn)
    by (rewrite Hminu2; unfold i2, interpolate; simpl; exact K5).
  assert (J6 : maxDistance (update w i2) = Fin mx)
    by (rewrite G16; unfold i2, interpolate; simpl; exact K6).
  assert (J7 : currentDistance (update w i2) = Fin 45)
    by (rewrite Hcdu2; exact Hcd2).
  assert (J8 : radius (spherical (update w i2)) = Fin (Rmax mn (Rmin mx 45))).
  { rewrite Hradu2, Hrad2. unfold i2, interpolate. simpl.
    rewrite K5, K6. rewrite min_Fin, max_Fin. reflexivity. }
  clear G1 G2 G3 G4 G5 G6 G7 G8 G9 G10 G11 G12 G13 G14 G15 G16 Hminu2 Hcdu2
        Hradu2 V1 V2 V3 V4 Hfree2 Hfin2 Hrad2 Hcd2.
  clearbody i2. generalize dependent (update w i2). clear i2.
  intros u2; intros.
  (* the callback *)
  unfold complete. cbv zeta. simpl sunInstance. rewrite J2.
  rewrite (updateMinDistanceForTarget_resets w _ b q mn 45);
    [ | reflexivity | exact Hq | exact J5 | exact J7
      | unfold Rabs; destruct (Rcase_abs _); lra | lra ].
  (* the next update *)
  apply update_minimum_above_maximum; try assumption; try reflexivity; try lra.
  destruct Hfinu2 as (_ & Q2 & Q3 & Q4 & Q5 & Q6 & Q7 & Q8).
  unfold finiteView. explode u2. simpl in *.
  repeat split; try assumption; try reflexivity; try apply Q7; try apply Q8.
Qed.

(** [setZoomLimits(mn, mx)] with [mx < mn] on an unlocked controller: the
    distances are stored as given and the spherical radius goes to
    [mn]. *)
Lemma setZoomLimits_crossed (w : World) (s : State) (mn mx : R) :
  finiteView s -> lockedTarget s = None -> mx < mn ->
  let s' := setZoomLimits w (Fin mn) (Fin mx) s in
  minDistance s' = Fin mn /\ maxDistance s' = Fin mx /\
  radius (spherical s') = Fin mn.
Proof.
  intros Hfin Hlock Hcross. cbv zeta. unfold setZoomLimits. cbv zeta.
  destruct Hfin as (_ & _ & Hc & Hr & Hp & Ht & (Hx & Hy & Hz) & _).
  explode s. simpl in Hlock, Hc, Hr, Hp, Ht, Hx, Hy, Hz. subst lT. fin_vars.
  simpl. rewrite ?min_Fin, ?max_Fin.
  rewrite update_valid; try reflexivity.
  unfold followLockedTarget, placeCamera, autoRotateStep. simpl.
  rewrite ?min_Fin, ?max_Fin.
  match goal with
  | |- context [Rmax mn (Rmin mx ?c)] =>
      assert (Hclamp : Rmax mn (Rmin mx c) = mn)
        by (unfold Rmax, Rmin; repeat destruct (Rle_dec _ _); lra)
  end.
  destruct aR; simpl; rewrite Hclamp; repeat split.
Qed.

Lemma step_SetZoomLimits (w : World) (mn mx : num) (s : State) :
  step w (SetZoomLimits mn mx) s = setZoomLimits w mn mx s.
Proof. reflexivity. Qed.

Lemma step_Update (w : World) (s : State) : step w Update s = update w s.
Proof. reflexivity. Qed.

(** C3 as stated fails, in three ways.  The clamp of [update] is closed:
    on the controller of [ThreeDemo.js] the polar angle is exactly [0.01]
    after a turn of the wheel.  The minimum distance that a lock derives
    from the radius of the object has precedence over the maximum: on the
    controller of [IntroSlide.js], with distances between 2 and 20, the
    key 0 locks the camera onto the sun, whose radius is 15, and the next
    [update] leaves the spherical radius at 37.5 with a maximum distance
    of 20.  And [setZoomLimits] stores the two distances as they come:
    after [setZoomLimits(300, 100)] the spherical radius is 300 with a
    maximum distance of 100. *)
Theorem camera_bounds_violated :
  ~ strictlyWithinBounds
      (run [(demoWorld, OnWheel (Fin 100))] (demoController stillClock)) /\
  (let s := run [(demoWorld, OnKeyDown Digit0); (demoWorld, AnimationFrame 0);
                 (demoWorld, Update)]
                (introController steppedClock) in
   maxDistance s = Fin 20 /\ minDistance s = Fin 37.5 /\
   radius (spherical s) = Fin 37.5 /\ ~ withinBounds s) /\
  (let s := run [(demoWorld, SetZoomLimits (Fin 300) (Fin 100))]
                (demoController stillClock) in
   maxDistance s = Fin 100 /\ minDistance s = Fin 300 /\
   radius (spherical s) = Fin 300 /\ ~ withinBounds s).
Proof.
  split; [exact polar_angle_at_epsilon |]. split.
  - cbv zeta. rewrite !run_cons, run_nil.
    rewrite step_OnKeyDown, step_AnimationFrame, step_Update.
    destruct (constructor_fields demoWorld introCamera earthPosition (Fin 2)
                (Fin 20) steppedClock (Some sunId) (Some earthId))
      as (F1 & F2 & F3 & F4 & F5 & F6 & F7 & F8 & F9 & F10 & F11 & F12 & F13 & F14).
    assert (Hcam : finiteVector (position introCamera))
      by (unfold finiteVector, finite; simpl; repeat split).
    assert (Hearth : finiteVector earthPosition)
      by (unfold finiteVector, finite; simpl; repeat split).
    destruct (constructor_finiteView demoWorld introCamera earthPosition 2 20
                steppedClock (Some sunId) (Some earthId) Hcam Hearth)
      as (Hfin & Hmin & _).
    fold (introController steppedClock) in F1, F2, F3, F4, F5, F6, F7, F8, F9,
      F10, F11, F12, F13, F14, Hfin, Hmin.
    generalize dependent (introController steppedClock). intros s0. intros.
    assert (Hsun : finiteVector (getPosition (demoWorld sunId)))
      by (unfold finiteVector, finite; simpl; repeat split).
    assert (Hn0 : clock s0 (clockReads s0) = Fin 0)
      by (rewrite F10, F11; reflexivity).
    assert (Hn1 : clock s0 (S (clockReads s0)) = Fin 0)
      by (rewrite F10, F11; reflexivity).
    assert (Hn2 : clock s0 (S (S (clockReads s0))) = Fin 1500)
      by (rewrite F10, F11; reflexivity).
    destruct (sun_lock_beyond_maximum demoWorld s0 sunId 15 2 20 0 1500
                Hfin Hmin F14 F1 F2 F3 F4 F9 Hn0 Hn1 Hn2 ltac:(lra) Hsun eq_refl
                ltac:(lra) ltac:(lra) ltac:(lra))
      as (Hmax' & Hmin' & Hrad' & _).
    replace (15 * 2.5) with 37.5 in Hmin', Hrad' by lra.
    split; [exact Hmax' |]. split; [exact Hmin' |]. split; [exact Hrad' |].
    unfold withinBounds. rewrite Hmax', Hrad'. simpl. lra.
  - cbv zeta. rewrite !run_cons, run_nil. rewrite step_SetZoomLimits.
    destruct (constructor_fields demoWorld newCamera origin (Fin 80)
                (Fin 500) stillClock (Some sunId) (Some earthId))
      as (F1 & _).
    assert (Hcam : finiteVector (position newCamera))
      by (unfold finiteVector, finite; simpl; repeat split).
    assert (Horigin : finiteVector origin)
      by (unfold finiteVector, finite; simpl; repeat split).
    destruct (constructor_finiteView demoWorld newCamera origin 80 500
                stillClock (Some sunId) (Some earthId) Hcam Horigin)
      as (Hfin & _).
    fold (demoController stillClock) in F1, Hfin.
    generalize dependent (demoController stillClock). intros s0. intros.
    destruct (setZoomLimits_crossed demoWorld s0 300 100 Hfin F1 ltac:(lra))
      as (Hmin' & Hmax' & Hrad').
    split; [exact Hmax' |]. split; [exact Hmin' |]. split; [exact Hrad' |].
    unfold withinBounds. rewrite Hmax', Hrad'. simpl. lra.
Qed.

Lemma demoWorld_room (M : R) : 37.5 <= M -> worldRoom M demoWorld.
Proof.
  intros HMbig b. unfold demoWorld.
  destruct b as [| [| b]]; simpl; unfold finiteVector, finite; simpl;
    repeat split; lra.
Qed.

(** C3, amended.  Let [room] be at least 2.5 times the radius of every
    object the camera can lock onto, an object without a [radius]
    property counting for the radius 15 that the controller takes for the
    sun.  The controller is built with finite arguments,
    [minDistance <= maxDistance] and [room <= maxDistance], and every
    [setZoomLimits(mn, mx)] has [mn <= mx] and [room <= mx].  Then after
    any sequence of operations with finite arguments and positive
    durations [minDistance <= radius <= maxDistance] and
    [0.01 <= phi <= PI - 0.01], the ends of the range of [phi]
    included. *)
Theorem camera_bounds_closed
    (room M : R) (w : World) (cam : Camera) (tgt : Vector3) (minD : num)
    (clk : nat -> num) (sunI earthI : option BodyId) (ops : list (World * Op)) :
  room <= M -> worldRoom room w ->
  CameraProps.le minD (Fin M) ->
  finiteVector (position cam) -> finiteVector tgt ->
  (forall n, finite (clk n)) ->
  Forall (fun wo => worldRoom room (fst wo) /\ opWithin room (snd wo)) ops ->
  withinBounds
    (run ops (setTargetObjects sunI earthI (constructor w cam tgt minD (Fin M) clk))).
Proof.
  intros HroomM Hworld Hmin0 Hcam Htgt Hclock Hops.
  destruct (run_within room ops
              (setTargetObjects sunI earthI
                 (constructor w cam tgt minD (Fin M) clk)) Hops)
    as (M' & _ & _ & Hbounds); [| exact Hbounds].
  exists M. split; [exact HroomM |].
  assert (HwM : worldRoom M w) by (apply (worldRoom_mono room); assumption).
  pose proof (constructor_invariant_for M w cam tgt minD clk HwM Hmin0 Hcam
                Htgt Hclock) as Hinv.
  clear HroomM Hworld Hmin0 Hcam Htgt Hclock Hops HwM.
  generalize dependent (constructor w cam tgt minD (Fin M) clk).
  intros s Hinv. unfold setTargetObjects. steady_by_computation_for s Hinv.
Qed.

Lemma camera_bounds_closed_witness :
  withinBounds
    (run [(demoWorld, OnWheel (Fin 100)); (demoWorld, OnKeyDown Digit1);
          (demoWorld, AnimationFrame 0);
          (demoWorld, SetZoomLimits (Fin 40) (Fin 300))]
       (setTargetObjects (Some sunId) (Some earthId)
          (constructor demoWorld newCamera origin (Fin 80) (Fin 500) steppedClock))).
Proof.
  apply (camera_bounds_closed 37.5 500).
  - lra.
  - apply demoWorld_room. lra.
  - simpl. lra.
  - unfold finiteVector, finite; simpl; repeat split.
  - unfold finiteVector, finite; simpl; repeat split.
  - intros n. unfold steppedClock.
    destruct n as [| [| [| [| [| n]]]]]; reflexivity.
  - repeat (constructor;
              [split; [apply demoWorld_room; lra
                      | first [reflexivity | exact I
                              | exists 300; simpl; repeat split; lra]] |]).
    constructor.
Defined.
(** ** Transitions that overlap *)

Lemma overlapClock_finite (n : nat) : finite (overlapClock n).
Proof. do 4 (destruct n as [| n]; [reflexivity |]). reflexivity. Qed.

Lemma step_LockOntoSunWithTransition (w : World) (d : num) (s : State) :
  step w (LockOntoSunWithTransition d) s = lockOntoSunWithTransition w d s.
Proof. reflexivity. Qed.

Lemma step_LockOntoEarthWithTransition (w : World) (d : num) (s : State) :
  step w (LockOntoEarthWithTransition d) s = lockOntoEarthWithTransition w d s.
Proof. reflexivity. Qed.

(** [lockOntoSunWithTransition] when the sun is known and the mode is not
    ['sun']: whether a transition is in flight is not looked at. *)
Lemma lockOntoSunWithTransition_start (w : World) (d : num) (s : State)
    (b : BodyId) :
  sunInstance s = Some b -> LockMode_eqb (lockMode s) sun = false ->
  lockOntoSunWithTransition w d s =
  transitionToTarget w b (Fin 45) CompleteSun d
    (set_lockMode none (set_lockedTarget None s)).
Proof.
  intros Hb Hmode. unfold lockOntoSunWithTransition. rewrite Hb, Hmode. cbv zeta.
  replace (Fin 15 * Fin 3)%num with (Fin 45); [reflexivity |].
  simpl. f_equal. lra.
Qed.

Lemma lockOntoEarthWithTransition_start (w : World) (d : num) (s : State)
    (e : BodyId) :
  earthInstance s = Some e -> LockMode_eqb (lockMode s) earth = false ->
  lockOntoEarthWithTransition w d s =
  transitionToTarget w e (Fin 5) CompleteEarth d
    (set_lockMode none (set_lockedTarget None s)).
Proof.
  intros He Hmode. unfold lockOntoEarthWithTransition. rewrite He, Hmode. cbv zeta.
  replace (Fin 1 * Fin 5)%num with (Fin 5); [reflexivity |].
  simpl. f_equal. lra.
Qed.

(** The lock that a completion callback sets. *)
Lemma complete_lock (w : World) (c : Completion) (s : State) :
  lockedTarget (complete w c s) =
    match c with
    | CompleteSun => sunInstance s
    | CompleteEarth => earthInstance s
    | CompleteMeteor m => Some m
    end /\
  lockMode (complete w c s) =
    match c with
    | CompleteSun => sun
    | CompleteEarth => earth
    | CompleteMeteor _ => meteor
    end /\
  isTransitioning (complete w c s) = isTransitioning s /\
  frames (complete w c s) = frames s.
Proof.
  unfold complete.
  destruct c; cbv zeta;
    match goal with
    | |- context [updateMinDistanceForTarget w ?s1] =>
        pose proof (updateMinDistanceForTarget_sameControl w s1) as Hsame;
        generalize dependent (updateMinDistanceForTarget w s1); intros v Hsame
    end;
    unfold sameControl in Hsame; simpl in Hsame;
    destruct Hsame as (V1 & V2 & V3 & V4 & V5 & V6 & V7 & V8 & V9 & V10 &
                       V11 & V12 & V13 & V14 & V15 & V16);
    simpl; repeat split; assumption.
Qed.

(** ** Navigation in the list of meteors *)

(** One call of [animate] either registers the callback again or ends the
    transition with the lock its callback sets; the list of meteors and
    the place in it are not touched. *)
Lemma animate_outcome (w : World) (a : Animation) (s : State) :
  currentMeteorIndex (animate w a s) = currentMeteorIndex s /\
  meteorsList (animate w a s) = meteorsList s /\
  ((isTransitioning (animate w a s) = isTransitioning s /\
    frames (animate w a s) = frames s ++ [a]) \/
   (isTransitioning (animate w a s) = false /\
    forall m, onComplete a = CompleteMeteor m ->
      lockedTarget (animate w a s) = Some m /\ lockMode (animate w a s) = meteor)).
Proof.
  unfold animate, dateNow. cbv zeta.
  match goal with
  | |- context [update w ?s5] =>
      pose proof (update_sameControl w s5) as Hsame;
      generalize dependent (update w s5); intros u Hsame
  end.
  unfold sameControl, interpolate in Hsame. simpl in Hsame.
  destruct Hsame as (H1 & H2 & H3 & H4 & H5 & H6 & H7 & H8 & H9 & H10 & H11 &
                     H12 & H13 & H14 & H15 & H16).
  destruct (JsNum.lt _ _).
  - simpl. repeat split; try assumption. left. split; congruence.
  - unfold complete.
    destruct (onComplete a) as [| | m0]; cbv zeta;
      match goal with
      | |- context [updateMinDistanceForTarget w ?s1] =>
          pose proof (updateMinDistanceForTarget_sameControl w s1) as Hsame;
          generalize dependent (updateMinDistanceForTarget w s1); intros v Hsame
      end;
      unfold sameControl in Hsame; simpl in Hsame;
      destruct Hsame as (V1 & V2 & V3 & V4 & V5 & V6 & V7 & V8 & V9 & V10 &
                         V11 & V12 & V13 & V14 & V15 & V16);
      simpl; (split; [congruence |]); (split; [congruence |]); right;
      (split; [exact V3 |]); intros m Hm; try discriminate Hm.
    injection Hm as ->. split; assumption.
Qed.

(** [lockOntoMeteorByIndex] at a place of a list without repetition. *)
Lemma lockOntoMeteorByIndex_nth (w : World) (k : nat) (m : BodyId) (d : num)
    (s : State) :
  NoDup (meteorsList s) -> nth_error (meteorsList s) k = Some m ->
  lockOntoMeteorByIndex w (Z.of_nat k) d s =
  lockOntoMeteor w (Some m) d
    (set_currentMeteor (Some m) (set_currentMeteorIndex (Z.of_nat k) s)).
Proof.
  intros Hnd Hk. unfold lockOntoMeteorByIndex.
  assert (Hlen : (k < List.length (meteorsList s))%nat)
    by (apply nth_error_Some; congruence).
  destruct (List.length (meteorsList s) =? 0)%nat eqn:E0;
    [apply Nat.eqb_eq in E0; lia |].
  destruct ((Z.of_nat k <? 0)%Z || (Z.of_nat (List.length (meteorsList s)) <=? Z.of_nat k)%Z)
    eqn:E1.
  { apply orb_prop in E1. destruct E1 as [E1 | E1];
      [apply Z.ltb_lt in E1 | apply Z.leb_le in E1]; lia. }
  cbv zeta. simpl meteorsList. rewrite Nat2Z.id, Hk.
  unfold setCurrentMeteor. simpl meteorsList.
  rewrite (indexOf_nth_error _ k m Hnd Hk).
  destruct (Z.of_nat k =? -1)%Z eqn:E2; [apply Z.eqb_eq in E2; lia |].
  reflexivity.
Qed.

(** [lockOntoMeteor] on a meteor with a radius whose [instantiateMesh]
    returns, the camera not being locked onto it. *)
Lemma lockOntoMeteor_start (w : World) (m : BodyId) (d : num) (s : State) (q : R) :
  LockMode_eqb (lockMode s) meteor && sameBody (lockedTarget s) m = false ->
  instantiateMesh (w m) = MeshReturns ->
  bodyRadius (w m) = Some (Fin q) -> q <> 0 ->
  lockOntoMeteor w (Some m) d s =
  transitionToTarget w m (Fin (q * 4)) (CompleteMeteor m) d
    (set_lockMode none (set_lockedTarget None (emit (InstantiateMesh m) s))).
Proof.
  intros Hfree Hmesh Hq Hq0. unfold lockOntoMeteor. rewrite Hfree, Hmesh, Hq.
  cbv zeta.
  assert (Ht : truthy (Fin q) = true).
  { unfold truthy, Reqb. destruct (Req_dec_T q 0); [contradiction | reflexivity]. }
  rewrite Ht. reflexivity.
Qed.

(** The key for the next meteor, outside a transition and before the end
    of the list. *)
Lemma onKeyDown_ArrowRight (w : World) (s : State) (i : nat) :
  isTransitioning s = false -> currentMeteorIndex s = Z.of_nat i ->
  (S i < List.length (meteorsList s))%nat ->
  onKeyDown w ArrowRight s =
  lockOntoMeteorByIndex w (Z.of_nat (S i)) (Fin 1500) s.
Proof.
  intros HiT Hidx Hlen. unfold onKeyDown. rewrite HiT, Hidx.
  assert (E1 : (0 <? List.length (meteorsList s))%nat = true)
    by (apply Nat.ltb_lt; lia).
  assert (E2 : (Z.of_nat i <? Z.of_nat (List.length (meteorsList s)) - 1)%Z = true)
    by (apply Z.ltb_lt; lia).
  rewrite E1, E2. simpl andb. cbv iota.
  replace (Z.of_nat i + 1)%Z with (Z.of_nat (S i)) by lia. reflexivity.
Qed.

(** The key for the previous meteor, outside a transition and after the
    start of the list. *)
Lemma onKeyDown_ArrowLeft (w : World) (s : State) (j : nat) :
  isTransitioning s = false -> currentMeteorIndex s = Z.of_nat (S j) ->
  (0 < List.length (meteorsList s))%nat ->
  onKeyDown w ArrowLeft s =
  lockOntoMeteorByIndex w (Z.of_nat j) (Fin 1500) s.
Proof.
  intros HiT Hidx Hlen. unfold onKeyDown. rewrite HiT, Hidx.
  assert (E1 : (0 <? List.length (meteorsList s))%nat = true)
    by (apply Nat.ltb_lt; lia).
  assert (E2 : (0 <? Z.of_nat (S j))%Z = true) by (apply Z.ltb_lt; lia).
  rewrite E1, E2. simpl andb. cbv iota.
  replace (Z.of_nat (S j) - 1)%Z with (Z.of_nat j) by lia. reflexivity.
Qed.

(** The call of [transitionToTarget] runs the first frame of the
    transition; when the two readings of the clock are less than the
    duration apart, that frame registers the closure again and changes
    only the view. *)
Lemma transitionToTarget_started (w : World) (obj : BodyId) (g : num)
    (c : Completion) (d : R) (s : State) :
  0 < d -> readsWithin d s ->
  exists a : Animation,
    sameControl
      (set_frames (frames s ++ [a])
         (set_clockReads (S (S (clockReads s))) (set_isTransitioning true s)))
      (transitionToTarget w obj g c (Fin d) s) /\
    targetObject a = obj /\ onComplete a = c /\ duration a = Fin d.
Proof.
  intros Hdur (t0 & t1 & Hn0 & Hn1 & Hclose).
  set (a := mkAnimation obj g c (Fin d) (target s) (theta (spherical s))
              (phi (spherical s)) (radius (spherical s)) (Fin t0)).
  set (s2 := set_clockReads (S (clockReads s)) (set_isTransitioning true s)).
  assert (E : transitionToTarget w obj g c (Fin d) s = animate w a s2).
  { unfold transitionToTarget, dateNow. cbv zeta.
    change (clock (set_isTransitioning true s)
              (clockReads (set_isTransitioning true s)))
      with (clock s (clockReads s)).
    rewrite Hn0. reflexivity. }
  exists a. rewrite E. clear E.
  split; [| repeat split].
  assert (Hp : (t1 - t0) / d < 1).
  { apply (Rmult_lt_reg_r d); [exact Hdur |].
    unfold Rdiv. rewrite Rmult_assoc, Rinv_l by lra. lra. }
  rewrite (animate_pending w a s2 t1 (Rmin ((t1 - t0) / d) 1)).
  - match goal with
    | |- context [update w ?s5] =>
        pose proof (update_sameControl w s5) as Hsame;
        generalize dependent (update w s5); intros u Hsame
    end.
    unfold sameControl, interpolate in Hsame |- *. simpl in Hsame |- *.
    destruct Hsame as (H1 & H2 & H3 & H4 & H5 & H6 & H7 & H8 & H9 & H10 & H11 &
                       H12 & H13 & H14 & H15 & H16).
    rewrite H9. repeat split; assumption.
  - exact Hn1.
  - apply (progressAt_value a t1 t0 d); [reflexivity | reflexivity | exact Hdur].
  - unfold Rmin. destruct (Rle_dec _ _); lra.
Qed.

(** [lockOntoMeteor] outside a transition, when [instantiateMesh] does
    not throw: the list and the place in it are left alone, and a lock
    transition onto the meteor is started unless the camera is locked
    onto it already. *)
Lemma lockOntoMeteor_navigated (w : World) (m : BodyId) (s : State) :
  isTransitioning s = false -> instantiateMesh (w m) <> MeshThrows ->
  readsWithin 1500 s ->
  currentMeteorIndex (lockOntoMeteor w (Some m) (Fin 1500) s) =
    currentMeteorIndex s /\
  currentMeteor (lockOntoMeteor w (Some m) (Fin 1500) s) = currentMeteor s /\
  meteorsList (lockOntoMeteor w (Some m) (Fin 1500) s) = meteorsList s /\
  if alreadyLockedOnto m s
  then lockedTarget (lockOntoMeteor w (Some m) (Fin 1500) s) = Some m /\
       lockMode (lockOntoMeteor w (Some m) (Fin 1500) s) = meteor /\
       isTransitioning (lockOntoMeteor w (Some m) (Fin 1500) s) = false /\
       frames (lockOntoMeteor w (Some m) (Fin 1500) s) = frames s
  else transitionStarted m s (lockOntoMeteor w (Some m) (Fin 1500) s).
Proof.
  intros HiT Hmesh Hreads. unfold lockOntoMeteor, alreadyLockedOnto.
  destruct (LockMode_eqb (lockMode s) meteor && sameBody (lockedTarget s) m)
    eqn:Hlocked.
  - apply andb_prop in Hlocked. destruct Hlocked as [Hmode Hbody].
    repeat split; try assumption.
    + unfold sameBody in Hbody. destruct (lockedTarget s) as [b |];
        [| discriminate Hbody].
      apply Nat.eqb_eq in Hbody. congruence.
    + destruct (lockMode s); try discriminate Hmode. reflexivity.
  - destruct (instantiateMesh (w m)); [| | contradiction Hmesh; reflexivity];
      cbv zeta;
      match goal with
      | |- context [transitionToTarget w m ?g (CompleteMeteor m) (Fin 1500) ?s1] =>
          destruct (transitionToTarget_started w m g (CompleteMeteor m) 1500 s1)
            as (a & Hsame & Ha1 & Ha2 & Ha3);
          [ lra | exact Hreads
          | generalize dependent
              (transitionToTarget w m g (CompleteMeteor m) (Fin 1500) s1);
            intros s' Hsame ]
      end;
      unfold sameControl in Hsame; simpl in Hsame;
      destruct Hsame as (H1 & H2 & H3 & H4 & H5 & H6 & H7 & H8 & H9 & H10 &
                         H11 & H12 & H13 & H14 & H15 & H16);
      (split; [exact H8 |]); (split; [exact H6 |]); (split; [exact H7 |]);
      unfold transitionStarted;
      (split; [exact H3 |]); (split; [exact H1 |]); (split; [exact H2 |]);
      exists a; repeat split; assumption.
Qed.

(** [lockOntoMeteorByIndex] with the default duration at a place of a
    list without repetition. *)
Lemma lockOntoMeteorByIndex_navigated (w : World) (k : nat) (m : BodyId)
    (s : State) :
  isTransitioning s = false -> NoDup (meteorsList s) ->
  nth_error (meteorsList s) k = Some m ->
  instantiateMesh (w m) <> MeshThrows -> readsWithin 1500 s ->
  navigatedTo (Z.of_nat k) m s (lockOntoMeteorByIndex w (Z.of_nat k) (Fin 1500) s).
Proof.
  intros HiT Hnd Hk Hmesh Hreads.
  rewrite (lockOntoMeteorByIndex_nth w k m (Fin 1500) s Hnd Hk).
  match goal with
  | |- context [lockOntoMeteor w (Some m) (Fin 1500) ?s1] =>
      destruct (lockOntoMeteor_navigated w m s1 HiT Hmesh Hreads)
        as (Hidx & Hcur & Hlist & Hlock);
      generalize dependent (lockOntoMeteor w (Some m) (Fin 1500) s1);
      intros s' Hidx Hcur Hlist Hlock
  end.
  unfold navigatedTo. unfold alreadyLockedOnto in *. simpl in *.
  repeat split; assumption.
Qed.

(** C8 as stated fails: with three meteors in the list, the key for the
    next meteor moves the index from 0 to 1 and starts a transition, and
    the same key pressed again during that transition is ignored; the
    index stays at 1. *)
Theorem next_key_ignored_during_transition :
  let s1 := run [(demoWorld, SetMeteorsList [2; 3; 4]%nat);
                 (demoWorld, OnKeyDown ArrowRight)]
                (demoController stillClock) in
  let s2 := step demoWorld (OnKeyDown ArrowRight) s1 in
  meteorsList s1 = [2; 3; 4]%nat /\ currentMeteorIndex s1 = 1%Z /\
  isTransitioning s1 = true /\ currentMeteorIndex s2 = 1%Z.
Proof.
  cbv zeta. rewrite !run_cons, run_nil.
  rewrite step_SetMeteorsList, !step_OnKeyDown.
  pose proof (demoController_invariant stillClock stillClock_finite) as Hinv0.
  destruct (constructor_fields demoWorld newCamera origin (Fin 80) (Fin 500)
              stillClock (Some sunId) (Some earthId))
    as (F1 & F2 & F3 & F4 & F5 & F6 & F7 & F8 & F9 & F10 & F11 & F12 & F13 & F14).
  destruct (demoController_distances stillClock) as (D1 & D2 & D3).
  fold (demoController stillClock) in F1, F2, F3, F4, F5, F6, F7, F8, F9, F10,
    F11, F12, F13, F14.
  generalize dependent (demoController stillClock). intros s0. intros.
  assert (Hnd : NoDup [2; 3; 4]%nat)
    by (repeat constructor; simpl; intuition discriminate).
  rewrite (onKeyDown_ArrowRight demoWorld (setMeteorsList [2; 3; 4]%nat s0) 0)
    by (try exact F3; try reflexivity; simpl; lia).
  rewrite (lockOntoMeteorByIndex_nth demoWorld 1 3%nat (Fin 1500)
             (setMeteorsList [2; 3; 4]%nat s0) Hnd eq_refl).
  rewrite (lockOntoMeteor_start demoWorld 3%nat (Fin 1500) _ 0.1);
    [ | simpl; rewrite F2; reflexivity | reflexivity | reflexivity | lra ].
  match goal with
  | |- context [transitionToTarget demoWorld 3%nat _ _ _ ?s] =>
      assert (Hinv0' : invariant 500 s)
        by (unfold emit, setMeteorsList; steady_by_computation s0 Hinv0);
      set (pre := s) in *
  end.
  assert (Hp0 : 0 = Rmin ((0 - 0) / 1500) 1)
    by (unfold Rmin; destruct (Rle_dec _ _); lra).
  assert (Hstart :=
    transitionToTarget_pending 500 demoWorld 3%nat (0.1 * 4)
      (CompleteMeteor 3%nat) 1500 pre 0 0 0 0 80 80 500
      demoController_world Hinv0' eq_refl D1 F14
      ltac:(unfold pre; simpl; rewrite F10; reflexivity)
      ltac:(unfold pre; simpl; rewrite F10; reflexivity)
      ltac:(lra) Hp0 ltac:(lra) ease_zero D3).
  cbv zeta in Hstart. destruct Hstart as (Hsame & _).
  generalize dependent
    (transitionToTarget demoWorld 3%nat (Fin (0.1 * 4)) (CompleteMeteor 3%nat)
       (Fin 1500) pre).
  intros s1 Hsame. unfold sameControl in Hsame. simpl in Hsame.
  destruct Hsame as (H1 & H2 & H3 & H4 & H5 & H6 & H7 & H8 & H9 & H10 & H11 &
                     H12 & H13 & H14 & H15 & H16).
  split; [exact H7 |]. split; [exact H8 |]. split; [exact H3 |].
  unfold onKeyDown. rewrite H3. exact H8.
Qed.

(** C8, amended.  While [isTransitioning] is set, every key is ignored.
    Outside a transition, with a list of [n] distinct meteors and the
    index [i] within it: the key for the next meteor leaves the
    controller as it is when [i] is the last place, and otherwise moves
    the index to [i + 1]; the key for the previous meteor leaves the
    controller as it is when [i] is 0, and otherwise moves the index to
    [i - 1]; the key for the first meteor sets the index to 0.  Each move
    makes the meteor at the new index the current meteor and starts a
    lock transition onto it (the lock is cleared, [isTransitioning] is
    set, the closure of the transition is registered), unless the camera
    is locked onto that meteor already and stays so; this when
    [instantiateMesh] on the meteor does not throw and the two readings
    of [Date.now()] in the call are less than 1500 ms apart. *)
Theorem meteor_navigation (w : World) (s : State) (i : nat) :
  NoDup (meteorsList s) ->
  (i < List.length (meteorsList s))%nat ->
  currentMeteorIndex s = Z.of_nat i ->
  (isTransitioning s = true -> forall code : Key, onKeyDown w code s = s) /\
  (isTransitioning s = false ->
   (S i = List.length (meteorsList s) -> onKeyDown w ArrowRight s = s) /\
   (i = 0%nat -> onKeyDown w ArrowLeft s = s) /\
   (forall m, nth_error (meteorsList s) (S i) = Some m ->
      instantiateMesh (w m) <> MeshThrows -> readsWithin 1500 s ->
      navigatedTo (Z.of_nat (S i)) m s (onKeyDown w ArrowRight s)) /\
   (forall j m, i = S j -> nth_error (meteorsList s) j = Some m ->
      instantiateMesh (w m) <> MeshThrows -> readsWithin 1500 s ->
      navigatedTo (Z.of_nat j) m s (onKeyDown w ArrowLeft s)) /\
   (forall m, nth_error (meteorsList s) 0 = Some m ->
      instantiateMesh (w m) <> MeshThrows -> readsWithin 1500 s ->
      navigatedTo 0%Z m s (onKeyDown w KeyA s))).
Proof.
  intros Hnd Hlen Hidx. split.
  { intros HiT code. unfold onKeyDown. rewrite HiT. reflexivity. }
  intros HiT.
  split; [| split; [| split; [| split]]].
  - intros Hlast. unfold onKeyDown. rewrite HiT, Hidx.
    assert (E : (Z.of_nat i <? Z.of_nat (List.length (meteorsList s)) - 1)%Z = false)
      by (apply Z.ltb_ge; lia).
    rewrite E, andb_false_r. reflexivity.
  - intros Hi. subst i. unfold onKeyDown. rewrite HiT, Hidx.
    rewrite andb_false_r. reflexivity.
  - intros m Hm Hmesh Hreads.
    assert (Hnext : (S i < List.length (meteorsList s))%nat)
      by (apply nth_error_Some; congruence).
    rewrite (onKeyDown_ArrowRight w s i HiT Hidx Hnext).
    exact (lockOntoMeteorByIndex_navigated w (S i) m s HiT Hnd Hm Hmesh Hreads).
  - intros j m Hj Hm Hmesh Hreads. subst i.
    rewrite (onKeyDown_ArrowLeft w s j HiT Hidx) by lia.
    exact (lockOntoMeteorByIndex_navigated w j m s HiT Hnd Hm Hmesh Hreads).
  - intros m Hm Hmesh Hreads. unfold onKeyDown. rewrite HiT.
    destruct (meteorsList s) as [| firstMeteor rest] eqn:Hl; [discriminate Hm |].
    injection Hm as ->. cbv zeta.
    assert (Hcur : setCurrentMeteor (Some m) s =
                   set_currentMeteor (Some m) (set_currentMeteorIndex 0%Z s)).
    { unfold setCurrentMeteor. rewrite Hl. simpl. rewrite Nat.eqb_refl.
      reflexivity. }
    rewrite Hcur.
    assert (Hreturns :
      lockOntoMeteorThrows w (Some m)
        (set_currentMeteor (Some m) (set_currentMeteorIndex 0%Z s)) = false).
    { unfold lockOntoMeteorThrows. destruct (_ && _); [reflexivity |].
      destruct (instantiateMesh (w m)); try reflexivity.
      contradiction Hmesh; reflexivity. }
    rewrite Hreturns.
    match goal with
    | |- context [lockOntoMeteor w (Some m) (Fin 1500) ?s1] =>
        destruct (lockOntoMeteor_navigated w m s1 HiT Hmesh Hreads)
          as (Hi & Hc & Hlist & Hlock);
        generalize dependent (lockOntoMeteor w (Some m) (Fin 1500) s1);
        intros s' Hi Hc Hlist Hlock
    end.
    unfold navigatedTo, transitionStarted, alreadyLockedOnto, emit in *.
    simpl in *. rewrite Hl in *.
    repeat split; try assumption.
Qed.

Lemma meteor_navigation_witness :
  let s := Samples.touringController in
  (isTransitioning s = true ->
   forall code : Key, onKeyDown demoWorld code s = s) /\
  (isTransitioning s = false ->
   (1%nat = List.length (meteorsList s) -> onKeyDown demoWorld ArrowRight s = s) /\
   (0%nat = 0%nat -> onKeyDown demoWorld ArrowLeft s = s) /\
   (forall m, nth_error (meteorsList s) 1 = Some m ->
      instantiateMesh (demoWorld m) <> MeshThrows -> readsWithin 1500 s ->
      navigatedTo 1%Z m s (onKeyDown demoWorld ArrowRight s)) /\
   (forall j m, 0%nat = S j -> nth_error (meteorsList s) j = Some m ->
      instantiateMesh (demoWorld m) <> MeshThrows -> readsWithin 1500 s ->
      navigatedTo (Z.of_nat j) m s (onKeyDown demoWorld ArrowLeft s)) /\
   (forall m, nth_error (meteorsList s) 0 = Some m ->
      instantiateMesh (demoWorld m) <> MeshThrows -> readsWithin 1500 s ->
      navigatedTo 0%Z m s (onKeyDown demoWorld KeyA s))).
Proof.
  apply (meteor_navigation demoWorld Samples.touringController 0).
  - simpl. repeat constructor; simpl; intuition discriminate.
  - simpl. lia.
  - reflexivity.
Defined.

End CameraSpec.

(** * Further properties of the meteors *)

Module MeteorExtra.
Import JsRandom Three Meteor MeteorFacts MeteorObject.

(** ** The geoid *)

(** X20.  For a positive radius, every vertex of the geoid lies between
    0.79 and 0.91 times the radius from the centre, on the ray of the
    vertex of the sphere it comes from: the rock never reaches the
    sphere of its nominal radius. *)
Theorem geoid_stays_inside_nominal_sphere (radius : R) (segments : nat)
    (g : Rng) (i : nat) (v : Vector3) :
  0 < radius ->
  nth_error (fst (createGeoidGeometry radius segments g)) i = Some v ->
  0.79 * radius <= length v <= 0.91 * radius /\
  exists (v0 : Vector3) (k : R),
    nth_error (SphereGeometry radius segments segments) i = Some v0 /\
    0 < k /\ v = multiplyScalar v0 k.
Proof.
  intros Hr Hv. unfold createGeoidGeometry, random in Hv.
  cbv zeta in Hv. cbn [fst snd] in Hv.
  rewrite nth_error_map in Hv.
  destruct (nth_error (SphereGeometry radius segments segments) i) as [v0 |] eqn:Hv0;
    [| discriminate Hv].
  simpl in Hv. injection Hv as <-.
  assert (Hlen : length v0 = radius).
  { apply nth_error_In in Hv0. apply In_SphereGeometry in Hv0.
    destruct Hv0 as (ix & iy & ->).
    rewrite length_sphereVertex. apply Rabs_right. lra. }
  pose proof (deformation_bound (normalize v0) (draws g (cursor g) * 1000)) as Hd.
  split.
  - rewrite length_displace by lra. nra.
  - exists v0. eexists. split; [reflexivity |]. split; [| reflexivity].
    rewrite Hlen. apply Rdiv_lt_0_compat; [| exact Hr]. nra.
Qed.

Lemma geoid_stays_inside_nominal_sphere_witness :
  0.79 * 1 <= length (displace 1 (0.042 * 1000) (mkVector3 0 1 0)) <= 0.91 * 1 /\
  exists (v0 : Vector3) (k : R),
    nth_error (SphereGeometry 1 8 8) 0 = Some v0 /\
    0 < k /\ displace 1 (0.042 * 1000) (mkVector3 0 1 0) = multiplyScalar v0 k.
Proof.
  apply (geoid_stays_inside_nominal_sphere 1 8 (constant 0.042) 0).
  - lra.
  - rewrite MeteorSpec.createGeoidGeometry_positions.
    rewrite nth_error_map, MeteorSpec.SphereGeometry_head. reflexivity.
Defined.

(** ** Preprocessed geometries *)

Lemma Int_part_range (v : R) (n : Z) :
  0 <= v < IZR n -> (0 <= Int_part v < n)%Z.
Proof.
  intros [Hlo Hhi]. destruct (base_Int_part v) as [H1 H2]. split.
  - assert (IZR (-1) < IZR (Int_part v)) by (simpl; lra).
    apply lt_IZR in H. lia.
  - apply lt_IZR. lra.
Qed.

Lemma randomIndexOf_in_bounds (r : R) (n : nat) :
  0 <= r < 1 -> (0 < n)%nat -> (randomIndexOf r n < n)%nat.
Proof.
  intros [Hlo Hhi] Hn. unfold randomIndexOf.
  assert (Hpos : 0 < INR n) by (apply lt_0_INR; exact Hn).
  assert (Hrange : 0 <= r * INR n < IZR (Z.of_nat n)).
  { rewrite <- INR_IZR_INZ. split; nra. }
  apply Int_part_range in Hrange. lia.
Qed.

(** X21.  With [n > 0] preprocessed geometries and at least as many
    materials, [createMeteorMesh] never reads outside the two arrays: it
    returns one of the geometries scaled by [radius / 0.3] in every
    direction, after exactly one draw from [Math.random]. *)
Theorem createMeteorMesh_picks_a_preprocessed_geometry (radius : R)
    (segments : nat) (geometries : list BufferGeometry) (materials : list nat)
    (g : Rng) :
  in_unit_interval g ->
  (0 < List.length geometries)%nat ->
  (List.length geometries <= List.length materials)%nat ->
  exists picked : BufferGeometry,
    In picked geometries /\
    createMeteorMesh radius segments
      (mkPreprocessed (Some geometries) (Some materials)) g =
    (Some (scale picked (radius / 0.3) (radius / 0.3) (radius / 0.3)),
     mkRng (draws g) (S (cursor g))).
Proof.
  intros Hunit Hn Hm. unfold createMeteorMesh. simpl.
  assert (E : (0 <? List.length geometries)%nat = true)
    by (apply Nat.ltb_lt; exact Hn).
  rewrite E.
  pose proof (randomIndexOf_in_bounds (draws g (cursor g))
                (List.length geometries) (Hunit (cursor g)) Hn) as Hidx.
  destruct (nth_error geometries _) as [picked |] eqn:Hg.
  2:{ apply nth_error_None in Hg. lia. }
  destruct (nth_error materials _) as [material |] eqn:Hmat.
  2:{ apply nth_error_None in Hmat. lia. }
  exists picked. split; [exact (nth_error_In _ _ Hg) | reflexivity].
Qed.

Lemma constant_in_unit_interval (u : R) : 0 <= u < 1 -> in_unit_interval (constant u).
Proof. intros H n. exact H. Qed.

Lemma createMeteorMesh_picks_a_preprocessed_geometry_witness :
  exists picked : BufferGeometry,
    In picked [[mkVector3 0 0.3 0]; [mkVector3 0.3 0 0]] /\
    createMeteorMesh 0.6 12
      (mkPreprocessed (Some [[mkVector3 0 0.3 0]; [mkVector3 0.3 0 0]])
         (Some [7; 8]%nat)) (constant 0.75) =
    (Some (scale picked (0.6 / 0.3) (0.6 / 0.3) (0.6 / 0.3)),
     mkRng (draws (constant 0.75)) (S (cursor (constant 0.75)))).
Proof.
  apply createMeteorMesh_picks_a_preprocessed_geometry.
  - apply constant_in_unit_interval. lra.
  - simpl. lia.
  - simpl. lia.
Defined.

(** X22.  Preprocessed geometries that come without a material for the
    picked index make [createMeteorMesh] throw: the function does not
    fall back on the geoid.  In particular an empty array of materials
    always throws. *)
Theorem createMeteorMesh_throws_without_material (radius : R) (segments : nat)
    (geometries : list BufferGeometry) (materials : list nat) (g : Rng) :
  (0 < List.length geometries)%nat ->
  (List.length materials <=
   randomIndexOf (draws g (cursor g)) (List.length geometries))%nat ->
  fst (createMeteorMesh radius segments
         (mkPreprocessed (Some geometries) (Some materials)) g) = None.
Proof.
  intros Hn Hshort. unfold createMeteorMesh. simpl.
  assert (E : (0 <? List.length geometries)%nat = true)
    by (apply Nat.ltb_lt; exact Hn).
  rewrite E.
  assert (Hmat : nth_error materials
                   (randomIndexOf (draws g (cursor g)) (List.length geometries))
                 = None) by (apply nth_error_None; exact Hshort).
  rewrite Hmat. destruct (nth_error geometries _); reflexivity.
Qed.

Lemma createMeteorMesh_throws_without_material_witness :
  fst (createMeteorMesh 0.6 12
         (mkPreprocessed (Some [[mkVector3 0 0.3 0]]) (Some [])) (constant 0.75))
  = None.
Proof.
  apply createMeteorMesh_throws_without_material.
  - simpl. lia.
  - simpl. lia.
Defined.

(** ** The mesh of a meteor *)

Lemma sceneRemove_absent (id : nat) (l : list nat) :
  ~ In id l -> sceneRemove id l = l.
Proof.
  induction l as [| a l IH]; intros Hnot; simpl; [reflexivity |].
  destruct (Nat.eqb a id) eqn:E.
  - apply Nat.eqb_eq in E. subst. contradiction Hnot. left. reflexivity.
  - rewrite IH; [reflexivity |]. intros Hin. apply Hnot. right. exact Hin.
Qed.

Lemma sceneRemove_last (id : nat) (l : list nat) :
  ~ In id l -> sceneRemove id (l ++ [id]) = l.
Proof.
  induction l as [| a l IH]; intros Hnot; simpl.
  - rewrite Nat.eqb_refl. reflexivity.
  - destruct (Nat.eqb a id) eqn:E.
    + apply Nat.eqb_eq in E. subst. contradiction Hnot. left. reflexivity.
    + rewrite IH; [reflexivity |]. intros Hin. apply Hnot. right. exact Hin.
Qed.

(** X23.  A call of [instantiateMesh] that returns on a meteor without a
    mesh gives it one mesh, placed at the position of the meteor, casting
    and receiving no shadow, and added to the scene; the position of the
    meteor is unchanged, and a second call changes nothing and draws
    nothing from [Math.random]. *)
Theorem instantiateMesh_builds_the_mesh_once (m m1 : Instance)
    (e e1 : Surroundings) :
  mesh m = None -> instantiateMesh m e = Returns (m1, e1) ->
  (exists k : Mesh,
     mesh m1 = Some k /\ meshPosition k = position m /\
     castShadow k = false /\ receiveShadow k = false /\
     In (meshId k) (children e1)) /\
  position m1 = position m /\
  instantiateMesh m1 e1 = Returns (m1, e1).
Proof.
  intros Hnone Hrun. unfold instantiateMesh in Hrun. rewrite Hnone in Hrun.
  destruct (createMeteorMesh _ _ _ _) as [[made |] g']; [| discriminate Hrun].
  cbv zeta in Hrun. injection Hrun as <- <-.
  destruct m as [r sg [px py pz] pp me]. simpl in *.
  split.
  - eexists. split; [reflexivity |]. simpl.
    repeat split. unfold addToScene, sceneAdd. simpl.
    apply in_or_app. right. left. reflexivity.
  - split; reflexivity.
Qed.

Lemma instantiateMesh_builds_the_mesh_once_witness :
  let m := mkInstance 0.2 3 (mkVector3 150 0 0) (mkPreprocessed None None) None in
  let e := mkSurroundings [] 0 (constant 0.042) in
  let m1 := fst (match instantiateMesh m e with Returns a | Throws a => a end) in
  let e1 := snd (match instantiateMesh m e with Returns a | Throws a => a end) in
  (exists k : Mesh,
     mesh m1 = Some k /\ meshPosition k = position m /\
     castShadow k = false /\ receiveShadow k = false /\
     In (meshId k) (children e1)) /\
  position m1 = position m /\
  instantiateMesh m1 e1 = Returns (m1, e1).
Proof.
  cbv zeta.
  apply (instantiateMesh_builds_the_mesh_once
           (mkInstance 0.2 3 (mkVector3 150 0 0) (mkPreprocessed None None) None)
           _ (mkSurroundings [] 0 (constant 0.042))).
  - reflexivity.
  - reflexivity.
Defined.

(** X24.  [removeMesh] undoes [instantiateMesh]: on a meteor without a
    mesh, creating the mesh and removing it leaves the meteor and the
    children of the scene as they were. *)
Theorem removeMesh_undoes_instantiateMesh (m m1 : Instance)
    (e e1 : Surroundings) :
  mesh m = None -> ~ In (nextId e) (children e) ->
  instantiateMesh m e = Returns (m1, e1) ->
  fst (removeMesh m1 e1) = m /\
  children (snd (removeMesh m1 e1)) = children e.
Proof.
  intros Hnone Hfresh Hrun. unfold instantiateMesh in Hrun. rewrite Hnone in Hrun.
  destruct (createMeteorMesh _ _ _ _) as [[made |] g']; [| discriminate Hrun].
  cbv zeta in Hrun. injection Hrun as <- <-.
  destruct m as [r sg [px py pz] pp me]. simpl in *. subst me.
  unfold removeMesh, removeFromScene, addToScene, sceneAdd. simpl.
  split; [reflexivity |].
  rewrite (sceneRemove_absent _ _ Hfresh). apply sceneRemove_last. exact Hfresh.
Qed.

Lemma removeMesh_undoes_instantiateMesh_witness :
  let m := mkInstance 0.2 3 (mkVector3 150 0 0) (mkPreprocessed None None) None in
  let e := mkSurroundings [4; 9]%nat 10 (constant 0.042) in
  let m1 := fst (match instantiateMesh m e with Returns a | Throws a => a end) in
  let e1 := snd (match instantiateMesh m e with Returns a | Throws a => a end) in
  fst (removeMesh m1 e1) = m /\
  children (snd (removeMesh m1 e1)) = children e.
Proof.
  cbv zeta.
  apply (removeMesh_undoes_instantiateMesh
           (mkInstance 0.2 3 (mkVector3 150 0 0) (mkPreprocessed None None) None)
           _ (mkSurroundings [4; 9]%nat 10 (constant 0.042))).
  - reflexivity.
  - simpl. intros [H | [H | H]]; [discriminate H | discriminate H | exact H].
  - reflexivity.
Defined.

(** ** Random orbits and random meteors *)

Lemma startOrbit_bounds (m : Instance) (center : Vector3) (speed : R) (g : Rng) :
  in_unit_interval g ->
  0.1 <= eccentricity (fst (startOrbit m center speed g)) < 0.4 /\
  180 <= period (fst (startOrbit m center speed g)) < 540 /\
  draws (snd (startOrbit m center speed g)) = draws g.
Proof.
  intros Hunit. unfold startOrbit, random. simpl.
  pose proof (Hunit (cursor g)) as H1.
  pose proof (Hunit (S (cursor g))) as H2.
  repeat split; lra.
Qed.

Lemma createRandomMeteor_bounds (minRadius maxRadius : R) (position : Vector3)
    (g : Rng) :
  in_unit_interval g -> minRadius <= maxRadius ->
  minRadius <= radiusGiven (fst (createRandomMeteor minRadius maxRadius position g))
    <= maxRadius /\
  (16 <= segmentsGiven (fst (createRandomMeteor minRadius maxRadius position g))
    <= 31)%Z /\
  positionGiven (fst (createRandomMeteor minRadius maxRadius position g)) =
    position /\
  draws (snd (createRandomMeteor minRadius maxRadius position g)) = draws g.
Proof.
  intros Hunit Hle. unfold createRandomMeteor, random. cbv zeta.
  cbn [fst snd radiusGiven segmentsGiven positionGiven cursor draws].
  pose proof (Hunit (cursor g)) as H1.
  pose proof (Hunit (S (cursor g))) as H2.
  assert (Hseg : (0 <= Int_part (draws g (S (cursor g)) * 16) < 16)%Z)
    by (apply Int_part_range; simpl; lra).
  repeat split; try reflexivity; try nra; try lia.
Qed.





(** ** A field of meteors *)

Section FieldFacts.
Import FieldProps.

Variable construct : Construction -> Instance.

Lemma fieldMeteor_inField (centerPosition : Vector3) (fieldRadius : R) (g g' : Rng)
    (entry : Construction * option OrbitParameters) :
  in_unit_interval g -> 0 <= fieldRadius ->
  fieldMeteor construct centerPosition fieldRadius g = (entry, g') ->
  inField centerPosition fieldRadius entry /\ draws g' = draws g.
Proof.
  intros Hunit Hfield Hrun. unfold fieldMeteor in Hrun.
  unfold random at 1 2 3 in Hrun. cbv zeta in Hrun.
  cbn [fst snd draws cursor] in Hrun.
  match type of Hrun with
  | context [createRandomMeteor 0.05 0.3 ?p ?g3] =>
      pose proof (createRandomMeteor_bounds 0.05 0.3 p g3) as Hmade;
      destruct (createRandomMeteor 0.05 0.3 p g3) as [made g4]
  end.
  cbv zeta in Hmade. cbn [fst snd draws cursor] in Hmade.
  assert (Hlim : 0.05 <= 0.3) by lra.
  destruct (Hmade Hunit Hlim) as (Hrad & Hseg & Hpos & Hdraws).
  clear Hmade.
  assert (Hunit4 : in_unit_interval g4).
  { intros n. rewrite Hdraws. apply Hunit. }
  unfold random at 1 in Hrun. cbn [fst snd draws cursor] in Hrun.
  assert (Hplace :
    (x (positionGiven made) - x centerPosition) *
    (x (positionGiven made) - x centerPosition) +
    (z (positionGiven made) - z centerPosition) *
    (z (positionGiven made) - z centerPosition) <= fieldRadius * fieldRadius /\
    Rabs (y (positionGiven made) - y centerPosition) <= 0.15 * fieldRadius).
  { rewrite Hpos. simpl.
    pose proof (Hunit (S (cursor g))) as H2.
    pose proof (Hunit (S (S (cursor g)))) as H3.
    set (angle := draws g (cursor g) * PI * 2).
    pose proof (sin2_cos2 angle) as Htrig. unfold Rsqr in Htrig.
    set (d := draws g (S (cursor g)) * fieldRadius).
    assert (Hd : 0 <= d <= fieldRadius) by (unfold d; split; nra).
    split.
    - replace ((x centerPosition + cos angle * d - x centerPosition) *
               (x centerPosition + cos angle * d - x centerPosition) +
               (z centerPosition + sin angle * d - z centerPosition) *
               (z centerPosition + sin angle * d - z centerPosition))
        with (d * d * (sin angle * sin angle + cos angle * cos angle)) by ring.
      rewrite Htrig. nra.
    - apply Rabs_le. split; nra. }
  destruct Hplace as [Hp1 Hp2].
  destruct (Rlt_dec 0.5 (draws g4 (cursor g4))).
  - unfold random at 1 in Hrun. cbn [fst snd draws cursor] in Hrun.
    match type of Hrun with
    | context [startOrbit ?m0 ?c0 ?sp ?g6] =>
        pose proof (startOrbit_bounds m0 c0 sp g6) as Horbit;
        destruct (startOrbit m0 c0 sp g6) as [orbit g7]
    end.
    cbv zeta in Horbit. cbn [fst snd draws cursor] in Horbit.
    destruct (Horbit Hunit4) as (Hecc & Hper & Hd7).
    injection Hrun as <- <-.
    split; [| rewrite Hd7; exact Hdraws].
    unfold inField. cbn [fst snd].
    repeat split; try assumption; try apply Hrad; try apply Hseg;
      try apply Hecc; try apply Hper.
  - injection Hrun as <- <-.
    split; [| exact Hdraws].
    unfold inField. cbn [fst snd].
    repeat split; try assumption; try apply Hrad; try apply Hseg.
Qed.


End FieldFacts.

End MeteorExtra.

(** * Further properties of progressive creation *)

Module ProgressiveExtra.
Import Progressive.

Section Batches.

Context {OrbitRecord Meteor : Type}.
Variable construct : nat -> OrbitRecord -> option Meteor.
Variable orbits : list (option OrbitRecord).

Lemma iterations_add (n m : nat) (st : State Meteor) :
  iterations construct orbits (n + m) st =
  iterations construct orbits m (iterations construct orbits n st).
Proof.
  revert st. induction n as [| n IH]; intros st; simpl; [reflexivity | apply IH].
Qed.

Lemma iterations_index_add (n : nat) (st : State Meteor) :
  index (iterations construct orbits n st) = (index st + n)%nat.
Proof. apply ProgressiveSpec.iterations_index. Qed.

Lemma run_in_one_pass (batchSize total timers : nat) :
  forall (st : State Meteor) (seen : list nat),
  (0 < batchSize)%nat -> (index st <= total)%nat ->
  (total <= index st + S timers * batchSize)%nat ->
  let out := run construct timers orbits batchSize total st seen in
  pending out = false /\
  state out = iterations construct orbits (total - index st) st.
Proof.
  induction timers as [| timers IH]; intros st seen Hb Hle Hfuel; simpl.
  - unfold createBatch.
    replace (Nat.min (index st + batchSize) total - index st)%nat
      with (total - index st)%nat by lia.
    rewrite iterations_index_add.
    replace (index st + (total - index st) <? total)%nat with false
      by (symmetry; apply Nat.ltb_ge; lia).
    simpl. split; reflexivity.
  - unfold createBatch.
    set (k := (Nat.min (index st + batchSize) total - index st)%nat).
    destruct (index (iterations construct orbits k st) <? total)%nat eqn:Hlt.
    + apply Nat.ltb_lt in Hlt. rewrite iterations_index_add in Hlt.
      specialize (IH (iterations construct orbits k st)
                     (seen ++ [List.length
                                 (meteors (iterations construct orbits k st))])
                     Hb).
      rewrite iterations_index_add in IH. cbv zeta in IH.
      destruct IH as [Hp Hs]; [lia | simpl in Hfuel; unfold k in *; lia |].
      split; [exact Hp |]. rewrite Hs, <- iterations_add. f_equal. lia.
    + apply Nat.ltb_ge in Hlt. rewrite iterations_index_add in Hlt.
      simpl. split; [reflexivity |]. f_equal. unfold k in *. lia.
Qed.

(** X28.  The batches change nothing in the result: for every positive
    batch size, once the timers have fired, the meteors and the count of
    failures are those of a single pass over the first
    [min(orbits.length, MAX_METEORS)] entries, in the order of the
    entries. *)
Theorem batches_give_the_result_of_one_pass (batchSize timers : nat) :
  (0 < batchSize)%nat -> orbits <> [] ->
  (Nat.min (List.length orbits) MAX_METEORS <= S timers * batchSize)%nat ->
  let out := createMeteorsFromOrbitsProgressive construct orbits true true
               batchSize timers in
  pending out = false /\
  state out =
    iterations construct orbits (Nat.min (List.length orbits) MAX_METEORS)
      (mkState 0 [] 0).
Proof.
  intros Hb Hne Hfuel. unfold createMeteorsFromOrbitsProgressive.
  destruct orbits as [| o rest] eqn:Ho; [contradiction Hne; reflexivity |].
  rewrite <- Ho in *. 
  replace ((List.length orbits =? 0)%nat || negb true || negb true) with false
    by (rewrite Ho; reflexivity).
  cbv zeta.
  destruct (run_in_one_pass batchSize (Nat.min (List.length orbits) MAX_METEORS)
              timers (mkState 0 [] 0) [] Hb) as [Hp Hs]; simpl; try lia.
  split; [exact Hp |]. rewrite Hs. simpl. rewrite Nat.sub_0_r. reflexivity.
Qed.

Lemma run_with_empty_batches (total timers : nat) :
  forall (st : State Meteor) (seen : list nat),
  (index st < total)%nat ->
  let out := run construct timers orbits 0 total st seen in
  pending out = true /\ state out = st /\
  boundaries out = seen ++ repeat (List.length (meteors st)) (S timers).
Proof.
  induction timers as [| timers IH]; intros st seen Hlt; simpl;
    unfold createBatch;
    replace (Nat.min (index st + 0) total - index st)%nat with 0%nat by lia;
    simpl;
    replace (index st <? total)%nat with true
      by (symmetry; apply Nat.ltb_lt; exact Hlt).
  - repeat split.
  - destruct (IH st (seen ++ [List.length (meteors st)]) Hlt) as (Hp & Hs & Hbd).
    repeat split; try assumption.
    rewrite Hbd, <- app_assoc. reflexivity.
Qed.

(** X29.  With a batch size of 0 and a list of orbits that is not empty,
    progressive creation never finishes: however many timers fire, a
    timer is pending, no meteor has been created and [onBatchCreated] has
    been called each time with the empty list. *)
Theorem zero_batch_size_never_finishes (timers : nat) :
  orbits <> [] ->
  let out := createMeteorsFromOrbitsProgressive construct orbits true true
               0 timers in
  pending out = true /\ meteors (state out) = [] /\
  boundaries out = repeat 0%nat (S timers).
Proof.
  intros Hne. unfold createMeteorsFromOrbitsProgressive.
  destruct orbits as [| o rest] eqn:Ho; [contradiction Hne; reflexivity |].
  rewrite <- Ho in *.
  replace ((List.length orbits =? 0)%nat || negb true || negb true) with false
    by (rewrite Ho; reflexivity).
  cbv zeta.
  destruct (run_with_empty_batches (Nat.min (List.length orbits) MAX_METEORS)
              timers (mkState 0 [] 0) []) as (Hp & Hs & Hbd).
  { rewrite Ho. simpl. unfold MAX_METEORS. lia. }
  split; [exact Hp |]. split; [rewrite Hs; reflexivity | exact Hbd].
Qed.

Lemma run_calls (batchSize total timers : nat) :
  forall (st : State Meteor) (seen : list nat),
  (0 < batchSize)%nat -> (index st < total)%nat ->
  (total <= index st + S timers * batchSize)%nat ->
  List.length (boundaries (run construct timers orbits batchSize total st seen)) =
  (List.length seen + S ((total - index st - 1) / batchSize))%nat.
Proof.
  induction timers as [| timers IH]; intros st seen Hb Hlt Hfuel; simpl.
  - unfold createBatch. rewrite iterations_index_add.
    replace (index st + (Nat.min (index st + batchSize) total - index st) <? total)%nat
      with false by (symmetry; apply Nat.ltb_ge; lia).
    simpl. rewrite length_app. simpl.
    rewrite Nat.div_small by lia. lia.
  - unfold createBatch.
    set (k := (Nat.min (index st + batchSize) total - index st)%nat).
    destruct (index (iterations construct orbits k st) <? total)%nat eqn:Hnext.
    + apply Nat.ltb_lt in Hnext.
      rewrite IH; try exact Hb; try exact Hnext.
      * rewrite iterations_index_add in Hnext |- *.
        rewrite length_app. simpl.
        assert (Hk : k = batchSize) by (unfold k in *; lia).
        rewrite Hk in *.
        replace (total - index st - 1)%nat
          with ((total - (index st + batchSize) - 1) + 1 * batchSize)%nat by lia.
        rewrite Nat.div_add by lia. lia.
      * rewrite iterations_index_add in Hnext |- *.
        simpl in Hfuel. unfold k in *. lia.
    + apply Nat.ltb_ge in Hnext. rewrite iterations_index_add in Hnext.
      simpl. rewrite length_app. simpl.
      rewrite Nat.div_small by (unfold k in *; lia). lia.
Qed.

(** X30.  For a positive batch size, [onBatchCreated] is called once per
    batch, that is [ceil(total / batchSize)] times for
    [total = min(orbits.length, MAX_METEORS)]. *)
Theorem one_callback_per_batch (batchSize timers : nat) :
  (0 < batchSize)%nat -> orbits <> [] ->
  (Nat.min (List.length orbits) MAX_METEORS <= S timers * batchSize)%nat ->
  List.length
    (boundaries (createMeteorsFromOrbitsProgressive construct orbits true true
                   batchSize timers)) =
  S ((Nat.min (List.length orbits) MAX_METEORS - 1) / batchSize).
Proof.
  intros Hb Hne Hfuel. unfold createMeteorsFromOrbitsProgressive.
  destruct orbits as [| o rest] eqn:Ho; [contradiction Hne; reflexivity |].
  rewrite <- Ho in *.
  replace ((List.length orbits =? 0)%nat || negb true || negb true) with false
    by (rewrite Ho; reflexivity).
  cbv zeta. rewrite run_calls; simpl; try lia.
  - rewrite Nat.sub_0_r. reflexivity.
  - rewrite Ho. simpl. unfold MAX_METEORS. lia.
Qed.

End Batches.

Lemma batches_give_the_result_of_one_pass_witness :
  let out := createMeteorsFromOrbitsProgressive (fun i (_ : unit) => Some i)
               (repeat (Some tt) 37) true true 10 3 in
  pending out = false /\
  state out =
    iterations (fun i (_ : unit) => Some i) (repeat (Some tt) 37)
      (Nat.min (List.length (repeat (Some tt) 37)) MAX_METEORS)
      (mkState 0 [] 0).
Proof.
  apply (batches_give_the_result_of_one_pass (fun i (_ : unit) => Some i)
           (repeat (Some tt) 37) 10 3).
  - lia.
  - discriminate.
  - simpl. lia.
Defined.

Lemma zero_batch_size_never_finishes_witness :
  let out := createMeteorsFromOrbitsProgressive (fun i (_ : unit) => Some i)
               (repeat (Some tt) 37) true true 0 5 in
  pending out = true /\ meteors (state out) = [] /\
  boundaries out = repeat 0%nat (S 5).
Proof.
  apply (zero_batch_size_never_finishes (fun i (_ : unit) => Some i)
           (repeat (Some tt) 37) 5).
  discriminate.
Defined.

Lemma one_callback_per_batch_witness :
  List.length
    (boundaries (createMeteorsFromOrbitsProgressive (fun i (_ : unit) => Some i)
                   (repeat (Some tt) 37) true true 10 3)) =
  S ((Nat.min (List.length (repeat (Some tt) 37)) MAX_METEORS - 1) / 10).
Proof.
  apply (one_callback_per_batch (fun i (_ : unit) => Some i)
           (repeat (Some tt) 37) 10 3).
  - lia.
  - discriminate.
  - simpl. lia.
Defined.

End ProgressiveExtra.

(** * Further properties of the camera controller *)

Module CameraExtra.
Import JsNum ThreeMath CameraController CameraProps NumFacts CameraFacts
       CameraBounds Scenes CameraSpec AnimateTo Samples NavigationProps.
Local Arguments update : simpl never.
Local Arguments updateMinDistanceForTarget : simpl never.
Local Arguments setFromVector3 : simpl never.
Local Arguments complete : simpl never.

Lemma PI_above_3 : 3 <= Rtrigo1.PI.
Proof. pose proof TrigBounds.PI_enclosure. lra. Qed.

Lemma restingController_invariant : invariant 500 restingController.
Proof.
  pose proof PI_above_3.
  unfold invariant, steady, withinBounds, finiteVector, finite, restingController.
  simpl. repeat split; try reflexivity; try lra; try (constructor).
  intros Hl. contradiction Hl. reflexivity.
Qed.
(** ** The frame that [update] skips *)

(** X1.  With a NaN or infinite spherical coordinate, or with a NaN
    component in the orbit centre, [update] leaves the camera and the
    orbit centre where they are and logs exactly one error. *)
Theorem update_skips_invalid_frame (w : World) (s : State) :
  isFinite (radius (spherical s)) && isFinite (phi (spherical s)) &&
  isFinite (theta (spherical s)) = false \/
  isNaN (x (target s)) || isNaN (y (target s)) || isNaN (z (target s)) = true ->
  camera (update w s) = camera s /\
  target (update w s) = target s /\
  exists message : string,
    effects (update w s) = effects s ++ [ConsoleError message].
Proof.
  intros [Hsph | Htgt].
  - rewrite (update_skips_invalid_spherical w s Hsph).
    repeat split. eexists. reflexivity.
  - unfold update.
    destruct (isNaN _ || _ || _ || _ || _ || _).
    + repeat split. eexists. reflexivity.
    + cbv zeta. simpl target. rewrite Htgt.
      repeat split. eexists. reflexivity.
Qed.

Lemma update_skips_invalid_frame_witness :
  let s := set_radius NaN restingController in
  camera (update demoWorld s) = camera s /\
  target (update demoWorld s) = target s /\
  exists message : string,
    effects (update demoWorld s) = effects s ++ [ConsoleError message].
Proof.
  apply (update_skips_invalid_frame demoWorld
           (set_radius NaN restingController)).
  left. reflexivity.
Defined.

(** ** Where [update] puts the camera *)

Lemma orbit_point_distance (r p t a b c : R) :
  R_sqrt.sqrt
    ((Rtrigo_def.sin p * r * Rtrigo_def.sin t + a + - a) *
     (Rtrigo_def.sin p * r * Rtrigo_def.sin t + a + - a) +
     (Rtrigo_def.cos p * r + b + - b) * (Rtrigo_def.cos p * r + b + - b) +
     (Rtrigo_def.sin p * r * Rtrigo_def.cos t + c + - c) *
     (Rtrigo_def.sin p * r * Rtrigo_def.cos t + c + - c)) = Rabs r.
Proof.
  pose proof (sin2_cos2 p) as Hp. pose proof (sin2_cos2 t) as Ht.
  unfold Rsqr in Hp, Ht.
  rewrite <- sqrt_Rsqr_abs. f_equal. unfold Rsqr.
  replace ((Rtrigo_def.sin p * r * Rtrigo_def.sin t + a + - a) *
           (Rtrigo_def.sin p * r * Rtrigo_def.sin t + a + - a) +
           (Rtrigo_def.cos p * r + b + - b) * (Rtrigo_def.cos p * r + b + - b) +
           (Rtrigo_def.sin p * r * Rtrigo_def.cos t + c + - c) *
           (Rtrigo_def.sin p * r * Rtrigo_def.cos t + c + - c))
    with (r * r *
          (Rtrigo_def.sin p * Rtrigo_def.sin p *
             (Rtrigo_def.sin t * Rtrigo_def.sin t +
              Rtrigo_def.cos t * Rtrigo_def.cos t) +
           Rtrigo_def.cos p * Rtrigo_def.cos p)) by ring.
  rewrite Ht, Rmult_1_r, Hp. ring.
Qed.


(** ** The minimum distance that follows the locked object *)

Lemma gt_abs_self (n : num) : JsNum.gt (JsNum.abs (n - n)%num) (Fin 0.1) = false.
Proof.
  destruct n; try reflexivity. simpl.
  replace (r + - r) with 0 by ring. rewrite Rabs_R0.
  apply lt_Fin_false. lra.
Qed.

(** X3.  [updateMinDistanceForTarget] is idempotent: calling it again,
    as [update] does on every frame of a lock, changes nothing more. *)
Theorem updateMinDistanceForTarget_idempotent (w : World) (s : State) :
  updateMinDistanceForTarget w (updateMinDistanceForTarget w s) =
  updateMinDistanceForTarget w s.
Proof.
  unfold updateMinDistanceForTarget at 2 3.
  destruct (lockedTarget s) as [locked |] eqn:Hl.
  2:{ unfold updateMinDistanceForTarget. rewrite Hl. reflexivity. }
  cbv zeta.
  destruct (JsNum.gt _ _) eqn:Hoff.
  2:{ unfold updateMinDistanceForTarget. rewrite Hl. cbv zeta.
      rewrite Hoff. reflexivity. }
  set (n := (targetRadius w s locked * Fin 2.5)%num) in *.
  destruct (JsNum.lt _ _);
    unfold updateMinDistanceForTarget; simpl lockedTarget; rewrite Hl;
    cbv zeta;
    match goal with
    | |- context [targetRadius w ?s1 locked] =>
        change (targetRadius w s1 locked) with (targetRadius w s locked)
    end;
    fold n; simpl minDistance; rewrite gt_abs_self; reflexivity.
Qed.

(** X4.  Once the camera is locked onto an object whose [radius] is a
    finite number [q], [updateMinDistanceForTarget] leaves the minimum
    distance within 0.1 of [2.5 q]; and whenever it changes the minimum
    distance, the requested distance is at least the new minimum. *)
Theorem minDistance_follows_locked_radius (w : World) (s : State)
    (b : BodyId) (q mn c : R) :
  lockedTarget s = Some b -> bodyRadius (w b) = Some (Fin q) ->
  minDistance s = Fin mn -> currentDistance s = Fin c ->
  exists mn' c' : R,
    minDistance (updateMinDistanceForTarget w s) = Fin mn' /\
    currentDistance (updateMinDistanceForTarget w s) = Fin c' /\
    Rabs (mn' - q * 2.5) <= 0.1 /\
    (mn' <> mn -> mn' = q * 2.5 /\ mn' <= c').
Proof.
  intros Hl Hq Hmn Hc.
  unfold updateMinDistanceForTarget, targetRadius. rewrite Hl, Hq. cbv zeta.
  rewrite Hmn. simpl. unfold Rltb.
  destruct (Rlt_dec 0.1 (Rabs (mn + - (q * 2.5)))) as [Hoff | Hnear].
  - rewrite Hc.
    destruct (JsNum.lt (Fin c) (Fin (q * 2.5))) eqn:Hlow.
    + exists (q * 2.5), (q * 2.5). simpl.
      repeat split; try lra.
      replace (q * 2.5 - q * 2.5) with 0 by ring. rewrite Rabs_R0. lra.
    + apply lt_Fin_inv_false in Hlow.
      exists (q * 2.5), c. simpl. rewrite Hc.
      repeat split; try lra.
      replace (q * 2.5 - q * 2.5) with 0 by ring. rewrite Rabs_R0. lra.
  - exists mn, c. rewrite Hmn, Hc.
    split; [reflexivity |]. split; [reflexivity |].
    split; [unfold Rminus; lra |]. intros Hne. contradiction Hne. reflexivity.
Qed.

Lemma minDistance_follows_locked_radius_witness :
  let s := set_lockMode earth
             (set_lockedTarget (Some earthId) restingController) in
  exists mn' c' : R,
    minDistance (updateMinDistanceForTarget demoWorld s) = Fin mn' /\
    currentDistance (updateMinDistanceForTarget demoWorld s) = Fin c' /\
    Rabs (mn' - 1 * 2.5) <= 0.1 /\
    (mn' <> 80 -> mn' = 1 * 2.5 /\ mn' <= c').
Proof.
  apply (minDistance_follows_locked_radius demoWorld
           (set_lockMode earth
              (set_lockedTarget (Some earthId) restingController))
           earthId 1 80 80); reflexivity.
Defined.
(** ** Zooming *)

Lemma update_free_fields (M : R) (w : World) (s : State) :
  steady M s -> lockedTarget s = None \/ isTransitioning s = true ->
  minDistance (update w s) = minDistance s /\
  currentDistance (update w s) = currentDistance s /\
  radius (spherical (update w s)) =
    JsNum.max (minDistance s) (JsNum.min (maxDistance s) (radius (spherical s))) /\
  phi (spherical (update w s)) =
    JsNum.max (Fin 0.01) (JsNum.min (JsNum.sub PI (Fin 0.01)) (phi (spherical s))) /\
  theta (spherical (update w s)) =
    (if autoRotate s then JsNum.add (theta (spherical s)) autoRotateSpeed
     else theta (spherical s)).
Proof.
  intros Hst Hfree.
  destruct (steady_valid M s Hst) as (V1 & V2 & V3 & V4).
  destruct (update_keeps_distances w s Hfree) as (Hmin & Hcd & _).
  repeat split; try assumption.
  - apply radius_after_update; assumption.
  - apply phi_after_update; assumption.
  - apply theta_after_update; assumption.
Qed.




(** ** Dragging *)

Lemma theta_followLockedTarget (w : World) (s : State) :
  theta (spherical (followLockedTarget w s)) = theta (spherical s).
Proof.
  unfold followLockedTarget, updateMinDistanceForTarget.
  repeat break_match; reflexivity.
Qed.

(** The angle [theta] after an [update] that is not skipped, locked or
    not. *)
Lemma theta_after_valid_update (w : World) (s : State) :
  finite (radius (spherical s)) -> finite (phi (spherical s)) ->
  finite (theta (spherical s)) ->
  isNaN (x (target s)) || isNaN (y (target s)) || isNaN (z (target s)) = false ->
  theta (spherical (update w s)) =
  if autoRotate s then JsNum.add (theta (spherical s)) autoRotateSpeed
  else theta (spherical s).
Proof.
  intros Hr Hp Ht Htgt. rewrite update_valid by assumption.
  match goal with
  | |- context [followLockedTarget w ?s2] =>
      pose proof (followLockedTarget_sameControl w s2) as Hsame;
      pose proof (theta_followLockedTarget w s2) as Hth;
      generalize dependent (followLockedTarget w s2)
  end.
  intros u Hsame Hth. unfold sameControl in Hsame. simpl in Hsame, Hth.
  destruct Hsame as (_ & _ & _ & _ & _ & _ & _ & _ & _ & _ & _ & _ & _ & _ &
                     Hauto & _).
  unfold placeCamera, autoRotateStep. simpl. rewrite Hauto.
  destruct (autoRotate s); simpl; rewrite Hth; reflexivity.
Qed.

Ltac open_controller s Hinv :=
  let Hst := fresh "Hst" in
  let Hwb := fresh "Hwb" in
  destruct Hinv as [Hst Hwb]; explode s; open_invariant Hst Hwb;
  subst; fin_vars; simpl; repeat rewrite ?min_Fin, ?max_Fin.


(** The angle [theta] after a drag with the button down. *)
Lemma theta_after_drag (M : R) (w : World) (cx cy : num) (s : State) :
  invariant M s -> finite cx -> finite cy -> isMouseDown s = true ->
  theta (spherical (onMouseMove w cx cy s)) =
  (if autoRotate s
   then theta (spherical s) - (cx - lastMouseX s) * rotationSpeed + autoRotateSpeed
   else theta (spherical s) - (cx - lastMouseX s) * rotationSpeed)%num.
Proof.
  intros Hinv Hev1 Hev2 Hdown.
  unfold onMouseMove. rewrite Hdown. simpl negb. cbv iota zeta.
  rewrite theta_after_valid_update;
    [ reflexivity | open_controller s Hinv; reflexivity .. ].
Qed.



(** ** Resetting the view and the zoom limits *)




(** ** Auto-rotation *)



(** ** The list of meteors *)

Lemma indexOf_range (l : list BodyId) (m : BodyId) :
  indexOf l m = (-1)%Z \/
  (0 <= indexOf l m < Z.of_nat (List.length l))%Z.
Proof.
  induction l as [| a l IH]; simpl; [left; reflexivity |].
  destruct (Nat.eqb a m); [right; lia |].
  destruct (indexOf l m =? -1)%Z eqn:E; [left; reflexivity |].
  apply Z.eqb_neq in E. right. destruct IH as [IH | IH]; [contradiction | lia].
Qed.

Lemma indexOf_In (l : list BodyId) (m : BodyId) :
  In m l ->
  (0 <= indexOf l m)%Z /\ nth_error l (Z.to_nat (indexOf l m)) = Some m.
Proof.
  induction l as [| a l IH]; intros Hin; [contradiction |]. simpl.
  destruct (Nat.eqb a m) eqn:E.
  - apply Nat.eqb_eq in E. subst. split; [lia | reflexivity].
  - destruct Hin as [-> | Hin]; [rewrite Nat.eqb_refl in E; discriminate |].
    destruct (IH Hin) as [Hpos Hnth].
    destruct (indexOf l m =? -1)%Z eqn:E1; [apply Z.eqb_eq in E1; lia |].
    split; [lia |].
    replace (Z.to_nat (indexOf l m + 1)) with (S (Z.to_nat (indexOf l m))) by lia.
    exact Hnth.
Qed.

Lemma indexOf_not_In (l : list BodyId) (m : BodyId) :
  ~ In m l -> indexOf l m = (-1)%Z.
Proof.
  induction l as [| a l IH]; intros Hnot; [reflexivity |]. simpl.
  destruct (Nat.eqb a m) eqn:E.
  - apply Nat.eqb_eq in E. subst. contradiction Hnot. left. reflexivity.
  - rewrite IH by (intros Hin; apply Hnot; right; exact Hin). reflexivity.
Qed.

(** X12.  [setCurrentMeteor(m)] always makes [m] the current meteor.
    When [m] is in the list, the index is moved to its first place, so
    that the meteor at the index is [m]; when it is not, the index is
    left as it was. *)
Theorem setCurrentMeteor_points_at_meteor (m : BodyId) (s : State) :
  currentMeteor (setCurrentMeteor (Some m) s) = Some m /\
  meteorsList (setCurrentMeteor (Some m) s) = meteorsList s /\
  (In m (meteorsList s) ->
   (0 <= currentMeteorIndex (setCurrentMeteor (Some m) s))%Z /\
   nth_error (meteorsList s)
     (Z.to_nat (currentMeteorIndex (setCurrentMeteor (Some m) s))) = Some m) /\
  (~ In m (meteorsList s) ->
   currentMeteorIndex (setCurrentMeteor (Some m) s) = currentMeteorIndex s).
Proof.
  unfold setCurrentMeteor. cbv zeta.
  destruct (indexOf (meteorsList s) m =? -1)%Z eqn:E.
  - apply Z.eqb_eq in E. simpl.
    split; [reflexivity |]. split; [reflexivity |]. split.
    + intros Hin. destruct (indexOf_In _ _ Hin). lia.
    + intros _. reflexivity.
  - apply Z.eqb_neq in E. simpl.
    split; [reflexivity |]. split; [reflexivity |]. split.
    + intros Hin. apply indexOf_In. exact Hin.
    + intros Hnot. contradiction E. apply indexOf_not_In. exact Hnot.
Qed.
Lemma indexInRange_same (s s' : State) :
  meteorsList s' = meteorsList s ->
  currentMeteorIndex s' = currentMeteorIndex s ->
  indexInRange s -> indexInRange s'.
Proof. unfold indexInRange. intros -> ->. auto. Qed.

Lemma indexInRange_sameControl (s s' : State) :
  sameControl s s' -> indexInRange s -> indexInRange s'.
Proof.
  unfold sameControl.
  intros (_ & _ & _ & _ & _ & _ & Hl & Hi & _). apply indexInRange_same; assumption.
Qed.

Lemma update_indexInRange (w : World) (s : State) :
  indexInRange s -> indexInRange (update w s).
Proof. apply indexInRange_sameControl, update_sameControl. Qed.

Lemma animate_indexInRange (w : World) (a : Animation) (s : State) :
  indexInRange s -> indexInRange (animate w a s).
Proof.
  destruct (animate_outcome w a s) as (Hi & Hl & _).
  apply indexInRange_same; assumption.
Qed.

Lemma transitionToTarget_indexInRange (w : World) (obj : BodyId) (dist : num)
    (c : Completion) (dur : num) (s : State) :
  indexInRange s -> indexInRange (transitionToTarget w obj dist c dur s).
Proof.
  intros H. unfold transitionToTarget, dateNow. cbv zeta.
  apply animate_indexInRange. exact H.
Qed.

Lemma setCurrentMeteor_indexInRange (m : option BodyId) (s : State) :
  indexInRange s -> indexInRange (setCurrentMeteor m s).
Proof.
  intros H. unfold setCurrentMeteor. cbv zeta.
  destruct m as [m |]; [| exact H].
  destruct (indexOf (meteorsList s) m =? -1)%Z eqn:E; [exact H |].
  apply Z.eqb_neq in E. unfold indexInRange. simpl. right.
  destruct (indexOf_range (meteorsList s) m) as [Hn | Hr];
    [contradiction | exact Hr].
Qed.

Lemma lockOntoMeteor_indexInRange (w : World) (m : option BodyId) (d : num)
    (s : State) :
  indexInRange s -> indexInRange (lockOntoMeteor w m d s).
Proof.
  intros H. unfold lockOntoMeteor. destruct m as [m |]; [| exact H].
  destruct (_ && _); [exact H |].
  destruct (instantiateMesh (w m)); cbv zeta;
    try (apply transitionToTarget_indexInRange; exact H).
  exact H.
Qed.

Lemma lockOntoMeteorByIndex_indexInRange (w : World) (i : Z) (d : num)
    (s : State) :
  indexInRange s -> indexInRange (lockOntoMeteorByIndex w i d s).
Proof.
  intros H. unfold lockOntoMeteorByIndex.
  destruct (_ =? 0)%nat; [exact H |].
  destruct ((i <? 0)%Z || (Z.of_nat (List.length (meteorsList s)) <=? i)%Z) eqn:E;
    [exact H |].
  apply orb_false_elim in E. destruct E as [E1 E2].
  apply Z.ltb_ge in E1. apply Z.leb_gt in E2. cbv zeta.
  apply lockOntoMeteor_indexInRange, setCurrentMeteor_indexInRange.
  unfold indexInRange. simpl. right. lia.
Qed.

Lemma onKeyDown_indexInRange (w : World) (code : Key) (s : State) :
  indexInRange s -> indexInRange (onKeyDown w code s).
Proof.
  intros H. unfold onKeyDown. destruct (isTransitioning s); [exact H |].
  destruct code; try exact H.
  - unfold resetCamera. apply update_indexInRange. exact H.
  - unfold lockOntoSunWithTransition.
    destruct (sunInstance s); [| exact H]. destruct (LockMode_eqb _ _); [exact H |].
    apply transitionToTarget_indexInRange. exact H.
  - unfold lockOntoEarthWithTransition.
    destruct (earthInstance s); [| exact H]. destruct (LockMode_eqb _ _); [exact H |].
    apply transitionToTarget_indexInRange. exact H.
  - unfold lockOntoMeteorIfExists. destruct (currentMeteor s); [| exact H].
    apply lockOntoMeteor_indexInRange. exact H.
  - destruct (meteorsList s) as [| firstMeteor rest] eqn:Hl; [exact H |].
    cbv zeta.
    assert (Hlock : indexInRange
              (lockOntoMeteor w (Some firstMeteor) (Fin 1500)
                 (setCurrentMeteor (Some firstMeteor) s)))
      by (apply lockOntoMeteor_indexInRange, setCurrentMeteor_indexInRange;
          exact H).
    destruct (lockOntoMeteorThrows w (Some firstMeteor)
                (setCurrentMeteor (Some firstMeteor) s)); [exact Hlock |].
    apply (indexInRange_same
             (lockOntoMeteor w (Some firstMeteor) (Fin 1500)
                (setCurrentMeteor (Some firstMeteor) s))); try reflexivity.
    exact Hlock.
  - unfold unlockTarget. destruct (lockedTarget s), (lockMode s); exact H.
  - cbv zeta. apply update_indexInRange.
    simpl lockedTarget. destruct (lockedTarget s); [exact H |].
    destruct (JsNum.lt _ _); exact H.
  - cbv zeta. apply update_indexInRange. exact H.
  - destruct (_ && _); [| exact H].
    apply lockOntoMeteorByIndex_indexInRange. exact H.
  - destruct (_ && _); [| exact H].
    apply lockOntoMeteorByIndex_indexInRange. exact H.
Qed.

Lemma step_indexInRange (w : World) (op : Op) (s : State) :
  indexInRange s -> indexInRange (step w op s).
Proof.
  intros H. destruct op; simpl.
  - exact H.
  - unfold onMouseMove. destruct (negb _); [exact H |].
    apply update_indexInRange. exact H.
  - exact H.
  - unfold onWheel. apply update_indexInRange. exact H.
  - apply onKeyDown_indexInRange. exact H.
  - apply update_indexInRange. exact H.
  - unfold resetCamera. apply update_indexInRange. exact H.
  - unfold setTarget. apply update_indexInRange. exact H.
  - apply setCurrentMeteor_indexInRange. exact H.
  - unfold setMeteorsList, indexInRange. simpl.
    destruct l as [| a l]; [left; split; reflexivity | right; simpl; lia].
  - unfold lockOntoMeteorIfExists. destruct (currentMeteor s); [| exact H].
    apply lockOntoMeteor_indexInRange. exact H.
  - unfold lockOntoSunWithTransition.
    destruct (sunInstance s); [| exact H]. destruct (LockMode_eqb _ _); [exact H |].
    apply transitionToTarget_indexInRange. exact H.
  - unfold lockOntoEarthWithTransition.
    destruct (earthInstance s); [| exact H]. destruct (LockMode_eqb _ _); [exact H |].
    apply transitionToTarget_indexInRange. exact H.
  - apply lockOntoMeteor_indexInRange. exact H.
  - apply lockOntoMeteorByIndex_indexInRange. exact H.
  - unfold unlockTarget. destruct (lockedTarget s), (lockMode s); exact H.
  - unfold setZoomLimits. apply update_indexInRange. exact H.
  - exact H.
  - unfold animationFrame. destruct (nth_error _ _); [| exact H].
    apply animate_indexInRange. exact H.
Qed.

(** X13.  In every state a controller goes through, the current index is
    a place of the list of meteors, or -1 while the list is empty.  The
    list is held by value: the array handed to [setMeteorsList] is taken
    not to be modified afterwards. *)
Theorem current_index_stays_in_range (s : State) :
  reachable s -> indexInRange s.
Proof.
  induction 1 as [w cam tgt minD maxD clk sunI earthI | w op s Hreach IH].
  - apply (indexInRange_same
             (mkState cam tgt minD maxD (JsNum.max minD (Fin 50)) false (Fin 0)
                (Fin 0) (setFromVector3 (sub (position cam) tgt)) false None
                none false [] (-1)%Z None None None [] clk 0 [])).
    + destruct (constructor_fields w cam tgt minD maxD clk sunI earthI)
        as (_ & _ & _ & _ & _ & _ & Hl & _). exact Hl.
    + destruct (constructor_fields w cam tgt minD maxD clk sunI earthI)
        as (_ & _ & _ & _ & _ & _ & _ & Hi & _). exact Hi.
    + left. split; reflexivity.
  - apply step_indexInRange. exact IH.
Qed.

Lemma current_index_stays_in_range_witness :
  indexInRange
    (step demoWorld (OnKeyDown ArrowRight)
       (step demoWorld (SetMeteorsList [2; 3; 4]%nat) (demoController stillClock))).
Proof.
  apply current_index_stays_in_range.
  apply reachable_step. apply reachable_step.
  unfold demoController. apply reachable_new.
Defined.
(** ** The callbacks of a transition *)

Lemma updateMinDistanceForTarget_target (w : World) (s : State) :
  target (updateMinDistanceForTarget w s) = target s.
Proof. unfold updateMinDistanceForTarget. repeat break_match; reflexivity. Qed.

(** What the callback [onComplete] leaves: the lock it sets, the orbit
    centre and the registered callbacks as they were. *)
Lemma complete_fields (w : World) (c : Completion) (s : State) :
  target (complete w c s) = target s /\
  frames (complete w c s) = frames s /\
  isTransitioning (complete w c s) = isTransitioning s /\
  match c with
  | CompleteSun =>
      lockedTarget (complete w c s) = sunInstance s /\
      lockMode (complete w c s) = sun
  | CompleteEarth =>
      lockedTarget (complete w c s) = earthInstance s /\
      lockMode (complete w c s) = earth
  | CompleteMeteor m =>
      lockedTarget (complete w c s) = Some m /\
      lockMode (complete w c s) = meteor
  end.
Proof.
  unfold complete.
  destruct c; cbv zeta;
    match goal with
    | |- context [updateMinDistanceForTarget w ?s1] =>
        pose proof (updateMinDistanceForTarget_sameControl w s1) as Hsame;
        pose proof (updateMinDistanceForTarget_target w s1) as Htgt;
        generalize dependent (updateMinDistanceForTarget w s1)
    end;
    intros u Hsame Htgt; unfold sameControl in Hsame; simpl in Hsame, Htgt;
    destruct Hsame as (H1 & H2 & H3 & _ & _ & _ & _ & _ & H9 & _);
    unfold emit; simpl; auto.
Qed.

Lemma animate_frames (w : World) (a : Animation) (s : State) :
  (frames (animate w a s) = frames s ++ [a] /\
   isTransitioning (animate w a s) = isTransitioning s) \/
  (frames (animate w a s) = frames s /\ isTransitioning (animate w a s) = false).
Proof.
  unfold animate, dateNow. cbv zeta.
  match goal with
  | |- context [update w ?s5] =>
      pose proof (update_sameControl w s5) as Hsame;
      generalize dependent (update w s5); intros u Hsame
  end.
  unfold sameControl, interpolate in Hsame. simpl in Hsame.
  destruct Hsame as (_ & _ & H3 & _ & _ & _ & _ & _ & H9 & _).
  destruct (JsNum.lt _ _).
  - left. simpl. split; congruence.
  - right.
    destruct (complete_fields w (onComplete a) (set_isTransitioning false u))
      as (_ & Hfr & Htr & _).
    rewrite Hfr, Htr. simpl. auto.
Qed.

(** X14.  A call of a registered transition callback consumes it and
    registers it again at most once: the callbacks of transitions never
    multiply from one frame to the next. *)
Theorem transition_callbacks_never_multiply (w : World) (i : nat) (s : State) :
  match nth_error (frames s) i with
  | Some a =>
      let others := firstn i (frames s) ++ skipn (S i) (frames s) in
      (frames (animationFrame w i s) = others ++ [a] /\
       isTransitioning (animationFrame w i s) = isTransitioning s) \/
      (frames (animationFrame w i s) = others /\
       isTransitioning (animationFrame w i s) = false)
  | None => animationFrame w i s = s
  end.
Proof.
  unfold animationFrame.
  destruct (nth_error (frames s) i) as [a |]; [| reflexivity]. cbv zeta.
  exact (animate_frames w a _).
Qed.

(** The progress of a transition whose time is up. *)
Lemma progressAt_done (a : Animation) (n t0 d : R) :
  startTime a = Fin t0 -> duration a = Fin d -> 0 < d -> d <= n - t0 ->
  progressAt a (Fin n) = Fin 1.
Proof.
  intros Ht0 Hd Hpos Hlate.
  rewrite (progressAt_value a n t0 d Ht0 Hd Hpos). f_equal.
  assert (1 <= (n - t0) / d).
  { apply (Rmult_le_reg_r d); [exact Hpos |].
    unfold Rdiv. rewrite Rmult_assoc, Rinv_l by lra. lra. }
  unfold Rmin. destruct (Rle_dec _ _); lra.
Qed.

(** X15.  [unlockTarget] does not cancel a transition in flight: the
    registered callbacks stay, and when one of them is called after its
    time is up, it locks the camera onto its object all the same. *)
Theorem unlock_does_not_cancel_transition (w : World) (i : nat) (s : State)
    (a : Animation) (n t0 d : R) :
  nth_error (frames s) i = Some a ->
  clock s (clockReads s) = Fin n ->
  startTime a = Fin t0 -> duration a = Fin d -> 0 < d -> d <= n - t0 ->
  frames (unlockTarget s) = frames s /\
  isTransitioning (unlockTarget s) = false /\
  match onComplete a with
  | CompleteSun =>
      lockedTarget (animationFrame w i (unlockTarget s)) = sunInstance s /\
      lockMode (animationFrame w i (unlockTarget s)) = sun
  | CompleteEarth =>
      lockedTarget (animationFrame w i (unlockTarget s)) = earthInstance s /\
      lockMode (animationFrame w i (unlockTarget s)) = earth
  | CompleteMeteor m =>
      lockedTarget (animationFrame w i (unlockTarget s)) = Some m /\
      lockMode (animationFrame w i (unlockTarget s)) = meteor
  end.
Proof.
  intros Hnth Hn Ht0 Hd Hpos Hlate.
  assert (Hfr : frames (unlockTarget s) = frames s)
    by (unfold unlockTarget; destruct (lockedTarget s), (lockMode s); reflexivity).
  assert (Hclock : clock (unlockTarget s) (clockReads (unlockTarget s)) = Fin n)
    by (unfold unlockTarget; destruct (lockedTarget s), (lockMode s); exact Hn).
  assert (Hsun : sunInstance (unlockTarget s) = sunInstance s)
    by (unfold unlockTarget; destruct (lockedTarget s), (lockMode s); reflexivity).
  assert (Hearth : earthInstance (unlockTarget s) = earthInstance s)
    by (unfold unlockTarget; destruct (lockedTarget s), (lockMode s); reflexivity).
  split; [exact Hfr |].
  split; [unfold unlockTarget; destruct (lockedTarget s), (lockMode s); reflexivity |].
  unfold animationFrame. rewrite Hfr, Hnth.
  generalize dependent (unlockTarget s). intros u Hfr Hclock Hsun Hearth.
  rewrite (animate_completes w a _ n 1); [| exact Hclock | | lra].
  2:{ exact (progressAt_done a n t0 d Ht0 Hd Hpos Hlate). }
  match goal with
  | |- context [complete w (onComplete a) ?v] =>
      assert (Hs : sunInstance v = sunInstance s /\ earthInstance v = earthInstance s)
  end.
  { match goal with
    | |- context [update w ?s5] =>
        pose proof (update_sameControl w s5) as Hsame;
        generalize dependent (update w s5); intros v Hsame
    end.
    unfold sameControl, interpolate in Hsame. simpl in Hsame.
    destruct Hsame as (_ & _ & _ & H4 & H5 & _). simpl. split; congruence. }
  match goal with
  | |- context [complete w (onComplete a) ?v] =>
      destruct (complete_fields w (onComplete a) v) as (_ & _ & _ & Hlock);
      generalize dependent v
  end.
  intros v [Hs1 Hs2] Hlock.
  destruct (onComplete a); rewrite <- ?Hs1, <- ?Hs2; exact Hlock.
Qed.

Lemma unlock_does_not_cancel_transition_witness :
  frames (unlockTarget transitingController) = frames transitingController /\
  isTransitioning (unlockTarget transitingController) = false /\
  lockedTarget (animationFrame demoWorld 0 (unlockTarget transitingController)) =
    earthInstance transitingController /\
  lockMode (animationFrame demoWorld 0 (unlockTarget transitingController)) = earth.
Proof.
  apply (unlock_does_not_cancel_transition demoWorld 0 transitingController
           earthApproach 1500 0 1500).
  - reflexivity.
  - reflexivity.
  - reflexivity.
  - reflexivity.
  - lra.
  - lra.
Defined.
Lemma lerpVectors_one (a b : Vector3) :
  finiteVector a -> finiteVector b -> lerpVectors a b (Fin 1) = b.
Proof.
  destruct a as [ax ay az], b as [bx by_ bz].
  unfold finiteVector, finite. simpl. intros (H1 & H2 & H3) (H4 & H5 & H6).
  destruct ax, ay, az, bx, by_, bz; try discriminate.
  unfold lerpVectors. simpl. f_equal; f_equal; lra.
Qed.


Lemma earthApproach_ok : animationOk earthApproach.
Proof.
  unfold animationOk, earthApproach, finiteVector, finite. simpl.
  repeat split; lra.
Qed.

Lemma transitingController_invariant : invariant 500 transitingController.
Proof.
  pose proof PI_above_3.
  unfold invariant, steady, withinBounds, finiteVector, finite,
    transitingController.
  simpl. repeat split; try reflexivity; try lra.
  - intros Hl. contradiction Hl. reflexivity.
  - constructor; [exact earthApproach_ok | constructor].
  - intros n. apply steppedClock_finite.
Qed.


(** ** The easing of a transition *)

(** X17.  The ease-in-out curve of a transition is monotone and maps the
    progress from 0 to 1 onto values from 0 to 1, so that an interpolated
    value never leaves the interval between its start and its goal. *)
Theorem ease_is_monotone_within_unit_interval (p q : R) :
  0 <= p -> p <= q -> q <= 1 ->
  exists e1 e2 : R,
    ease (Fin p) = Fin e1 /\ ease (Fin q) = Fin e2 /\
    0 <= e1 /\ e1 <= e2 /\ e2 <= 1.
Proof.
  intros Hp Hpq Hq. unfold ease.
  destruct (JsNum.lt (Fin p) (Fin 0.5)) eqn:E1;
    [apply lt_Fin_inv in E1 | apply lt_Fin_inv_false in E1];
    (destruct (JsNum.lt (Fin q) (Fin 0.5)) eqn:E2;
     [apply lt_Fin_inv in E2 | apply lt_Fin_inv_false in E2]);
    simpl; rewrite ?div_Fin by lra; simpl; do 2 eexists;
    (split; [reflexivity |]); (split; [reflexivity |]); repeat split; nra.
Qed.

Lemma ease_is_monotone_within_unit_interval_witness :
  exists e1 e2 : R,
    ease (Fin 0.25) = Fin e1 /\ ease (Fin 0.75) = Fin e2 /\
    0 <= e1 /\ e1 <= e2 /\ e2 <= 1.
Proof.
  apply (ease_is_monotone_within_unit_interval 0.25 0.75); lra.
Defined.
(** ** [animateTo] *)

(** X18.  [animateTo] moves the view only: neither the call nor any later
    call of its closure touches the lock, [isTransitioning] or the
    callbacks of transitions, so the keyboard stays live during the
    movement; and each call registers the closure at most once. *)
Theorem animateTo_leaves_the_lock_alone (w : World) (f : Flight) (s : State)
    (theta phi distance duration : num) (c : Flying) :
  sameLock s (fst (flightFrame w f s)) /\
  sameLock (controller c) (controller (animateTo w theta phi distance duration c)) /\
  (List.length (flights (animateTo w theta phi distance duration c))
     <= S (List.length (flights c)))%nat.
Proof.
  assert (Hframe : forall f0 s0, sameLock s0 (fst (flightFrame w f0 s0))).
  { intros f0 s0. unfold flightFrame, dateNow. cbv zeta. simpl fst.
    match goal with
    | |- sameLock _ (update w ?s4) =>
        pose proof (update_sameLock w s4) as Hs;
        generalize dependent (update w s4)
    end.
    intros u Hs. unfold sameLock in *. simpl in Hs. exact Hs. }
  split; [apply Hframe |].
  unfold animateTo, dateNow. cbv zeta.
  match goal with
  | |- context [flightFrame w ?f0 ?s0] =>
      pose proof (Hframe f0 s0) as Hs; destruct (flightFrame w f0 s0) as [s' again]
  end.
  simpl in Hs |- *. split; [exact Hs |].
  destruct again; [rewrite length_app; simpl; lia | lia].
Qed.

Lemma easeOut_Fin (p : R) : easeOut (Fin p) = Fin (1 - (1 - p) * (1 - p) * (1 - p)).
Proof. unfold easeOut. simpl. f_equal. Qed.



End CameraExtra.
